(** * MovieMe: the playback / navigation state machine

    A shallow embedding of the three source files of the repository:

    - [src/App.tsx], the host: first-visit flag, request for the clips, render
      guard;
    - the player with the props [videos] and [isFirstVisit], which the host
      imports as [./components/MoviePlayer] (the second of the two player
      files): module [MoviePlayer];
    - the player without props, which requests its clips itself and guards on
      the empty list (the first of the two player files): module [Standalone].

    React state is a record; the pieces of the browser that the component
    touches (localStorage, the media element behind [videoRef], the pending
    [play()] promises, the welcome [setTimeout], the console) are fields of an
    explicit world; handlers are written in a small monad of state and
    exceptions.  What the browser does on its own (a promise settles, time
    passes, the position of the playing clip moves, the clip ends) is an event
    like those of the user.  An [async] function is split at its [await]s: the part up to
    the first [await] runs inside the event that calls it, each continuation
    runs in an event of its own, when the environment settles the promise.
    Numbers are [Z]: indices and counters stay far below 2^53, where JavaScript
    numbers are exact. *)

From Stdlib Require Import ZArith Bool List.
From stdpp Require Import gmap strings list fin_maps.

Local Open Scope string_scope.
Local Open Scope list_scope.
Local Open Scope Z_scope.

(** ** Data *)

(** [interface Video { id: number; url: string; title: string }] *)
Module Video.
Record t := mk { id : Z; url : string; title : string }.
End Video.

(** The [useState] cells of [MoviePlayer]. *)
Record PlayerState := mkState {
  currentIndex : Z;
  isPlaying : bool;
  showWelcome : bool;
  playCount : Z;
  isMuted : bool;
  shouldUnmute : bool
}.

(** The [<StyledVideo>] element that [videoRef] points to.  [key] is the key of
    the enclosing [<VideoWrapper key={currentIndex}>]: a render with another key
    unmounts the element and creates a fresh one. *)
Record VideoElement := mkElement {
  key : Z;
  src : string;
  autoPlay : bool;
  muted : bool;
  paused : bool;
  currentTime : Z
}.

(** The two [await videoRef.current.play()] of [tryPlayVideo]. *)
Inductive Phase := FirstAttempt | MutedRetry.

Record World := mkWorld {
  videos : list Video.t;
  state : PlayerState;
  videoRef : option VideoElement;
  pending : list Phase;              (* play() promises that are not settled yet *)
  timer : option Z;                  (* the welcome timeout: milliseconds left *)
  localStorage : gmap string string;
  console : list string;
  playCalls : nat;                   (* how often play() has been called *)
  uncaught : list string             (* exceptions that escaped a handler or a render *)
}.

(** ** Record updates *)

Definition set_state (f : PlayerState -> PlayerState) (w : World) : World :=
  mkWorld (videos w) (f (state w)) (videoRef w) (pending w) (timer w)
          (localStorage w) (console w) (playCalls w) (uncaught w).
Definition set_videos (vs : list Video.t) (w : World) : World :=
  mkWorld vs (state w) (videoRef w) (pending w) (timer w)
          (localStorage w) (console w) (playCalls w) (uncaught w).
Definition set_videoRef (r : option VideoElement) (w : World) : World :=
  mkWorld (videos w) (state w) r (pending w) (timer w)
          (localStorage w) (console w) (playCalls w) (uncaught w).
Definition set_pending (p : list Phase) (w : World) : World :=
  mkWorld (videos w) (state w) (videoRef w) p (timer w)
          (localStorage w) (console w) (playCalls w) (uncaught w).
Definition set_timer (t : option Z) (w : World) : World :=
  mkWorld (videos w) (state w) (videoRef w) (pending w) t
          (localStorage w) (console w) (playCalls w) (uncaught w).
Definition set_localStorage (ls : gmap string string) (w : World) : World :=
  mkWorld (videos w) (state w) (videoRef w) (pending w) (timer w)
          ls (console w) (playCalls w) (uncaught w).
Definition set_console (c : list string) (w : World) : World :=
  mkWorld (videos w) (state w) (videoRef w) (pending w) (timer w)
          (localStorage w) c (playCalls w) (uncaught w).
Definition set_playCalls (n : nat) (w : World) : World :=
  mkWorld (videos w) (state w) (videoRef w) (pending w) (timer w)
          (localStorage w) (console w) n (uncaught w).
Definition set_uncaught (u : list string) (w : World) : World :=
  mkWorld (videos w) (state w) (videoRef w) (pending w) (timer w)
          (localStorage w) (console w) (playCalls w) u.

Definition with_currentIndex (f : Z -> Z) (s : PlayerState) : PlayerState :=
  mkState (f (currentIndex s)) (isPlaying s) (showWelcome s) (playCount s)
          (isMuted s) (shouldUnmute s).
Definition with_isPlaying (f : bool -> bool) (s : PlayerState) : PlayerState :=
  mkState (currentIndex s) (f (isPlaying s)) (showWelcome s) (playCount s)
          (isMuted s) (shouldUnmute s).
Definition with_showWelcome (f : bool -> bool) (s : PlayerState) : PlayerState :=
  mkState (currentIndex s) (isPlaying s) (f (showWelcome s)) (playCount s)
          (isMuted s) (shouldUnmute s).
Definition with_playCount (f : Z -> Z) (s : PlayerState) : PlayerState :=
  mkState (currentIndex s) (isPlaying s) (showWelcome s) (f (playCount s))
          (isMuted s) (shouldUnmute s).
Definition with_isMuted (f : bool -> bool) (s : PlayerState) : PlayerState :=
  mkState (currentIndex s) (isPlaying s) (showWelcome s) (playCount s)
          (f (isMuted s)) (shouldUnmute s).

Definition el_muted (b : bool) (e : VideoElement) : VideoElement :=
  mkElement (key e) (src e) (autoPlay e) b (paused e) (currentTime e).
Definition el_paused (b : bool) (e : VideoElement) : VideoElement :=
  mkElement (key e) (src e) (autoPlay e) (muted e) b (currentTime e).
Definition el_currentTime (t : Z) (e : VideoElement) : VideoElement :=
  mkElement (key e) (src e) (autoPlay e) (muted e) (paused e) t.

(** ** The monad of handlers: state, and exceptions that keep the state *)

Inductive Completion (A : Type) :=
| Normal (a : A)
| Throw (err : string).
Arguments Normal {A} a.
Arguments Throw {A} err.

Definition M (A : Type) : Type := World -> Completion A * World.

Definition ret {A} (a : A) : M A := fun w => (Normal a, w).
Definition throw {A} (err : string) : M A := fun w => (Throw err, w).
Definition bind {A B} (m : M A) (k : A -> M B) : M B :=
  fun w => match m w with
           | (Normal a, w') => k a w'
           | (Throw err, w') => (Throw err, w')
           end.
Definition try_catch {A} (body : M A) (handler : string -> M A) : M A :=
  fun w => match body w with
           | (Normal a, w') => (Normal a, w')
           | (Throw err, w') => handler err w'
           end.
Definition gets {A} (f : World -> A) : M A := fun w => (Normal (f w), w).
Definition modify (f : World -> World) : M unit := fun w => (Normal tt, f w).

Declare Scope js_scope.
Delimit Scope js_scope with js.
Notation "x <- m ;; k" := (bind m (fun x => k))
  (at level 20, m at level 99, k at level 200, only parsing) : js_scope.
Notation "m ;; k" := (bind m (fun _ => k))
  (at level 100, k at level 200, right associativity, only parsing) : js_scope.
Local Open Scope js_scope.

Definition skip : M unit := ret tt.
Definition when (b : bool) (m : M unit) : M unit := if b then m else skip.

(** ** JavaScript primitives *)

(** [xs[i]]: [undefined] outside the array. *)
Definition js_index {A} (xs : list A) (i : Z) : option A :=
  if i <? 0 then None else xs !! Z.to_nat i.

(** [xs.length] *)
Definition js_length {A} (xs : list A) : Z := Z.of_nat (length xs).

(** [!v] for the result of [localStorage.getItem]: [null] and the empty string
    are falsy. *)
Definition js_not (v : option string) : bool :=
  match v with
  | None => true
  | Some s => bool_decide (s = "")
  end.

Definition getItem (k : string) : M (option string) :=
  gets (fun w => localStorage w !! k).
Definition setItem (k v : string) : M unit :=
  modify (fun w => set_localStorage (<[k := v]> (localStorage w)) w).
Definition console_log (msg : string) : M unit :=
  modify (fun w => set_console (console w ++ [msg]) w).

(** [setX(v)] and [setX(prev => ...)] *)
Definition setCurrentIndex (f : Z -> Z) : M unit := modify (set_state (with_currentIndex f)).
Definition setIsPlaying (f : bool -> bool) : M unit := modify (set_state (with_isPlaying f)).
Definition setShowWelcome (f : bool -> bool) : M unit := modify (set_state (with_showWelcome f)).
Definition setPlayCount (f : Z -> Z) : M unit := modify (set_state (with_playCount f)).
Definition setIsMuted (f : bool -> bool) : M unit := modify (set_state (with_isMuted f)).

(** [if (videoRef.current) { ... }] *)
Definition whenRef (m : M unit) : M unit :=
  r <- gets videoRef ;;
  match r with
  | Some _ => m
  | None => skip
  end.

(** A property access or write on [videoRef.current] without a null check. *)
Definition onRef (f : VideoElement -> VideoElement) : M unit :=
  r <- gets videoRef ;;
  match r with
  | Some el => modify (set_videoRef (Some (f el)))
  | None => throw "TypeError"
  end.

(** [videoRef.current.play()]: the call is counted and its promise is pending
    until the environment settles it. *)
Definition play (ph : Phase) : M unit :=
  onRef (fun el => el) ;;
  modify (fun w => set_pending (pending w ++ [ph]) (set_playCalls (S (playCalls w)) w)).

(** [videoRef.current.pause()] *)
Definition pause : M unit := onRef (el_paused true).

(** [await p], once [p] has settled. *)
Definition await (settled : Completion unit) : M unit := fun w => (settled, w).

(** ** What the two player files share

    Line numbers are those of the player with props; the player without props
    has the same handlers and effects, at other lines. *)

Inductive Direction := Prev | Next.

(** [tryPlayVideo], lines 114-133, up to its first [await].  The call of
    [play()] sits in the [try], but under the null check it does not throw: a
    refusal arrives as the rejection of the promise. *)
Definition tryPlayVideo : M unit :=
  whenRef (play FirstAttempt).

(** [handleVideoEnd], lines 135-145.  [r] is the render the callback closes
    over: [playCount] is read from it, while [setPlayCount] updates the cell. *)
Definition handleVideoEnd (r : PlayerState) : M unit :=
  setPlayCount (fun prev => prev + 1) ;;
  if playCount r >=? 1 then setIsPlaying (fun _ => false)
  else whenRef (onRef (el_currentTime 0) ;; tryPlayVideo).

(** [handleNavigation], lines 147-157. *)
Definition handleNavigation (direction : Direction) : M unit :=
  vs <- gets videos ;;
  setCurrentIndex (fun prevIndex =>
    match direction with
    | Prev => if prevIndex =? 0 then js_length vs - 1 else prevIndex - 1
    | Next => if prevIndex =? js_length vs - 1 then 0 else prevIndex + 1
    end) ;;
  setPlayCount (fun _ => 0) ;;
  setIsPlaying (fun _ => true).

(** [handleKeyPress], lines 167-175. *)
Definition handleKeyPress (code : string) : M unit :=
  if String.eqb code "ArrowLeft" then handleNavigation Prev
  else if String.eqb code "ArrowRight" then handleNavigation Next
  else if String.eqb code "Space" then setIsPlaying negb
  else skip.

(** [handleVideoClick], lines 201-206. *)
Definition handleVideoClick (tagName : string) : M unit :=
  if negb (String.eqb tagName "BUTTON") then setIsPlaying negb else skip.

(** The [onClick] of [<UnmuteButton>], lines 240-244. *)
Definition handleUnmuteClick : M unit :=
  setIsMuted (fun _ => false) ;;
  setItem "videoMuted" "false".

(** The effect of lines 181-189. *)
Definition playEffect : M unit :=
  whenRef (s <- gets state ;; if isPlaying s then tryPlayVideo else pause).

(** The effect of lines 191-199, its timeout callback and its cleanup. *)
Definition setTimeout (ms : Z) : M unit := modify (set_timer (Some ms)).
Definition clearTimeout : M unit := modify (set_timer None).
Definition welcomeTimeout : M unit :=
  setShowWelcome (fun _ => false) ;;
  tryPlayVideo.
Definition welcomeEffect : M unit :=
  s <- gets state ;;
  when (showWelcome s) (setTimeout 3000).

(** The media element a render creates: [autoPlay], [muted={isMuted}]. *)
Definition newElement (k : Z) (v : Video.t) (m : bool) : VideoElement :=
  mkElement k (Video.url v) true m true 0.

(** Line 238: the unmute control is in the tree under [isMuted && shouldUnmute]. *)
Definition unmuteButtonRendered (s : PlayerState) : bool :=
  isMuted s && shouldUnmute s.

(** ** Events *)

(** [e.target] of a click. *)
Inductive Target :=
| Surface (tagName : string)    (* the video, the welcome message, the container *)
| LeftButton
| RightButton
| UnmuteButton.

Inductive Event :=
| KeyDown (code : string)
| Click (target : Target)
| SwipedLeft
| SwipedRight
| Ended                          (* onEnded of the media element *)
| Settled (i : nat) (ok : bool)  (* the i-th pending play() resolves or rejects *)
| Elapse (ms : Z)                (* time passes *)
| TimeUpdate (t : Z).            (* the playback position of the element is now t *)

Definition settlement (ok : bool) : Completion unit :=
  if ok then Normal tt else Throw "NotAllowedError".

Section Component.
(** What differs between the two player files: the render and the
    continuation of [tryPlayVideo]. *)
Variable render_ : PlayerState -> M unit.
Variable resume_ : Phase -> Completion unit -> M unit.

(** A passing of [ms] milliseconds: the timeout fires once it is due. *)
Definition elapse (ms : Z) : M unit :=
  t <- gets timer ;;
  match t with
  | Some remaining =>
      if ms <=? 0 then skip
      else if remaining <=? ms then clearTimeout ;; welcomeTimeout
      else modify (set_timer (Some (remaining - ms)))
  | None => skip
  end.

(** The handlers an event runs; [r] is the render they close over. *)
Definition dispatch (r : PlayerState) (e : Event) : M unit :=
  match e with
  | KeyDown code => handleKeyPress code
  | Click (Surface tagName) => handleVideoClick tagName
  | Click LeftButton => handleNavigation Prev ;; handleVideoClick "BUTTON"
  | Click RightButton => handleNavigation Next ;; handleVideoClick "BUTTON"
  | Click UnmuteButton =>
      (* in the tree only when rendered; it stops propagation *)
      when (unmuteButtonRendered r) handleUnmuteClick
  | SwipedLeft => handleNavigation Next
  | SwipedRight => handleNavigation Prev
  | Ended => handleVideoEnd r
  | Settled i ok =>
      p <- gets pending ;;
      match p !! i with
      | Some ph =>
          modify (set_pending (delete i p)) ;;
          (* a resolved play() means that the element plays *)
          when ok (whenRef (onRef (el_paused false))) ;;
          resume_ ph (settlement ok)
      | None => skip
      end
  | Elapse ms => elapse ms
  | TimeUpdate t =>
      (* the browser moves the position of the clip it plays; the component
         has no handler for it.  The position may move at any time here,
         which covers what a browser does. *)
      whenRef (onRef (el_currentTime t))
  end.

(** Re-render and the effects whose dependencies changed. *)
Definition commit (r : PlayerState) : M unit :=
  render_ r ;;
  s <- gets state ;;
  when (negb (Bool.eqb (isPlaying r) (isPlaying s)) || negb (currentIndex r =? currentIndex s))
       playEffect ;;
  when (negb (Bool.eqb (showWelcome r) (showWelcome s)))
       (clearTimeout ;; welcomeEffect).

(** An exception nobody catches is reported and the event is over.  When it
    is a render that throws, React takes the tree down: a world is followed up
    to such a throw, and what is stated about later events is stated about
    components whose renders do not throw. *)
Definition settle (m : M unit) (w : World) : World :=
  match m w with
  | (Normal _, w') => w'
  | (Throw err, w') => set_uncaught (uncaught w' ++ [err]) w'
  end.

Definition step (e : Event) (w : World) : World :=
  settle (dispatch (state w) e ;; commit (state w)) w.

Definition run (evs : list Event) (w : World) : World :=
  fold_left (fun w e => step e w) evs w.
End Component.

(** ** The player with props, mounted by the host *)

Module MoviePlayer.

(** [tryPlayVideo] from an [await] on: [settled] is how the awaited [play()]
    promise settled.  The second [await] sits in the [try] nested in the outer
    [catch]. *)
Definition tryPlayVideo_resume (ph : Phase) (settled : Completion unit) : M unit :=
  match ph with
  | FirstAttempt =>
      try_catch
        (await settled ;;
         s <- gets state ;;
         when (shouldUnmute s) (setIsMuted (fun _ => false)))
        (fun error =>
           console_log "Autoplay failed, retrying in muted state" ;;
           whenRef
             (onRef (el_muted true) ;;
              try_catch (play MutedRetry)
                (fun retryError => console_log "Muted autoplay also failed")))
  | MutedRetry =>
      try_catch (await settled)
        (fun retryError => console_log "Muted autoplay also failed")
  end.

(** The render of lines 208-267, as far as the media element goes:
    [videos[currentIndex].url] is evaluated, an element with another key is
    replaced, and a changed [muted] prop is written to the element. *)
Definition render (prev : PlayerState) : M unit :=
  s <- gets state ;;
  vs <- gets videos ;;
  match js_index vs (currentIndex s) with
  | None => throw "TypeError"
  | Some v =>
      r <- gets videoRef ;;
      match r with
      | Some el =>
          if key el =? currentIndex s then
            when (negb (Bool.eqb (isMuted prev) (isMuted s)))
                 (modify (set_videoRef (Some (el_muted (isMuted s) el))))
          else modify (set_videoRef (Some (newElement (currentIndex s) v (isMuted s))))
      | None => modify (set_videoRef (Some (newElement (currentIndex s) v (isMuted s))))
      end
  end.

(** [useState(() => localStorage.getItem('videoMuted') === 'false')] *)
Definition shouldUnmute_init (ls : gmap string string) : bool :=
  bool_decide (ls !! "videoMuted" = Some "false").

(** The first render and the effects of the mount. *)
Definition mount (vs : list Video.t) (isFirstVisit : bool)
    (ls : gmap string string) : World :=
  let s := mkState 0 true isFirstVisit 0 true (shouldUnmute_init ls) in
  settle (render s ;; playEffect ;; welcomeEffect)
         (mkWorld vs s None [] None ls [] 0%nat []).

Definition step : Event -> World -> World := step render tryPlayVideo_resume.
Definition run : list Event -> World -> World := run render tryPlayVideo_resume.

End MoviePlayer.

(** ** The host (src/App.tsx) *)

Module App.

Record State := mk {
  videos : list Video.t;
  loading : bool;
  isFirstVisit : bool
}.

(** The initializer of [isFirstVisit], lines 13-20: the result and the
    storage it leaves. *)
Definition isFirstVisit_init (ls : gmap string string) : bool * gmap string string :=
  let visited := ls !! "visited" in
  if js_not visited then (true, <["visited" := "true"]> ls)
  else (false, ls).

(** An item of the array the endpoint answers with. *)
Record Movie := mkMovie { id : Z; video_url : string; title : string }.

(** How the request of lines 25-36 ends. *)
Inductive Response :=
| Failed                        (* fetch or response.json() rejects *)
| NoMoreNewVideos               (* data.no_more_new_videos is set *)
| Items (data : list Movie)     (* an array of objects with these fields *)
| NoArray                       (* anything else: reading the flag or calling
                                   data.map throws a TypeError *)
| NullItem.                     (* an array with a null or undefined entry:
                                   item.id throws inside data.map *)

Definition transformed (data : list Movie) : list Video.t :=
  map (fun item => Video.mk (id item) (video_url item) (title item)) data.

(** [fetchVideos], lines 23-54: [try], [catch] and [finally].  The [alert] and
    the [console.error] leave no trace in the state. *)
Definition fetchVideos (r : Response) (a : State) : State :=
  let a' :=
    match r with
    | NoMoreNewVideos => mk [] (loading a) (isFirstVisit a)
    | Items data => mk (transformed data) (loading a) (isFirstVisit a)
    | Failed | NoArray | NullItem => a
    end in
  mk (videos a') false (isFirstVisit a').

Inductive View :=
| LoadingVideos                               (* "Loading videos..." *)
| NoVideosToDisplay                           (* "No videos to display." *)
| Player (videos : list Video.t) (isFirstVisit : bool).

(** Lines 59-69. *)
Definition render (a : State) : View :=
  if loading a then LoadingVideos
  else if js_length (videos a) >? 0 then Player (videos a) (isFirstVisit a)
  else NoVideosToDisplay.

(** The first render of the host. *)
Definition init (ls : gmap string string) : State * gmap string string :=
  let '(first, ls') := isFirstVisit_init ls in (mk [] true first, ls').

(** A session: the page is loaded with storage [ls], the request ends with
    [r], and then the events [evs] reach the player if there is one. *)
Definition session (ls : gmap string string) (r : Response) (evs : list Event)
  : View * option World :=
  let '(a, ls') := init ls in
  let v := render (fetchVideos r a) in
  (v, match v with
      | Player vs fv => Some (MoviePlayer.run evs (MoviePlayer.mount vs fv ls'))
      | _ => None
      end).

(** The storage a session leaves for the next one. *)
Definition storage_after (ls : gmap string string) (r : Response) (evs : list Event)
  : gmap string string :=
  match snd (session ls r evs) with
  | Some w => localStorage w
  | None => snd (init ls)
  end.

End App.

(** ** The durable flags, under the names of the specification *)

Module PersistentPreferences.

(** [hasVisitedBefore()] is the negation of the first-visit initializer. *)
Definition hasVisitedBefore (ls : gmap string string) : bool * gmap string string :=
  let '(first, ls') := App.isFirstVisit_init ls in (negb first, ls').

Definition getSoundPreference (ls : gmap string string) : bool :=
  MoviePlayer.shouldUnmute_init ls.

(** What the program does to the store. *)
Inductive Access :=
| HasVisitedBefore      (* the first-visit initializer *)
| GetSoundPreference    (* the [shouldUnmute] initializer *)
| SetSoundUnmuted.      (* the unmute control *)

(** The answers of the [hasVisitedBefore()] calls among [accs], in order,
    and the final store. *)
Fixpoint answers (accs : list Access) (ls : gmap string string)
  : list bool * gmap string string :=
  match accs with
  | [] => ([], ls)
  | HasVisitedBefore :: rest =>
      let '(b, ls') := hasVisitedBefore ls in
      let '(bs, ls'') := answers rest ls' in (b :: bs, ls'')
  | GetSoundPreference :: rest => answers rest ls
  | SetSoundUnmuted :: rest => answers rest (<["videoMuted" := "false"]> ls)
  end.

End PersistentPreferences.

(** ** The player without props, which requests its clips itself *)

Module Standalone.

(** The initializer of [showWelcome], lines 101-108. *)
Definition showWelcome_init (ls : gmap string string) : bool * gmap string string :=
  let visited := ls !! "visited" in
  if js_not visited then (true, <["visited" := "true"]> ls)
  else (false, ls).

(** [tryPlayVideo] from an [await] on, lines 141-153: the [catch] writes
    [videoRef.current.muted] without a null check. *)
Definition tryPlayVideo_resume (ph : Phase) (settled : Completion unit) : M unit :=
  match ph with
  | FirstAttempt =>
      try_catch
        (await settled ;;
         s <- gets state ;;
         when (shouldUnmute s) (setIsMuted (fun _ => false)))
        (fun _ =>
           onRef (el_muted true) ;;
           try_catch (play MutedRetry) (fun _ => console_log "Play failed"))
  | MutedRetry =>
      try_catch (await settled) (fun _ => console_log "Play failed")
  end.

(** Lines 218-271: the guard on the empty list comes before the JSX. *)
Definition render (prev : PlayerState) : M unit :=
  vs <- gets videos ;;
  if js_length vs =? 0 then modify (set_videoRef None)
  else MoviePlayer.render prev.

(** How the request of lines 117-137 ends. *)
Inductive Response :=
| Failed                            (* the promise chain rejects *)
| Success (movies : list App.Movie) (* data.status === 'success' *)
| Other.                            (* any other status *)

Definition fetched (r : Response) : M unit :=
  match r with
  | Success movies => modify (set_videos (App.transformed movies))
  | Other => console_log "Failed to load videos"
  | Failed => console_log "Error fetching:"
  end.

Inductive Input :=
| Fetched (r : Response)
| Player (e : Event).

Definition dispatch_input (r : PlayerState) (i : Input) : M unit :=
  match i with
  | Fetched resp => fetched resp
  | Player e =>
      vs <- gets videos ;;
      match e with
      | Click _ | SwipedLeft | SwipedRight | Ended =>
          (* these handlers hang on the JSX below the guard *)
          if js_length vs =? 0 then skip
          else dispatch tryPlayVideo_resume r e
      | KeyDown _ | Settled _ _ | Elapse _ | TimeUpdate _ =>
          dispatch tryPlayVideo_resume r e
      end
  end.

Definition step (i : Input) (w : World) : World :=
  settle (dispatch_input (state w) i ;; commit render (state w)) w.

Definition run (ins : list Input) (w : World) : World :=
  fold_left (fun w i => step i w) ins w.

(** The first render, with no videos yet, and the effects of the mount. *)
Definition mount (ls : gmap string string) : World :=
  let '(first, ls') := showWelcome_init ls in
  let s := mkState 0 true first 0 true (MoviePlayer.shouldUnmute_init ls') in
  settle (render s ;; playEffect ;; welcomeEffect)
         (mkWorld [] s None [] None ls' [] 0%nat []).

End Standalone.

(** * Properties

    What the theorems below speak about: sessions in sequence, the kinds of
    events, the invariants of the mounted player, and the readings of the
    specification that the code does not bear out. *)

(** The storage after a sequence of sessions, each with the answer to its
    request and the events of its player. *)
Fixpoint sessions (ss : list (App.Response * list Event)) (ls : gmap string string)
  : gmap string string :=
  match ss with
  | [] => ls
  | (r, evs) :: rest => sessions rest (App.storage_after ls r evs)
  end.

(** A clip for the examples. *)
Definition clip (i : Z) : Video.t := Video.mk i "clip.mp4" "clip".

(** ** Invariants *)

(** [currentIndex] is an index of [videos]. *)
Definition in_range (w : World) : Prop :=
  0 <= currentIndex (state w) < js_length (videos w).

(** The index is in range and [videoRef.current] is an element. *)
Definition wf (w : World) : Prop := in_range w /\ is_Some (videoRef w).

(** Sound is off for good: no stored preference was read, the cell and the
    media element are muted, and the stored flag is [flag]. *)
Definition silent (flag : option string) (w : World) : Prop :=
  shouldUnmute (state w) = false
  /\ isMuted (state w) = true
  /\ localStorage w !! "videoMuted" = flag
  /\ (forall el, videoRef w = Some el -> muted el = true).

(** ** Kinds of events *)

(** The events wired to [handleNavigation]: arrow keys (lines 168-171), the
    swipe handlers (lines 160-161) and the two buttons (lines 255, 261). *)
Definition navigation (e : Event) : option Direction :=
  match e with
  | KeyDown code =>
      if String.eqb code "ArrowLeft" then Some Prev
      else if String.eqb code "ArrowRight" then Some Next
      else None
  | Click LeftButton => Some Prev
  | Click RightButton => Some Next
  | SwipedLeft => Some Next
  | SwipedRight => Some Prev
  | _ => None
  end.

(** The index a navigation request asks for, as the specification writes it. *)
Definition wrapped (d : Direction) (n i : Z) : Z :=
  match d with
  | Prev => (i - 1 + n) mod n
  | Next => (i + 1) mod n
  end.

(** The events wired to the play/pause toggle: the space bar (line 173) and a
    click whose target is not a button (lines 201-206). *)
Definition toggles (e : Event) : bool :=
  match e with
  | KeyDown code =>
      negb (String.eqb code "ArrowLeft") && negb (String.eqb code "ArrowRight")
      && String.eqb code "Space"
  | Click (Surface tagName) => negb (String.eqb tagName "BUTTON")
  | _ => false
  end.

(** The end of the clip. *)
Definition ended (e : Event) : bool :=
  match e with Ended => true | _ => false end.

(** The milliseconds that pass during [evs]. *)
Fixpoint elapsed (evs : list Event) : Z :=
  match evs with
  | [] => 0
  | Elapse ms :: rest => Z.max 0 ms + elapsed rest
  | _ :: rest => elapsed rest
  end.

(** [t] milliseconds after the mount of a first visit: the overlay is up and
    its timeout has [3000 - t] left, or the overlay is gone for good. *)
Definition welcome_at (t : Z) (w : World) : Prop :=
  (showWelcome (state w) = true /\ timer w = Some (3000 - t) /\ t < 3000)
  \/ (showWelcome (state w) = false /\ timer w = None /\ 3000 <= t).

(** How many of the accesses are calls of [hasVisitedBefore()]. *)
Fixpoint calls (accs : list PersistentPreferences.Access) : nat :=
  match accs with
  | [] => 0
  | PersistentPreferences.HasVisitedBefore :: rest => S (calls rest)
  | _ :: rest => calls rest
  end.

(** The inputs that leave the self-fetching player without clips. *)
Definition brings_no_clips (i : Standalone.Input) : Prop :=
  match i with
  | Standalone.Fetched (Standalone.Success (_ :: _)) => False
  | _ => True
  end.

(** The self-fetching player while it has no clips: nothing is rendered below
    the guard. *)
Definition loading (w : World) : Prop :=
  videos w = [] /\ videoRef w = None /\ pending w = [].

(** The events, other than navigation requests and toggles, whose handlers
    call [play()]: the end of a clip that has not ended before (lines 135-145),
    the welcome timeout when it is due (lines 191-199), and the rejection of
    the first [play()] of an attempt, which is retried (lines 121-131). *)
Definition issues_play (w : World) (e : Event) : bool :=
  match e with
  | Ended => negb (playCount (state w) >=? 1)
  | Elapse ms =>
      match timer w with
      | Some remaining => negb (ms <=? 0) && (remaining <=? ms)
      | None => false
      end
  | Settled i false =>
      match pending w !! i with
      | Some FirstAttempt => true
      | _ => false
      end
  | _ => false
  end.

(** ** Readings that fail *)

(** The reading of C2 under which the stopped player waits for a navigation
    request: after the second end of a clip, events that are not navigation
    requests leave [isPlaying] false. *)
Definition halts_until_navigation : Prop :=
  forall vs fv ls evs rest,
    vs <> [] ->
    let w := MoviePlayer.run evs (MoviePlayer.mount vs fv ls) in
    playCount (state w) = 0 ->
    Forall (fun e => navigation e = None) rest ->
    isPlaying (state (MoviePlayer.run rest (MoviePlayer.run [Ended; Ended] w))) = false.

(** The reading of C3 on [isMuted]: a rejected first [play()] leaves [isMuted]
    true. *)
Definition rejected_play_sets_isMuted : Prop :=
  forall vs fv ls evs i,
    vs <> [] ->
    let w := MoviePlayer.run evs (MoviePlayer.mount vs fv ls) in
    pending w !! i = Some FirstAttempt ->
    isMuted (state (MoviePlayer.step (Settled i false) w)) = true.

(** The reading of C6: as long as the overlay is up, [play()] has not been
    called. *)
Definition autoplay_deferred : Prop :=
  forall vs ls evs,
    vs <> [] ->
    let w := MoviePlayer.run evs (MoviePlayer.mount vs true ls) in
    showWelcome (state w) = true -> playCalls w = 0%nat.

(** Whether the welcome overlay is on the screen of a session: it is part of
    the tree of the player (lines 210-221), under [showWelcome]. *)
Definition overlay_shown (s : App.View * option World) : bool :=
  match snd s with
  | Some w => showWelcome (state w)
  | None => false
  end.

(** The reading of C5 on every session: the overlay is shown at the start
    exactly when [hasVisitedBefore()] answered false. *)
Definition overlay_iff_first_visit : Prop :=
  forall ls r,
    overlay_shown (App.session ls r []) = true
    <-> fst (PersistentPreferences.hasVisitedBefore ls) = false.

(** ** The media element *)

(** The media element shows the clip of its key, with [autoPlay]. *)
Definition shows_clip (w : World) : Prop :=
  forall el, videoRef w = Some el ->
    autoPlay el = true
    /\ exists v, js_index (videos w) (key el) = Some v /\ src el = Video.url v.

(** While [isMuted] holds, the media element is muted. *)
Definition mute_synced (w : World) : Prop :=
  forall el, videoRef w = Some el -> isMuted (state w) = true -> muted el = true.

(** The media element is the one rendered for [currentIndex]. *)
Definition current_element (w : World) : Prop :=
  exists el, videoRef w = Some el /\ key el = currentIndex (state w).

(** ** The store during a session *)

(** The store is [ls], and [shouldUnmute] is what was read from it. *)
Definition store_kept (ls : gmap string string) (w : World) : Prop :=
  localStorage w = ls
  /\ shouldUnmute (state w) = PersistentPreferences.getSoundPreference ls.

(** The clip ends since the last navigation request, counted from [c]. *)
Fixpoint ends_since_navigation (evs : list Event) (c : Z) : Z :=
  match evs with
  | [] => c
  | e :: rest =>
      ends_since_navigation rest
        (match navigation e with
         | Some _ => 0
         | None => if ended e then c + 1 else c
         end)
  end.

(** ** Events without a handler *)

(** The events the player ignores in [w]: a key without a binding (lines
    166-179), a click on a button of its own (lines 201-206), a click on the
    unmute control while it is not in the tree (line 238), the settling of a
    promise that is not pending, and a passing of time without a running
    timeout. *)
Definition ignored (w : World) (e : Event) : bool :=
  match e with
  | KeyDown code =>
      negb (String.eqb code "ArrowLeft") && negb (String.eqb code "ArrowRight")
      && negb (String.eqb code "Space")
  | Click (Surface tagName) => String.eqb tagName "BUTTON"
  | Click UnmuteButton => negb (unmuteButtonRendered (state w))
  | Settled i _ => bool_decide (pending w !! i = None)
  | Elapse ms => (ms <=? 0) || bool_decide (timer w = None)
  | _ => false
  end.

(** ** The two player files side by side *)

(** The world without what was written to the console. *)
Definition forget_console (w : World) : World := set_console [] w.

(** The rejection of a promise that is pending in [w]. *)
Definition rejection (w : World) (e : Event) : bool :=
  match e with
  | Settled i false => bool_decide (is_Some (pending w !! i))
  | _ => false
  end.

(** ** The player without props before the clips arrive *)

(** What an input adds to [currentIndex] while the list is empty. *)
Definition arrow (i : Standalone.Input) : Z :=
  match i with
  | Standalone.Player (KeyDown code) =>
      if String.eqb code "ArrowLeft" then -1
      else if String.eqb code "ArrowRight" then 1
      else 0
  | _ => 0
  end.

Fixpoint arrows (ins : list Standalone.Input) : Z :=
  match ins with
  | [] => 0
  | i :: rest => arrow i + arrows rest
  end.

(** The events of the player among the inputs. *)
Fixpoint player_events (ins : list Standalone.Input) : list Event :=
  match ins with
  | [] => []
  | Standalone.Player e :: rest => e :: player_events rest
  | _ :: rest => player_events rest
  end.

(** ** The element muted by the catch block *)

(** The element of the current clip is muted although [isMuted] is false: the
    state the [catch] of [tryPlayVideo] leaves when [isMuted] was false. *)
Definition sound_lost (w : World) : Prop :=
  isMuted (state w) = false
  /\ exists el, videoRef w = Some el /\ muted el = true /\ key el = currentIndex (state w).

(** ** Judgements on handlers *)

(** From a world in [Pre], [m] leaves a world in [Post], however it completes. *)
Definition hoare {A} (Pre Post : World -> Prop) (m : M A) : Prop :=
  forall w, Pre w -> Post (snd (m w)).

(** From a world in [Pre], [m] completes normally and leaves a world in [P]. *)
Definition total {A} (Pre P : World -> Prop) (m : M A) : Prop :=
  forall w, Pre w -> P (snd (m w)) /\ exists a, fst (m w) = Normal a.

(** [m] does not read the console: from worlds that differ in the console
    only it completes alike and leaves such worlds. *)
Definition blind {A} (m : M A) : Prop :=
  forall w1 w2, forget_console w1 = forget_console w2 ->
    fst (m w1) = fst (m w2) /\ forget_console (snd (m w1)) = forget_console (snd (m w2)).

(** * Reasoning about handlers *)

Section Hoare.
Context {A B : Type} (Pre P : World -> Prop).

Lemma hoare_ret (a : A) : (forall w, Pre w -> P w) -> hoare Pre P (ret a).
Proof. intros H w Hw. apply H, Hw. Qed.

Lemma hoare_throw err : (forall w, Pre w -> P w) -> hoare Pre P (@throw A err).
Proof. intros H w Hw. apply H, Hw. Qed.

Lemma hoare_gets (f : World -> A) : (forall w, Pre w -> P w) -> hoare Pre P (gets f).
Proof. intros H w Hw. apply H, Hw. Qed.

Lemma hoare_await c : (forall w, Pre w -> P w) -> hoare Pre P (await c).
Proof. intros H w Hw. apply H, Hw. Qed.

Lemma hoare_modify g : (forall w, Pre w -> P (g w)) -> hoare Pre P (modify g).
Proof. intros H w Hw. apply H, Hw. Qed.

Lemma hoare_bind (m : M A) (k : A -> M B) :
  hoare Pre P m -> (forall a, hoare P P (k a)) -> hoare Pre P (bind m k).
Proof.
  intros Hm Hk w Hw. unfold bind. specialize (Hm w Hw).
  destruct (m w) as [[a|err] w']; simpl in *; [apply Hk, Hm | exact Hm].
Qed.

(** A value read from the world is known to the rest of the handler. *)
Lemma hoare_bind_gets (f : World -> A) (k : A -> M B) :
  (forall a, hoare (fun w => Pre w /\ f w = a) P (k a)) ->
  hoare Pre P (bind (gets f) k).
Proof. intros Hk w Hw. unfold bind, gets. apply Hk. split; [exact Hw | reflexivity]. Qed.

(** The same, when the rest of the handler does not write what was read. *)
Lemma hoare_bind_gets_keep (f : World -> A) (k : A -> M B) :
  (forall a, hoare (fun w => Pre w /\ f w = a) (fun w => P w /\ f w = a) (k a)) ->
  hoare Pre P (bind (gets f) k).
Proof.
  intros Hk w Hw. unfold bind, gets.
  apply (Hk (f w) w). split; [exact Hw | reflexivity].
Qed.

Lemma hoare_try_catch (m : M A) (h : string -> M A) :
  hoare Pre P m -> (forall err, hoare P P (h err)) -> hoare Pre P (try_catch m h).
Proof.
  intros Hm Hh w Hw. unfold try_catch. specialize (Hm w Hw).
  destruct (m w) as [[a|err] w']; simpl in *; [exact Hm | apply Hh, Hm].
Qed.
End Hoare.

Lemma hoare_absurd {A} (Pre P : World -> Prop) (m : M A) :
  (forall w, Pre w -> False) -> hoare Pre P m.
Proof. intros H w Hw. destruct (H w Hw). Qed.

Lemma hoare_settle (P : World -> Prop) (m : M unit) w :
  (forall w u, P w -> P (set_uncaught u w)) ->
  hoare P P m -> P w -> P (settle m w).
Proof.
  intros Hu Hm H. unfold settle. specialize (Hm w H).
  destruct (m w) as [[a|err] w']; simpl in *; [exact Hm | apply Hu, Hm].
Qed.

(** A projection that every update of [m] leaves alone is unchanged by [m]. *)
Lemma keeps {A B} (f : World -> B) (m : M A) :
  (forall c, hoare (fun w => f w = c) (fun w => f w = c) m) ->
  forall w, f (snd (m w)) = f w.
Proof. intros H w. exact (H (f w) w eq_refl). Qed.

Create HintDb js discriminated.
#[local] Hint Unfold skip when whenRef onRef play pause
  setCurrentIndex setIsPlaying setShowWelcome setPlayCount setIsMuted
  getItem setItem console_log setTimeout clearTimeout
  tryPlayVideo handleVideoEnd handleNavigation handleKeyPress handleVideoClick
  handleUnmuteClick playEffect welcomeTimeout welcomeEffect elapse commit dispatch
  MoviePlayer.render MoviePlayer.tryPlayVideo_resume
  Standalone.render Standalone.tryPlayVideo_resume Standalone.fetched
  Standalone.dispatch_input : js.

(** What is known at an update: the precondition, split, and the values read. *)
Ltac hoare_leaf :=
  let w := fresh "w" in
  let H := fresh "Hpre" in
  intros w H; cbv beta in H;
  repeat match goal with
         | H : _ /\ _ |- _ => destruct H
         | H : exists _, _ |- _ => destruct H
         end;
  subst; simpl in *.

(** Boolean tests in the context, as equations. *)
Ltac bool_hyps :=
  repeat match goal with
         | H : negb _ = true |- _ => apply negb_true_iff in H
         | H : negb _ = false |- _ => apply negb_false_iff in H
         | H : Bool.eqb _ _ = true |- _ => apply eqb_prop in H
         | H : Bool.eqb _ _ = false |- _ => apply eqb_false_iff in H
         | H : (_ =? _)%Z = true |- _ => apply Z.eqb_eq in H
         | H : (_ =? _)%Z = false |- _ => apply Z.eqb_neq in H
         | H : _ || _ = false |- _ => apply orb_false_iff in H; destruct H
         | H : _ || _ = true |- _ => apply orb_true_iff in H; destruct H
         | H : _ && _ = true |- _ => apply andb_true_iff in H; destruct H
         end.

(** A branch that what was read from the world excludes. *)
Ltac hoare_branch :=
  try solve [apply hoare_absurd; hoare_leaf; bool_hyps; congruence].

(** Descent along the structure of a handler, down to its updates. *)
Ltac hoare_descend :=
  repeat (cbv beta;
    lazymatch goal with
    | |- hoare _ _ (ret _) => apply hoare_ret
    | |- hoare _ _ (throw _) => apply hoare_throw
    | |- hoare _ _ (gets _) => apply hoare_gets
    | |- hoare _ _ (await _) => apply hoare_await
    | |- hoare _ _ (modify _) => apply hoare_modify
    | |- hoare _ _ (bind (gets _) _) => apply hoare_bind_gets; intros ?
    | |- hoare _ _ (bind _ _) => apply hoare_bind; [| intros ?]
    | |- hoare _ _ (try_catch _ _) => apply hoare_try_catch; [| intros ?]
    | |- hoare _ _ (if ?b then _ else _) => destruct b eqn:?; hoare_branch
    | |- hoare _ _ (match ?x with _ => _ end) => destruct x eqn:?; hoare_branch
    | |- hoare _ _ _ => progress autounfold with js
    end).

Ltac hoare_auto := hoare_descend; hoare_leaf.

(** The re-render: the effects do not write the cells they depend on. *)
Ltac commit_auto :=
  unfold commit;
  apply hoare_bind;
    [| intros _; apply hoare_bind_gets_keep; intros ?];
  hoare_auto.

(** ** Frames *)

Section Frames.
Variable render_ : PlayerState -> M unit.
Variable resume_ : Phase -> Completion unit -> M unit.

(** The state after an event is the state its handlers leave, if the render
    leaves the cells alone. *)
Lemma step_projection {X} (f : World -> X) e w :
  (forall u w, f (set_uncaught u w) = f w) ->
  (forall r w, f (snd (commit render_ r w)) = f w) ->
  f (step render_ resume_ e w) = f (snd (dispatch resume_ (state w) e w)).
Proof.
  intros Hu Hc. unfold step, settle, bind.
  destruct (dispatch resume_ (state w) e w) as [[[]|err] w1]; simpl.
  - specialize (Hc (state w) w1).
    destruct (commit render_ (state w) w1) as [[[]|err] w2]; simpl in *;
      rewrite ?Hu; exact Hc.
  - apply Hu.
Qed.
End Frames.

Module Frame.

Lemma commit_state r w : state (snd (commit MoviePlayer.render r w)) = state w.
Proof. revert w. apply keeps. intros c. hoare_auto; congruence. Qed.

Lemma commit_localStorage r w :
  localStorage (snd (commit MoviePlayer.render r w)) = localStorage w.
Proof. revert w. apply keeps. intros c. hoare_auto; congruence. Qed.

Lemma commit_videos r w : videos (snd (commit MoviePlayer.render r w)) = videos w.
Proof. revert w. apply keeps. intros c. hoare_auto; congruence. Qed.

Lemma step_state e w :
  state (MoviePlayer.step e w)
  = state (snd (dispatch MoviePlayer.tryPlayVideo_resume (state w) e w)).
Proof. apply step_projection; [reflexivity | apply commit_state]. Qed.

Lemma step_localStorage e w :
  localStorage (MoviePlayer.step e w)
  = localStorage (snd (dispatch MoviePlayer.tryPlayVideo_resume (state w) e w)).
Proof. apply step_projection; [reflexivity | apply commit_localStorage]. Qed.

Lemma dispatch_videos r e w :
  videos (snd (dispatch MoviePlayer.tryPlayVideo_resume r e w)) = videos w.
Proof.
  revert w. apply keeps. intros c.
  destruct e as [code|[tag| | |]| | | |i ok|ms|pos]; hoare_auto; congruence.
Qed.

Lemma step_videos e w : videos (MoviePlayer.step e w) = videos w.
Proof.
  unfold MoviePlayer.step.
  rewrite (step_projection _ _ videos); [apply dispatch_videos | reflexivity | apply commit_videos].
Qed.

Lemma dispatch_shouldUnmute r e w :
  shouldUnmute (state (snd (dispatch MoviePlayer.tryPlayVideo_resume r e w)))
  = shouldUnmute (state w).
Proof.
  revert w. apply (keeps (fun w => shouldUnmute (state w))). intros c.
  destruct e as [code|[tag| | |]| | | |i ok|ms|pos]; hoare_auto; congruence.
Qed.

Lemma step_shouldUnmute e w :
  shouldUnmute (state (MoviePlayer.step e w)) = shouldUnmute (state w).
Proof. rewrite step_state. apply dispatch_shouldUnmute. Qed.

Lemma run_cons e evs w :
  MoviePlayer.run (e :: evs) w = MoviePlayer.run evs (MoviePlayer.step e w).
Proof. reflexivity. Qed.

Lemma run_snoc evs e w :
  MoviePlayer.run (evs ++ [e]) w = MoviePlayer.step e (MoviePlayer.run evs w).
Proof. unfold MoviePlayer.run, run. rewrite fold_left_app. reflexivity. Qed.

Lemma run_videos evs w : videos (MoviePlayer.run evs w) = videos w.
Proof.
  revert w. induction evs as [|e evs IH]; intros w; [reflexivity|].
  rewrite run_cons, IH. apply step_videos.
Qed.

Lemma run_shouldUnmute evs w :
  shouldUnmute (state (MoviePlayer.run evs w)) = shouldUnmute (state w).
Proof.
  revert w. induction evs as [|e evs IH]; intros w; [reflexivity|].
  rewrite run_cons, IH. apply step_shouldUnmute.
Qed.

End Frame.

(** ** Invariants of the mounted player *)

Module Invariant.

Ltac wf_leaf :=
  unfold wf, in_range in *; simpl in *;
  repeat match goal with H : _ /\ _ |- _ => destruct H end;
  (split; [repeat case_match; lia | eauto]).

Lemma mount_eq v vs fv ls :
  MoviePlayer.mount (v :: vs) fv ls
  = mkWorld (v :: vs) (mkState 0 true fv 0 true (MoviePlayer.shouldUnmute_init ls))
            (Some (newElement 0 v true)) [FirstAttempt]
            (if fv then Some 3000 else None) ls [] 1%nat [].
Proof. destruct fv; reflexivity. Qed.

Lemma mount_videos vs fv ls : videos (MoviePlayer.mount vs fv ls) = vs.
Proof. destruct vs; [destruct fv; reflexivity | rewrite mount_eq; reflexivity]. Qed.

Lemma mount_state vs fv ls :
  state (MoviePlayer.mount vs fv ls)
  = mkState 0 true fv 0 true (MoviePlayer.shouldUnmute_init ls).
Proof. destruct vs; [destruct fv; reflexivity | rewrite mount_eq; reflexivity]. Qed.

Lemma mount_localStorage vs fv ls : localStorage (MoviePlayer.mount vs fv ls) = ls.
Proof. destruct vs; [destruct fv; reflexivity | rewrite mount_eq; reflexivity]. Qed.

Lemma wf_mount vs fv ls : vs <> [] -> wf (MoviePlayer.mount vs fv ls).
Proof.
  destruct vs as [|v vs]; [congruence|]. intros _. rewrite mount_eq.
  unfold wf, in_range, js_length. simpl. split; [lia | eauto].
Qed.

Lemma wf_dispatch r e : hoare wf wf (dispatch MoviePlayer.tryPlayVideo_resume r e).
Proof. destruct e as [code|[tag| | |]| | | |i ok|ms|pos]; hoare_auto; wf_leaf. Qed.

Lemma wf_commit r : hoare wf wf (commit MoviePlayer.render r).
Proof. hoare_auto; wf_leaf. Qed.

Lemma wf_step e w : wf w -> wf (MoviePlayer.step e w).
Proof.
  apply hoare_settle.
  - intros w' u H. exact H.
  - apply hoare_bind; [apply wf_dispatch | intros _; apply wf_commit].
Qed.

Lemma wf_run evs w : wf w -> wf (MoviePlayer.run evs w).
Proof.
  revert w. induction evs as [|e evs IH]; intros w H; [exact H|].
  rewrite Frame.run_cons. apply IH, wf_step, H.
Qed.

Lemma wf_reachable vs fv ls evs :
  vs <> [] -> wf (MoviePlayer.run evs (MoviePlayer.mount vs fv ls)).
Proof. intros H. apply wf_run, wf_mount, H. Qed.

End Invariant.

(** * Navigation *)

Module Navigation.

Lemma handleNavigation_eq d w :
  handleNavigation d w
  = (Normal tt,
     set_state (with_isPlaying (fun _ => true))
       (set_state (with_playCount (fun _ => 0))
          (set_state (with_currentIndex (fun prevIndex =>
             match d with
             | Prev => if prevIndex =? 0 then js_length (videos w) - 1 else prevIndex - 1
             | Next => if prevIndex =? js_length (videos w) - 1 then 0 else prevIndex + 1
             end)) w))).
Proof. reflexivity. Qed.

Lemma dispatch_navigation resume r e d w :
  navigation e = Some d ->
  state (snd (dispatch resume r e w)) = state (snd (handleNavigation d w)).
Proof.
  intros H. destruct e as [code|[tag| | |]| | | |i ok|ms|pos]; simpl in H; try discriminate.
  - unfold dispatch, handleKeyPress.
    destruct (String.eqb code "ArrowLeft"); [congruence|].
    destruct (String.eqb code "ArrowRight"); [congruence|discriminate].
  - injection H as <-. reflexivity.
  - injection H as <-. reflexivity.
  - injection H as <-. reflexivity.
  - injection H as <-. reflexivity.
Qed.

Lemma wrapped_eq d n i :
  0 <= i < n ->
  match d with
  | Prev => if i =? 0 then n - 1 else i - 1
  | Next => if i =? n - 1 then 0 else i + 1
  end = wrapped d n i.
Proof.
  intros H. unfold wrapped. destruct d.
  - destruct (Z.eqb_spec i 0) as [->|Hne].
    + rewrite Z.mod_small; lia.
    + replace (i - 1 + n) with (i - 1 + 1 * n) by lia.
      rewrite Z.mod_add by lia. rewrite Z.mod_small; lia.
  - destruct (Z.eqb_spec i (n - 1)) as [->|Hne].
    + replace (n - 1 + 1) with n by lia. rewrite Z.mod_same; lia.
    + rewrite Z.mod_small; lia.
Qed.

(** What a navigation request does to the cells of a player whose index is
    in range. *)
Lemma step_navigation e d w :
  navigation e = Some d -> in_range w ->
  state (MoviePlayer.step e w)
  = mkState (wrapped d (js_length (videos w)) (currentIndex (state w)))
            true (showWelcome (state w)) 0 (isMuted (state w)) (shouldUnmute (state w)).
Proof.
  intros Hnav Hr. rewrite Frame.step_state, (dispatch_navigation _ _ _ d) by exact Hnav.
  rewrite handleNavigation_eq.
  pose proof (wrapped_eq d _ _ Hr) as E.
  destruct d; simpl in *;
    unfold with_isPlaying, with_playCount, with_currentIndex; simpl;
    rewrite E; reflexivity.
Qed.

End Navigation.

(** C1.  In a player mounted on a non-empty clip list, after any events, a
    navigation request moves [currentIndex] to [(currentIndex - 1 + n) mod n]
    for prev and to [(currentIndex + 1) mod n] for next, where [n] is the
    number of clips: the index stays in [0, n), prev from 0 gives [n - 1], next
    from [n - 1] gives 0; [playCount] is reset to 0 and [isPlaying] is set,
    whatever the state was. *)
Theorem navigation_wraps (vs : list Video.t) fv ls evs e d :
  vs <> [] -> navigation e = Some d ->
  let n := js_length vs in
  let w := MoviePlayer.run evs (MoviePlayer.mount vs fv ls) in
  let w' := MoviePlayer.step e w in
  0 <= currentIndex (state w) < n /\
  currentIndex (state w') = wrapped d n (currentIndex (state w)) /\
  0 <= currentIndex (state w') < n /\
  (d = Prev -> currentIndex (state w) = 0 -> currentIndex (state w') = n - 1) /\
  (d = Next -> currentIndex (state w) = n - 1 -> currentIndex (state w') = 0) /\
  playCount (state w') = 0 /\
  isPlaying (state w') = true.
Proof.
  intros Hvs Hnav n w w'.
  assert (Hwf : wf w) by (apply Invariant.wf_reachable, Hvs).
  assert (Hn : js_length (videos w) = n).
  { unfold w. rewrite Frame.run_videos, Invariant.mount_videos. reflexivity. }
  destruct Hwf as [Hr _].
  assert (Hr' : 0 <= currentIndex (state w) < n) by (rewrite <- Hn; exact Hr).
  unfold w'. rewrite (Navigation.step_navigation e d w Hnav Hr), Hn. simpl.
  assert (Hw : 0 <= wrapped d n (currentIndex (state w)) < n) by
    (unfold wrapped; destruct d; apply Z.mod_pos_bound; lia).
  repeat split; try lia.
  - intros -> ->. unfold wrapped. rewrite Z.mod_small; lia.
  - intros -> ->. unfold wrapped. replace (n - 1 + 1) with n by lia. apply Z.mod_same. lia.
Qed.

Lemma navigation_wraps_witness :
  let vs := [clip 1; clip 2; clip 3] in
  let w := MoviePlayer.run [Ended; Ended] (MoviePlayer.mount vs true ∅) in
  let w' := MoviePlayer.step (KeyDown "ArrowLeft") w in
  vs <> [] /\ navigation (KeyDown "ArrowLeft") = Some Prev /\
  isPlaying (state w) = false /\ currentIndex (state w) = 0 /\
  currentIndex (state w') = 2 /\ playCount (state w') = 0 /\ isPlaying (state w') = true.
Proof.
  intros vs w w'.
  assert (Hvs : vs <> []) by discriminate.
  assert (Hnav : navigation (KeyDown "ArrowLeft") = Some Prev) by reflexivity.
  destruct (navigation_wraps vs true ∅ [Ended; Ended] _ _ Hvs Hnav)
    as (_ & H1 & _ & _ & _ & H2 & H3).
  unfold w', w.
  split; [exact Hvs|]. split; [exact Hnav|].
  split; [vm_compute; reflexivity|].
  split; [vm_compute; reflexivity|].
  split; [rewrite H1; vm_compute; reflexivity|].
  split; [exact H2 | exact H3].
Defined.
(** * The end of a clip *)

Module ClipEnd.

Ltac not_this_event :=
  repeat match goal with
         | H : navigation _ = None |- _ => simpl in H
         | H : toggles _ = false |- _ => simpl in H
         | H : ended _ = false |- _ => simpl in H
         | H : String.eqb ?c ?s = _, H' : context [String.eqb ?c ?s] |- _ =>
             rewrite H in H'; simpl in H'
         end;
  try discriminate.

(** Without a navigation request the index stays. *)
Lemma dispatch_currentIndex r e c :
  navigation e = None ->
  hoare (fun w => currentIndex (state w) = c) (fun w => currentIndex (state w) = c)
        (dispatch MoviePlayer.tryPlayVideo_resume r e).
Proof.
  intros Hnav.
  destruct e as [code|[tag| | |]| | | |i ok|ms|pos]; hoare_auto; not_this_event; congruence.
Qed.

Lemma step_currentIndex e w :
  navigation e = None ->
  currentIndex (state (MoviePlayer.step e w)) = currentIndex (state w).
Proof.
  intros Hnav. rewrite Frame.step_state.
  exact (dispatch_currentIndex _ e _ Hnav w eq_refl).
Qed.

(** Without a navigation request or an end of the clip the count stays. *)
Lemma dispatch_playCount r e c :
  navigation e = None -> ended e = false ->
  hoare (fun w => playCount (state w) = c) (fun w => playCount (state w) = c)
        (dispatch MoviePlayer.tryPlayVideo_resume r e).
Proof.
  intros Hnav Hend.
  destruct e as [code|[tag| | |]| | | |i ok|ms|pos]; hoare_auto; not_this_event; congruence.
Qed.

Lemma step_playCount e w :
  navigation e = None -> ended e = false ->
  playCount (state (MoviePlayer.step e w)) = playCount (state w).
Proof.
  intros Hnav Hend. rewrite Frame.step_state.
  exact (dispatch_playCount _ e _ Hnav Hend w eq_refl).
Qed.

(** A stopped player stays stopped unless the user navigates or toggles. *)
Lemma dispatch_stopped r e :
  navigation e = None -> toggles e = false ->
  hoare (fun w => isPlaying (state w) = false) (fun w => isPlaying (state w) = false)
        (dispatch MoviePlayer.tryPlayVideo_resume r e).
Proof.
  intros Hnav Htog.
  destruct e as [code|[tag| | |]| | | |i ok|ms|pos]; hoare_auto; not_this_event;
    congruence.
Qed.

Lemma step_stopped e w :
  navigation e = None -> toggles e = false ->
  isPlaying (state w) = false -> isPlaying (state (MoviePlayer.step e w)) = false.
Proof.
  intros Hnav Htog H. rewrite Frame.step_state.
  exact (dispatch_stopped _ e Hnav Htog w H).
Qed.

Lemma run_stopped evs w :
  Forall (fun e => navigation e = None /\ toggles e = false) evs ->
  isPlaying (state w) = false ->
  isPlaying (state (MoviePlayer.run evs w)) = false
  /\ currentIndex (state (MoviePlayer.run evs w)) = currentIndex (state w).
Proof.
  intros Hall. revert w. induction Hall as [|e evs [Hnav Htog] _ IH]; intros w H.
  - split; [exact H | reflexivity].
  - rewrite Frame.run_cons.
    destruct (IH (MoviePlayer.step e w) (step_stopped e w Hnav Htog H)) as [IH1 IH2].
    split; [exact IH1 | rewrite IH2; apply step_currentIndex, Hnav].
Qed.

Lemma run_between evs w :
  Forall (fun e => navigation e = None /\ ended e = false) evs ->
  playCount (state (MoviePlayer.run evs w)) = playCount (state w)
  /\ currentIndex (state (MoviePlayer.run evs w)) = currentIndex (state w).
Proof.
  intros Hall. revert w. induction Hall as [|e evs [Hnav Hend] _ IH]; intros w.
  - split; reflexivity.
  - rewrite Frame.run_cons.
    destruct (IH (MoviePlayer.step e w)) as [IH1 IH2].
    split; [rewrite IH1; apply step_playCount; assumption
           | rewrite IH2; apply step_currentIndex, Hnav].
Qed.

(** The render touches the media element only. *)
Lemma render_state r w : state (snd (MoviePlayer.render r w)) = state w.
Proof. revert w. apply keeps. intros c. hoare_auto; congruence. Qed.

Lemma render_playCalls r w : playCalls (snd (MoviePlayer.render r w)) = playCalls w.
Proof. revert w. apply keeps. intros c. hoare_auto; congruence. Qed.

Lemma render_pending r w : pending (snd (MoviePlayer.render r w)) = pending w.
Proof. revert w. apply keeps. intros c. hoare_auto; congruence. Qed.

Lemma render_rewound r :
  let P w := exists el, videoRef w = Some el /\ currentTime el = 0 in
  hoare P P (MoviePlayer.render r).
Proof. intros P. subst P. hoare_auto; simplify_eq; eauto. Qed.

(** A re-render in which no dependency of an effect changed runs no effect. *)
Lemma commit_same_deps r w :
  isPlaying (state w) = isPlaying r ->
  currentIndex (state w) = currentIndex r ->
  showWelcome (state w) = showWelcome r ->
  commit MoviePlayer.render r w = MoviePlayer.render r w.
Proof.
  intros Hp Hi Hs. unfold commit, bind, gets.
  pose proof (render_state r w) as Hst.
  destruct (MoviePlayer.render r w) as [[[]|err] w1]; [|reflexivity].
  simpl in Hst. rewrite Hst, Hp, Hi, Hs, !eqb_reflx, Z.eqb_refl. reflexivity.
Qed.

(** The handlers of the first end of a clip. *)
Lemma first_end w el :
  videoRef w = Some el -> playCount (state w) = 0 ->
  exists wd,
    dispatch MoviePlayer.tryPlayVideo_resume (state w) Ended w = (Normal tt, wd)
    /\ state wd = with_playCount (fun prev => prev + 1) (state w)
    /\ videoRef wd = Some (el_currentTime 0 el)
    /\ playCalls wd = S (playCalls w)
    /\ pending wd = pending w ++ [FirstAttempt].
Proof.
  intros Href Hc. eexists.
  unfold dispatch, handleVideoEnd, bind at 1. simpl. rewrite Hc. simpl.
  unfold whenRef, bind, gets. simpl. rewrite Href.
  unfold onRef, tryPlayVideo, whenRef, play, onRef, bind, gets, modify. simpl. rewrite Href. simpl.
  repeat split.
Qed.

(** An event seen as its handlers followed by the re-render. *)
Lemma step_via (P : World -> Prop) e w :
  (forall w u, P w -> P (set_uncaught u w)) ->
  P (snd (dispatch MoviePlayer.tryPlayVideo_resume (state w) e w)) ->
  hoare P P (commit MoviePlayer.render (state w)) ->
  P (MoviePlayer.step e w).
Proof.
  intros Hu Hd Hc. unfold MoviePlayer.step, step, settle, bind.
  destruct (dispatch MoviePlayer.tryPlayVideo_resume (state w) e w) as [[[]|err] wd];
    simpl in Hd; [|apply Hu, Hd].
  specialize (Hc wd Hd).
  destruct (commit MoviePlayer.render (state w) wd) as [[[]|err] wc]; simpl in Hc;
    [exact Hc | apply Hu, Hc].
Qed.

Lemma step_first_end w :
  wf w -> playCount (state w) = 0 ->
  let w1 := MoviePlayer.step Ended w in
  state w1 = with_playCount (fun prev => prev + 1) (state w)
  /\ (exists el, videoRef w1 = Some el /\ currentTime el = 0)
  /\ playCalls w1 = S (playCalls w)
  /\ pending w1 = pending w ++ [FirstAttempt].
Proof.
  intros [_ [el Href]] Hc.
  destruct (first_end w el Href Hc) as (wd & Hd & Hst & Hel & Hcalls & Hpend).
  apply (step_via (fun w1 =>
    state w1 = with_playCount (fun prev => prev + 1) (state w)
    /\ (exists el, videoRef w1 = Some el /\ currentTime el = 0)
    /\ playCalls w1 = S (playCalls w)
    /\ pending w1 = pending w ++ [FirstAttempt])).
  - intros w' u H. exact H.
  - rewrite Hd. simpl. repeat split; eauto.
  - intros w' (Hst' & Hel' & Hcalls' & Hpend').
    rewrite commit_same_deps by (rewrite Hst'; reflexivity).
    rewrite render_state, render_playCalls, render_pending.
    repeat split; try assumption. apply render_rewound, Hel'.
Qed.

Lemma commit_stopped r st c :
  isPlaying st = false ->
  let P w := state w = st /\ playCalls w = c in
  hoare P P (commit MoviePlayer.render r).
Proof.
  intros Hst P. subst P. hoare_auto; simplify_eq; split; congruence.
Qed.

Lemma step_second_end w :
  playCount (state w) >= 1 ->
  let w2 := MoviePlayer.step Ended w in
  state w2 = with_isPlaying (fun _ => false) (with_playCount (fun prev => prev + 1) (state w))
  /\ playCalls w2 = playCalls w.
Proof.
  intros Hc. apply (step_via (fun w2 => state w2 = _ /\ playCalls w2 = _)).
  - intros w' u H. exact H.
  - unfold dispatch, handleVideoEnd, bind. simpl.
    destruct (Z.geb_spec (playCount (state w)) 1); [|lia]. split; reflexivity.
  - apply commit_stopped. reflexivity.
Qed.

End ClipEnd.

(** C2, as stated, fails: with one clip that has ended twice, the space bar,
    which is no navigation request, sets [isPlaying] again and calls [play()]. *)
Lemma halts_until_navigation_fails : ~ halts_until_navigation.
Proof.
  intros H.
  specialize (H [clip 1] false ∅ [] [KeyDown "Space"] ltac:(discriminate) eq_refl).
  assert (Hrest : Forall (fun e => navigation e = None) [KeyDown "Space"])
    by (constructor; [reflexivity | constructor]).
  specialize (H Hrest). vm_compute in H. discriminate H.
Qed.

(** * No exception escapes the mounted player *)

Module Safety.

Section Total.
Context {A B : Type} (Pre P : World -> Prop).

Lemma total_ret (a : A) : (forall w, Pre w -> P w) -> total Pre P (ret a).
Proof. intros H w Hw. split; [apply H, Hw | eexists; reflexivity]. Qed.

Lemma total_gets (f : World -> A) : (forall w, Pre w -> P w) -> total Pre P (gets f).
Proof. intros H w Hw. split; [apply H, Hw | eexists; reflexivity]. Qed.

Lemma total_modify g : (forall w, Pre w -> P (g w)) -> total Pre P (modify g).
Proof. intros H w Hw. split; [apply H, Hw | eexists; reflexivity]. Qed.

Lemma total_bind (m : M A) (k : A -> M B) :
  total Pre P m -> (forall a, total P P (k a)) -> total Pre P (bind m k).
Proof.
  intros Hm Hk w Hw. unfold bind. destruct (Hm w Hw) as [HP [a Ha]].
  destruct (m w) as [c w']; simpl in *; subst c. apply Hk, HP.
Qed.

Lemma total_bind_gets (f : World -> A) (k : A -> M B) :
  (forall a, total (fun w => Pre w /\ f w = a) P (k a)) ->
  total Pre P (bind (gets f) k).
Proof. intros Hk w Hw. unfold bind, gets. apply Hk. split; [exact Hw | reflexivity]. Qed.

Lemma total_try_catch (m : M A) (h : string -> M A) :
  hoare Pre P m -> (forall err, total P P (h err)) -> total Pre P (try_catch m h).
Proof.
  intros Hm Hh w Hw. unfold try_catch. specialize (Hm w Hw).
  destruct (m w) as [[a|err] w']; simpl in *; [|apply Hh, Hm].
  split; [exact Hm | eexists; reflexivity].
Qed.

Lemma total_absurd (m : M A) : (forall w, Pre w -> False) -> total Pre P m.
Proof. intros H w Hw. destruct (H w Hw). Qed.
End Total.

Lemma in_range_index w :
  in_range w -> js_index (videos w) (currentIndex (state w)) = None -> False.
Proof.
  unfold in_range, js_index, js_length. intros H.
  destruct (Z.ltb_spec (currentIndex (state w)) 0); [lia|].
  intros Hn. apply lookup_ge_None in Hn. lia.
Qed.

Ltac wf_absurd :=
  unfold wf, is_Some in *;
  repeat match goal with
         | H : _ /\ _ |- _ => destruct H
         | H : exists _, _ |- _ => destruct H
         end;
  first [congruence | eapply in_range_index; eassumption].

Ltac total_branch := try solve [apply total_absurd; hoare_leaf; wf_absurd].

Ltac total_descend :=
  repeat (cbv beta;
    lazymatch goal with
    | |- total _ _ (ret _) => apply total_ret
    | |- total _ _ (gets _) => apply total_gets
    | |- total _ _ (modify _) => apply total_modify
    | |- total _ _ (bind (gets _) _) => apply total_bind_gets; intros ?
    | |- total _ _ (bind _ _) => apply total_bind; [| intros ?]
    | |- total _ _ (try_catch _ _) => apply total_try_catch; [hoare_descend | intros ?]
    | |- total _ _ (if ?b then _ else _) => destruct b eqn:?; total_branch
    | |- total _ _ (match ?x with _ => _ end) => destruct x eqn:?; total_branch
    | |- total _ _ _ => progress autounfold with js
    end).

Lemma total_dispatch r e : total wf wf (dispatch MoviePlayer.tryPlayVideo_resume r e).
Proof.
  destruct e as [code|[tag| | |]| | | |i ok|ms|pos]; total_descend; hoare_leaf;
    Invariant.wf_leaf.
Qed.

Lemma total_commit r : total wf wf (commit MoviePlayer.render r).
Proof. total_descend; hoare_leaf; Invariant.wf_leaf. Qed.

Lemma uncaught_handlers r e w :
  uncaught (snd ((dispatch MoviePlayer.tryPlayVideo_resume r e ;;
                  commit MoviePlayer.render r)%js w)) = uncaught w.
Proof.
  revert w. apply keeps. intros c.
  apply hoare_bind; [|intros _].
  - destruct e as [code|[tag| | |]| | | |i ok|ms|pos]; hoare_auto; congruence.
  - hoare_auto; congruence.
Qed.

(** An event in a well-formed player is handled without an uncaught exception. *)
Lemma step_uncaught e w : wf w -> uncaught (MoviePlayer.step e w) = uncaught w.
Proof.
  intros Hwf. unfold MoviePlayer.step, step, settle.
  pose proof (uncaught_handlers (state w) e w) as Hu.
  destruct (total_bind wf wf _ _ (total_dispatch (state w) e)
              (fun _ => total_commit (state w)) w Hwf) as [_ [a Ha]].
  destruct ((dispatch MoviePlayer.tryPlayVideo_resume (state w) e ;;
             commit MoviePlayer.render (state w))%js w) as [c w'].
  simpl in *. subst c. exact Hu.
Qed.

Lemma run_uncaught evs w : wf w -> uncaught (MoviePlayer.run evs w) = uncaught w.
Proof.
  revert w. induction evs as [|e evs IH]; intros w Hwf; [reflexivity|].
  rewrite Frame.run_cons, IH by (apply Invariant.wf_step, Hwf). apply step_uncaught, Hwf.
Qed.

(** The player mounted on a non-empty list never crashes. *)
Lemma no_crash vs fv ls evs :
  vs <> [] -> uncaught (MoviePlayer.run evs (MoviePlayer.mount vs fv ls)) = [].
Proof.
  intros Hvs. rewrite run_uncaught by (apply Invariant.wf_mount, Hvs).
  destruct vs as [|v vs]; [congruence|]. rewrite Invariant.mount_eq. reflexivity.
Qed.

End Safety.

(** * The play attempt *)

Module PlayAttempt.

(** A rejected [play()] changes no cell. *)
Lemma dispatch_rejected r i w :
  state (snd (dispatch MoviePlayer.tryPlayVideo_resume r (Settled i false) w)) = state w.
Proof.
  destruct w as [vs st ref pend tm lst con calls unc].
  unfold dispatch, bind, gets. simpl.
  destruct (pend !! i) as [[|]|]; [| reflexivity | reflexivity].
  destruct ref as [el|]; reflexivity.
Qed.

End PlayAttempt.

(** C3, as stated, fails: with the stored preference, the first success clears
    [isMuted]; when the attempt that follows a navigation is rejected, the
    [catch] mutes the media element and [isMuted] is still false. *)
Lemma rejected_play_sets_isMuted_fails : ~ rejected_play_sets_isMuted.
Proof.
  intros H.
  specialize (H [clip 1; clip 2] false {["videoMuted" := "false"]}
                [Settled 0 true; KeyDown "ArrowRight"] 0%nat
                ltac:(discriminate) eq_refl).
  vm_compute in H. discriminate H.
Qed.

(** C3, amended.  With a media element behind [videoRef]: when the awaited
    [play()] resolves, [isMuted] is cleared if [shouldUnmute] holds and the
    world is untouched if not; when it rejects, the [muted] property of the media
    element is set, no cell changes ([isMuted] and [isPlaying] included) and
    [play()] is called once more; when that retry rejects too, the function
    completes normally, calls [play()] no more and changes no cell.  As events:
    a rejection changes no cell and, with the index in range, leaves no uncaught
    exception. *)
Theorem play_attempt_protocol (w : World) (el : VideoElement) :
  videoRef w = Some el ->
  let resume := MoviePlayer.tryPlayVideo_resume in
  (shouldUnmute (state w) = true ->
   resume FirstAttempt (Normal tt) w
   = (Normal tt, set_state (with_isMuted (fun _ => false)) w))
  /\ (shouldUnmute (state w) = false ->
      resume FirstAttempt (Normal tt) w = (Normal tt, w))
  /\ (forall err, exists w',
        resume FirstAttempt (Throw err) w = (Normal tt, w')
        /\ state w' = state w
        /\ videoRef w' = Some (el_muted true el)
        /\ playCalls w' = S (playCalls w)
        /\ pending w' = pending w ++ [MutedRetry])
  /\ (forall err, exists w',
        resume MutedRetry (Throw err) w = (Normal tt, w')
        /\ state w' = state w
        /\ videoRef w' = videoRef w
        /\ playCalls w' = playCalls w
        /\ pending w' = pending w)
  /\ (forall i,
        state (MoviePlayer.step (Settled i false) w) = state w
        /\ (in_range w ->
            uncaught (MoviePlayer.step (Settled i false) w) = uncaught w)).
Proof.
  intros Href resume. subst resume.
  split; [|split; [|split; [|split]]].
  - intros Hsu. destruct w as [vs st ref pend tm lst con calls unc].
    simpl in *. unfold MoviePlayer.tryPlayVideo_resume, try_catch, bind, await, gets.
    simpl. rewrite Hsu. reflexivity.
  - intros Hsu. destruct w as [vs st ref pend tm lst con calls unc].
    simpl in *. unfold MoviePlayer.tryPlayVideo_resume, try_catch, bind, await, gets.
    simpl. rewrite Hsu. reflexivity.
  - intros err. destruct w as [vs st ref pend tm lst con calls unc].
    simpl in *. subst ref. eexists. split; [reflexivity|]. repeat split.
  - intros err. destruct w as [vs st ref pend tm lst con calls unc].
    eexists. split; [reflexivity|]. repeat split.
  - intros i. split.
    + rewrite Frame.step_state. apply PlayAttempt.dispatch_rejected.
    + intros Hr. apply Safety.step_uncaught. split; [exact Hr | eauto].
Qed.

Lemma play_attempt_protocol_witness :
  let w := MoviePlayer.mount [clip 1] false ∅ in
  let el := newElement 0 (clip 1) true in
  videoRef w = Some el
  /\ MoviePlayer.tryPlayVideo_resume FirstAttempt (Normal tt) w = (Normal tt, w)
  /\ (exists w',
        MoviePlayer.tryPlayVideo_resume FirstAttempt (Throw "NotAllowedError") w
        = (Normal tt, w')
        /\ state w' = state w
        /\ videoRef w' = Some (el_muted true el)
        /\ playCalls w' = 2%nat)
  /\ state (MoviePlayer.step (Settled 0 false) w) = state w
  /\ uncaught (MoviePlayer.step (Settled 0 false) w) = [].
Proof.
  intros w el.
  assert (Href : videoRef w = Some el) by reflexivity.
  destruct (play_attempt_protocol w el Href) as (_ & Hkeep & Hfail & _ & Hev).
  split; [exact Href|].
  split; [apply Hkeep; reflexivity|].
  split.
  - destruct (Hfail "NotAllowedError") as (w' & Hw' & Hst & Hel & Hcalls & _).
    exists w'. split; [exact Hw'|]. split; [exact Hst|]. split; [exact Hel|].
    rewrite Hcalls. reflexivity.
  - destruct (Hev 0%nat) as [Hst Hun]. split; [exact Hst|].
    rewrite Hun; [reflexivity|]. unfold in_range. vm_compute.
    split; [discriminate | reflexivity].
Defined.
(** * Sound *)

Module Sound.

Ltac silent_leaf :=
  unfold silent, unmuteButtonRendered in *; simpl in *;
  repeat match goal with H : _ /\ _ |- _ => destruct H end;
  repeat match goal with
         | H : context [shouldUnmute ?r], E : shouldUnmute ?r = false |- _ =>
             rewrite E, ?andb_false_r in H
         end;
  try discriminate;
  repeat split; try congruence;
  try (intros ? ?; simplify_eq; simpl; first [congruence | eauto]).

Lemma silent_dispatch flag r e :
  shouldUnmute r = false ->
  hoare (silent flag) (silent flag) (dispatch MoviePlayer.tryPlayVideo_resume r e).
Proof.
  intros Hr.
  destruct e as [code|[tag| | |]| | | |i ok|ms|pos]; hoare_auto; silent_leaf.
Qed.

Lemma silent_commit flag r :
  hoare (silent flag) (silent flag) (commit MoviePlayer.render r).
Proof. hoare_auto; silent_leaf. Qed.

Lemma silent_step flag e w : silent flag w -> silent flag (MoviePlayer.step e w).
Proof.
  intros H. unfold MoviePlayer.step, step.
  apply hoare_settle; [intros w' u Hw; exact Hw | | exact H].
  apply hoare_bind; [apply silent_dispatch, H | intros _; apply silent_commit].
Qed.

Lemma silent_run flag evs w : silent flag w -> silent flag (MoviePlayer.run evs w).
Proof.
  revert w. induction evs as [|e evs IH]; intros w H; [exact H|].
  rewrite Frame.run_cons. apply IH, silent_step, H.
Qed.

Lemma silent_mount vs fv ls :
  ls !! "videoMuted" <> Some "false" ->
  silent (ls !! "videoMuted") (MoviePlayer.mount vs fv ls).
Proof.
  intros Hls.
  assert (Hsu : MoviePlayer.shouldUnmute_init ls = false)
    by (unfold MoviePlayer.shouldUnmute_init; apply bool_decide_eq_false, Hls).
  unfold silent. rewrite Invariant.mount_state, Invariant.mount_localStorage. simpl.
  repeat split; try assumption.
  destruct vs as [|v vs].
  - destruct fv; intros el Hel; vm_compute in Hel; discriminate.
  - rewrite Invariant.mount_eq. simpl. intros el [= <-]. reflexivity.
Qed.

(** Once cleared, [isMuted] stays cleared. *)
Lemma unmuted_dispatch r e :
  hoare (fun w => isMuted (state w) = false) (fun w => isMuted (state w) = false)
        (dispatch MoviePlayer.tryPlayVideo_resume r e).
Proof. destruct e as [code|[tag| | |]| | | |i ok|ms|pos]; hoare_auto; congruence. Qed.

Lemma unmuted_step e w :
  isMuted (state w) = false -> isMuted (state (MoviePlayer.step e w)) = false.
Proof. intros H. rewrite Frame.step_state. exact (unmuted_dispatch _ e w H). Qed.

Lemma unmuted_run evs w :
  isMuted (state w) = false -> isMuted (state (MoviePlayer.run evs w)) = false.
Proof.
  revert w. induction evs as [|e evs IH]; intros w H; [exact H|].
  rewrite Frame.run_cons. apply IH, unmuted_step, H.
Qed.

(** The events that can clear [isMuted], and what they need. *)
Lemma step_clears e w :
  isMuted (state w) = true ->
  isMuted (state (MoviePlayer.step e w)) = false ->
  shouldUnmute (state w) = true
  /\ ((exists i, e = Settled i true /\ pending w !! i = Some FirstAttempt)
      \/ e = Click UnmuteButton).
Proof.
  intros Hm. rewrite Frame.step_state.
  assert (Hframe : forall e',
    hoare (fun w' => isMuted (state w') = true) (fun w' => isMuted (state w') = true)
          (dispatch MoviePlayer.tryPlayVideo_resume (state w) e') ->
    isMuted (state (snd (dispatch MoviePlayer.tryPlayVideo_resume (state w) e' w))) = false ->
    False).
  { intros e' Hh Hf. specialize (Hh w Hm). simpl in Hh. congruence. }
  destruct e as [code|[tag| | |]| | | |i ok|ms|pos]; intros Hf;
    try (exfalso;
         match type of Hf with
         | context [dispatch _ _ ?e' _] =>
             apply (Hframe e'); [solve [hoare_auto; congruence] | exact Hf]
         end).
  - (* the unmute control *)
    destruct w as [vs [ci ip sw pc im su] ref pend tm lst con calls unc].
    simpl in *. subst im. destruct su; [|vm_compute in Hf; discriminate Hf].
    split; [reflexivity | right; reflexivity].
  - (* a settled play() *)
    destruct ok; [|rewrite PlayAttempt.dispatch_rejected in Hf; congruence].
    destruct w as [vs [ci ip sw pc im su] ref pend tm lst con calls unc].
    simpl in *. subst im. unfold dispatch, bind, gets in Hf. simpl in Hf.
    destruct (pend !! i) as [[|]|] eqn:Hp.
    + destruct su; [split; [reflexivity | left; eauto]|].
      destruct ref; simpl in Hf; discriminate Hf.
    + destruct ref; simpl in Hf; discriminate Hf.
    + simpl in Hf; discriminate Hf.
Qed.

(** A resolved first attempt clears [isMuted] under the stored preference. *)
Lemma step_resolved i w :
  shouldUnmute (state w) = true -> pending w !! i = Some FirstAttempt ->
  isMuted (state (MoviePlayer.step (Settled i true) w)) = false.
Proof.
  intros Hsu Hp. rewrite Frame.step_state.
  destruct w as [vs [ci ip sw pc im su] ref pend tm lst con calls unc].
  simpl in *. subst su. unfold dispatch, bind, gets. simpl. rewrite Hp.
  destruct ref; reflexivity.
Qed.

End Sound.

(** C4.  Over the events of a session: (1) an event clears [isMuted] only if
    [shouldUnmute] holds and the event is a resolved first [play()] of a play
    attempt or a click on the unmute control; (2) once cleared, [isMuted] is
    never set again; (3) under the stored preference every resolved first
    [play()] clears [isMuted], in particular the one issued at the mount, with
    no user event; (4) without the stored preference [isMuted] stays true
    through all events. *)
Theorem mute_invariant :
  (forall e w,
     isMuted (state w) = true ->
     isMuted (state (MoviePlayer.step e w)) = false ->
     shouldUnmute (state w) = true
     /\ ((exists i, e = Settled i true /\ pending w !! i = Some FirstAttempt)
         \/ e = Click UnmuteButton))
  /\ (forall evs w,
        isMuted (state w) = false ->
        isMuted (state (MoviePlayer.run evs w)) = false)
  /\ (forall i w,
        shouldUnmute (state w) = true -> pending w !! i = Some FirstAttempt ->
        isMuted (state (MoviePlayer.step (Settled i true) w)) = false)
  /\ (forall vs fv ls,
        vs <> [] -> ls !! "videoMuted" = Some "false" ->
        let w := MoviePlayer.mount vs fv ls in
        isMuted (state w) = true
        /\ isMuted (state (MoviePlayer.step (Settled 0 true) w)) = false)
  /\ (forall vs fv ls evs,
        ls !! "videoMuted" <> Some "false" ->
        isMuted (state (MoviePlayer.run evs (MoviePlayer.mount vs fv ls))) = true).
Proof.
  split; [exact Sound.step_clears|].
  split; [exact Sound.unmuted_run|].
  split; [exact Sound.step_resolved|].
  split.
  - intros vs fv ls Hvs Hls w. subst w.
    destruct vs as [|v vs]; [congruence|].
    split; [rewrite Invariant.mount_state; reflexivity|].
    apply Sound.step_resolved.
    + rewrite Invariant.mount_state. simpl.
      unfold MoviePlayer.shouldUnmute_init. apply bool_decide_eq_true, Hls.
    + rewrite Invariant.mount_eq. reflexivity.
  - intros vs fv ls evs Hls.
    apply (Sound.silent_run _ evs _ (Sound.silent_mount vs fv ls Hls)).
Qed.

Lemma mute_invariant_witness :
  let stored : gmap string string := {["videoMuted" := "false"]} in
  let w := MoviePlayer.mount [clip 1; clip 2] false stored in
  let w' := MoviePlayer.step (Settled 0 true) w in
  stored !! "videoMuted" = Some "false"
  /\ isMuted (state w) = true /\ isMuted (state w') = false
  /\ isMuted (state (MoviePlayer.run [KeyDown "ArrowRight"; Settled 0 false] w')) = false
  /\ isMuted (state (MoviePlayer.run [Settled 0 true; KeyDown "ArrowRight"]
                       (MoviePlayer.mount [clip 1; clip 2] false ∅))) = true.
Proof.
  intros stored w w'.
  destruct mute_invariant as (_ & Hstay & _ & Hfirst & Hnever).
  assert (Hls : stored !! "videoMuted" = Some "false") by reflexivity.
  destruct (Hfirst [clip 1; clip 2] false stored ltac:(discriminate) Hls) as [H0 H1].
  split; [exact Hls|]. split; [exact H0|]. split; [exact H1|].
  split; [apply Hstay, H1|].
  apply Hnever. rewrite lookup_empty. discriminate.
Defined.
(** * Sessions *)

Module Session.

(** A session has a player exactly when the request brought clips; the player
    is mounted on them with the first-visit flag of the host. *)
Lemma session_player ls r evs w :
  snd (App.session ls r evs) = Some w ->
  exists vs,
    vs <> []
    /\ fst (App.session ls r evs) = App.Player vs (fst (App.isFirstVisit_init ls))
    /\ w = MoviePlayer.run evs
             (MoviePlayer.mount vs (fst (App.isFirstVisit_init ls))
                                (snd (App.isFirstVisit_init ls))).
Proof.
  unfold App.session, App.init.
  destruct (App.isFirstVisit_init ls) as [first ls'].
  cbv zeta. simpl fst at 2 3. simpl snd at 2.
  destruct (App.render (App.fetchVideos r (App.mk [] true first))) as [| |vs fv] eqn:Hv;
    simpl; try discriminate.
  intros [= <-]. unfold App.render in Hv. simpl in Hv.
  destruct r as [| |data| |]; simpl in Hv; try discriminate.
  destruct (js_length (App.transformed data) >? 0) eqn:Hlen; [|discriminate].
  injection Hv as <- <-. exists (App.transformed data).
  split; [|split; reflexivity].
  intros Hnil. rewrite Hnil in Hlen. discriminate.
Qed.

Lemma init_videoMuted ls :
  snd (App.isFirstVisit_init ls) !! "videoMuted" = ls !! "videoMuted".
Proof.
  unfold App.isFirstVisit_init. destruct (js_not (ls !! "visited")); simpl; [|reflexivity].
  apply lookup_insert_ne. discriminate.
Qed.

(** Without the stored preference the player of a session is silent. *)
Lemma session_silent ls r evs w :
  ls !! "videoMuted" <> Some "false" ->
  snd (App.session ls r evs) = Some w ->
  silent (ls !! "videoMuted") w.
Proof.
  intros Hls Hw. destruct (session_player ls r evs w Hw) as (vs & _ & _ & ->).
  rewrite <- init_videoMuted. apply Sound.silent_run, Sound.silent_mount.
  rewrite init_videoMuted. exact Hls.
Qed.

Lemma storage_after_videoMuted ls r evs :
  ls !! "videoMuted" <> Some "false" ->
  App.storage_after ls r evs !! "videoMuted" = ls !! "videoMuted".
Proof.
  intros Hls. unfold App.storage_after.
  destruct (snd (App.session ls r evs)) as [w|] eqn:Hw.
  - apply (session_silent ls r evs w Hls Hw).
  - unfold App.init. destruct (App.isFirstVisit_init ls) as [first ls'] eqn:Hi. simpl.
    replace ls' with (snd (App.isFirstVisit_init ls)) by (rewrite Hi; reflexivity).
    apply init_videoMuted.
Qed.

Lemma sessions_videoMuted ss ls :
  ls !! "videoMuted" <> Some "false" ->
  sessions ss ls !! "videoMuted" = ls !! "videoMuted".
Proof.
  revert ls. induction ss as [|[r evs] ss IH]; intros ls Hls; [reflexivity|].
  simpl. rewrite IH; rewrite storage_after_videoMuted by exact Hls; [reflexivity | exact Hls].
Qed.

End Session.

(** C10.  The unmute control is in the tree exactly when [isMuted] and
    [shouldUnmute] both hold; in the player of a session [shouldUnmute] holds only
    if the stored ['videoMuted'] flag was ["false"] when the page was loaded.
    So, for a store without that flag: through all events of a session the
    control is not rendered, [isMuted] and the [muted] property of the media
    element stay true and the stored flag is what it was; and after any sequence
    of sessions the stored flag is still what it was. *)
Theorem no_path_to_sound (ls : gmap string string) :
  (forall s, unmuteButtonRendered s = true <-> isMuted s = true /\ shouldUnmute s = true)
  /\ (forall r evs w,
        snd (App.session ls r evs) = Some w ->
        shouldUnmute (state w) = true -> ls !! "videoMuted" = Some "false")
  /\ (ls !! "videoMuted" <> Some "false" ->
      (forall r evs w,
         snd (App.session ls r evs) = Some w ->
         unmuteButtonRendered (state w) = false
         /\ isMuted (state w) = true
         /\ (forall el, videoRef w = Some el -> muted el = true)
         /\ localStorage w !! "videoMuted" = ls !! "videoMuted")
      /\ (forall ss, sessions ss ls !! "videoMuted" = ls !! "videoMuted")).
Proof.
  split; [|split].
  - intros s. unfold unmuteButtonRendered. apply andb_true_iff.
  - intros r evs w Hw Hsu.
    destruct (decide (ls !! "videoMuted" = Some "false")) as [H|H]; [exact H|].
    destruct (Session.session_silent ls r evs w H Hw) as (Hsu' & _). congruence.
  - intros Hls. split.
    + intros r evs w Hw.
      destruct (Session.session_silent ls r evs w Hls Hw) as (Hsu & Hm & Hflag & Hel).
      unfold unmuteButtonRendered. rewrite Hsu, andb_false_r. auto.
    + intros ss. apply Session.sessions_videoMuted, Hls.
Qed.

Lemma no_path_to_sound_witness :
  let ls : gmap string string := {["videoMuted" := "true"]} in
  let evs := [Settled 0 true; Click UnmuteButton; KeyDown "ArrowRight"; Settled 0 true] in
  let r := App.Items [App.mkMovie 1 "a.mp4" "A"; App.mkMovie 2 "b.mp4" "B"] in
  ls !! "videoMuted" <> Some "false"
  /\ (exists w, snd (App.session ls r evs) = Some w
                /\ isMuted (state w) = true
                /\ localStorage w !! "videoMuted" = Some "true")
  /\ sessions [(r, evs); (r, evs)] ls !! "videoMuted" = Some "true".
Proof.
  intros ls evs r.
  assert (Hls : ls !! "videoMuted" <> Some "false") by (vm_compute; discriminate).
  destruct (no_path_to_sound ls) as (_ & _ & H). destruct (H Hls) as [Hin Hafter].
  split; [exact Hls|]. split.
  - eexists. split; [vm_compute; reflexivity|].
    destruct (Hin r evs _ ltac:(vm_compute; reflexivity)) as (_ & Hm & _ & Hflag).
    split; [exact Hm | rewrite Hflag; reflexivity].
  - rewrite Hafter. reflexivity.
Defined.
(** * The play/pause toggle *)

Module Toggle.

Lemma dispatch_toggle resume r e w :
  toggles e = true ->
  dispatch resume r e w = (Normal tt, set_state (with_isPlaying negb) w).
Proof.
  intros H. destruct e as [code|[tag| | |]| | | |i ok|ms|pos]; simpl in H; try discriminate.
  - apply andb_true_iff in H as [H Hs]. apply andb_true_iff in H as [Hl Hr].
    apply negb_true_iff in Hl, Hr.
    unfold dispatch, handleKeyPress. rewrite Hl, Hr, Hs. reflexivity.
  - unfold dispatch, handleVideoClick. rewrite H. reflexivity.
Qed.

End Toggle.

(** C9.  An event of the play/pause toggle (the space bar, or a click whose
    target is not a button) negates [isPlaying] and leaves every other cell
    ([currentIndex], [playCount], [isMuted], [showWelcome], [shouldUnmute]), the
    clip list and the storage as they were, in every world. *)
Theorem toggle_frame (e : Event) (w : World) :
  toggles e = true ->
  state (MoviePlayer.step e w) = with_isPlaying negb (state w)
  /\ localStorage (MoviePlayer.step e w) = localStorage w
  /\ videos (MoviePlayer.step e w) = videos w.
Proof.
  intros H. split; [|split].
  - rewrite Frame.step_state, Toggle.dispatch_toggle by exact H. reflexivity.
  - rewrite Frame.step_localStorage, Toggle.dispatch_toggle by exact H. reflexivity.
  - apply Frame.step_videos.
Qed.

Lemma toggle_frame_witness :
  let w := MoviePlayer.mount [clip 1; clip 2] true {["videoMuted" := "false"]} in
  let w' := MoviePlayer.step (KeyDown "Space") w in
  toggles (KeyDown "Space") = true
  /\ state w' = mkState 0 false true 0 true true
  /\ localStorage w' = localStorage w.
Proof.
  intros w w'.
  assert (H : toggles (KeyDown "Space") = true) by reflexivity.
  destruct (toggle_frame (KeyDown "Space") w H) as (Hst & Hls & _).
  split; [exact H|]. split; [|exact Hls].
  unfold w'. rewrite Hst. reflexivity.
Defined.
(** * The welcome overlay *)

Module Welcome.

Lemma render_timer r w : timer (snd (MoviePlayer.render r w)) = timer w.
Proof. revert w. apply keeps. intros c. hoare_auto; congruence. Qed.

(** A re-render with the dependencies of all effects unchanged. *)
Lemma commit_quiet r w :
  isPlaying (state w) = isPlaying r ->
  currentIndex (state w) = currentIndex r ->
  showWelcome (state w) = showWelcome r ->
  let w' := snd (commit MoviePlayer.render r w) in
  state w' = state w /\ timer w' = timer w /\ playCalls w' = playCalls w.
Proof.
  intros Hp Hi Hs w'. subst w'. rewrite ClipEnd.commit_same_deps by assumption.
  rewrite ClipEnd.render_state, render_timer, ClipEnd.render_playCalls. auto.
Qed.

(** Only the passing of time touches the overlay and its timeout. *)
Lemma step_other e w :
  (forall ms, e <> Elapse ms) ->
  showWelcome (state (MoviePlayer.step e w)) = showWelcome (state w)
  /\ timer (MoviePlayer.step e w) = timer w.
Proof.
  intros He.
  set (P := fun w' => showWelcome (state w') = showWelcome (state w)
                      /\ timer w' = timer w).
  assert (Hd : hoare P P (dispatch MoviePlayer.tryPlayVideo_resume (state w) e)).
  { subst P.
    destruct e as [code|[tag| | |]| | | |i ok|ms|pos];
      try (exfalso; apply (He ms); reflexivity);
      hoare_auto; split; congruence. }
  assert (Hc : hoare P P (commit MoviePlayer.render (state w))).
  { subst P. commit_auto; repeat split; congruence. }
  apply (ClipEnd.step_via P).
  - intros w' u H. exact H.
  - apply Hd. split; reflexivity.
  - exact Hc.
Qed.

Lemma step_after e w wd :
  dispatch MoviePlayer.tryPlayVideo_resume (state w) e w = (Normal tt, wd) ->
  MoviePlayer.step e w = settle (commit MoviePlayer.render (state w)) wd.
Proof.
  intros Hd. unfold MoviePlayer.step, step, settle, bind. rewrite Hd. reflexivity.
Qed.

Lemma settle_commit_quiet r w :
  isPlaying (state w) = isPlaying r ->
  currentIndex (state w) = currentIndex r ->
  showWelcome (state w) = showWelcome r ->
  let w' := settle (commit MoviePlayer.render r) w in
  state w' = state w /\ timer w' = timer w /\ playCalls w' = playCalls w.
Proof.
  intros Hp Hi Hs w'. subst w'. unfold settle.
  pose proof (commit_quiet r w Hp Hi Hs) as H. cbv zeta in H.
  destruct (commit MoviePlayer.render r w) as [[[]|err] wc]; simpl in *; exact H.
Qed.

(** Time that does not reach the timeout. *)
Lemma step_elapse_idle ms w :
  ms <= 0 \/ timer w = None ->
  let w' := MoviePlayer.step (Elapse ms) w in
  state w' = state w /\ timer w' = timer w /\ playCalls w' = playCalls w.
Proof.
  intros H w'. subst w'.
  assert (Hd : dispatch MoviePlayer.tryPlayVideo_resume (state w) (Elapse ms) w
               = (Normal tt, w)).
  { unfold dispatch, elapse, bind, gets. simpl.
    destruct (timer w) as [rem|]; [|reflexivity].
    destruct H as [H|H]; [|discriminate].
    destruct (Z.leb_spec ms 0); [reflexivity | lia]. }
  rewrite (step_after _ _ _ Hd). apply settle_commit_quiet; reflexivity.
Qed.

Lemma step_elapse_wait ms rem w :
  timer w = Some rem -> 0 < ms < rem ->
  let w' := MoviePlayer.step (Elapse ms) w in
  state w' = state w /\ timer w' = Some (rem - ms) /\ playCalls w' = playCalls w.
Proof.
  intros Ht Hms w'. subst w'.
  assert (Hd : dispatch MoviePlayer.tryPlayVideo_resume (state w) (Elapse ms) w
               = (Normal tt, set_timer (Some (rem - ms)) w)).
  { unfold dispatch, elapse, bind, gets. simpl. rewrite Ht.
    destruct (Z.leb_spec ms 0); [lia|].
    destruct (Z.leb_spec rem ms); [lia | reflexivity]. }
  rewrite (step_after _ _ _ Hd).
  destruct (settle_commit_quiet (state w) (set_timer (Some (rem - ms)) w)
              eq_refl eq_refl eq_refl) as (Hs & Htm & Hc).
  rewrite Hs, Htm, Hc. repeat split.
Qed.

(** The timeout fires: the overlay goes and a play attempt is issued. *)
Lemma step_elapse_fire ms rem w :
  timer w = Some rem -> 0 < ms -> rem <= ms -> is_Some (videoRef w) ->
  let w' := MoviePlayer.step (Elapse ms) w in
  state w' = with_showWelcome (fun _ => false) (state w)
  /\ timer w' = None /\ playCalls w' = S (playCalls w).
Proof.
  intros Ht Hms Hrem [el Href] w'. subst w'.
  set (P := fun w' => isPlaying (state w') = isPlaying (state w)
                      /\ currentIndex (state w') = currentIndex (state w)
                      /\ showWelcome (state w') = false
                      /\ timer w' = None /\ playCalls w' = S (playCalls w)).
  assert (Hd : dispatch MoviePlayer.tryPlayVideo_resume (state w) (Elapse ms) w
               = (Normal tt,
                  set_pending (pending w ++ [FirstAttempt])
                    (set_playCalls (S (playCalls w))
                       (set_state (with_showWelcome (fun _ => false))
                          (set_timer None w))))).
  { destruct w as [vs st ref pend tm lst con calls unc]. simpl in *. subst.
    unfold dispatch, elapse, bind, gets. simpl.
    destruct (Z.leb_spec ms 0); [lia|].
    destruct (Z.leb_spec rem ms); [|lia]. reflexivity. }
  assert (HP : P (MoviePlayer.step (Elapse ms) w)).
  { apply (ClipEnd.step_via P).
    - intros w' u H. exact H.
    - rewrite Hd. subst P. simpl. repeat split.
    - subst P. commit_auto; repeat split; congruence. }
  destruct HP as (_ & _ & _ & Htm & Hc).
  split; [|split; assumption].
  rewrite Frame.step_state, Hd. reflexivity.
Qed.

Lemma classic_elapse e : (exists ms, e = Elapse ms) \/ (forall ms, e <> Elapse ms).
Proof. destruct e; try (right; discriminate). left. eauto. Qed.

Lemma welcome_step t e w :
  is_Some (videoRef w) -> 0 <= t -> welcome_at t w ->
  welcome_at (t + elapsed [e]) (MoviePlayer.step e w).
Proof.
  intros Href Ht Hw.
  destruct (classic_elapse e) as [[ms ->]|He].
  2:{ destruct (step_other e w He) as [Hs Htm]. unfold welcome_at.
      rewrite Hs, Htm. replace (t + elapsed [e]) with t; [exact Hw|].
      destruct e; simpl; try lia. exfalso. apply (He ms). reflexivity. }
  simpl. rewrite Z.add_0_r.
  destruct (Z.leb_spec ms 0) as [Hms|Hms].
  { destruct (step_elapse_idle ms w (or_introl Hms)) as (Hs & Htm & _).
    unfold welcome_at. rewrite Hs, Htm. rewrite Z.max_l by lia.
    rewrite Z.add_0_r. exact Hw. }
  rewrite Z.max_r by lia.
  destruct Hw as [(Hsw & Htm & Hlt)|(Hsw & Htm & Hge)].
  - destruct (Z.leb_spec (3000 - t) ms) as [Hdue|Hnot].
    + destruct (step_elapse_fire ms _ w Htm Hms Hdue Href) as (Hs & Htm' & _).
      right. rewrite Hs, Htm'. simpl. repeat split. lia.
    + destruct (step_elapse_wait ms _ w Htm ltac:(lia)) as (Hs & Htm' & _).
      left. rewrite Hs, Htm', Hsw. repeat split; [f_equal; lia | lia].
  - destruct (step_elapse_idle ms w (or_intror Htm)) as (Hs & Htm' & _).
    right. rewrite Hs, Htm'. repeat split; [assumption | assumption | lia].
Qed.

Lemma elapsed_cons e evs : elapsed (e :: evs) = elapsed [e] + elapsed evs.
Proof. destruct e; simpl; lia. Qed.

Lemma elapsed_nonneg evs : 0 <= elapsed evs.
Proof. induction evs as [|e evs IH]; [reflexivity|]. destruct e; simpl; lia. Qed.

Lemma welcome_run t evs w :
  wf w -> 0 <= t -> welcome_at t w ->
  welcome_at (t + elapsed evs) (MoviePlayer.run evs w).
Proof.
  revert t w. induction evs as [|e evs IH]; intros t w Hwf Ht Hw.
  - simpl. rewrite Z.add_0_r. exact Hw.
  - rewrite Frame.run_cons, elapsed_cons, Z.add_assoc.
    apply IH; [apply Invariant.wf_step, Hwf | pose proof (elapsed_nonneg [e]); lia |].
    apply welcome_step; [apply Hwf | exact Ht | exact Hw].
Qed.

(** An overlay that is not up never comes up. *)
Lemma gone_step e w :
  showWelcome (state w) = false /\ timer w = None ->
  showWelcome (state (MoviePlayer.step e w)) = false /\ timer (MoviePlayer.step e w) = None.
Proof.
  intros [Hs Ht]. destruct (classic_elapse e) as [[ms ->]|He].
  - destruct (step_elapse_idle ms w (or_intror Ht)) as (Hs' & Ht' & _).
    rewrite Hs', Ht'. auto.
  - destruct (step_other e w He) as [Hs' Ht']. rewrite Hs', Ht'. auto.
Qed.

Lemma gone_run evs w :
  showWelcome (state w) = false /\ timer w = None ->
  showWelcome (state (MoviePlayer.run evs w)) = false.
Proof.
  revert w. induction evs as [|e evs IH]; intros w H; [apply H|].
  rewrite Frame.run_cons. apply IH, gone_step, H.
Qed.

Lemma mount_timer vs fv ls :
  vs <> [] -> timer (MoviePlayer.mount vs fv ls) = if fv then Some 3000 else None.
Proof. destruct vs; [congruence|]. intros _. rewrite Invariant.mount_eq. reflexivity. Qed.

(** The visited marker. *)
Lemma init_visited ls : js_not (snd (App.isFirstVisit_init ls) !! "visited") = false.
Proof.
  unfold App.isFirstVisit_init. destruct (js_not (ls !! "visited")) eqn:H; simpl.
  - rewrite lookup_insert_eq. reflexivity.
  - exact H.
Qed.

Lemma init_again ls :
  js_not (ls !! "visited") = false -> App.isFirstVisit_init ls = (false, ls).
Proof. intros H. unfold App.isFirstVisit_init. rewrite H. reflexivity. Qed.

Lemma dispatch_visited r e w :
  localStorage (snd (dispatch MoviePlayer.tryPlayVideo_resume r e w)) !! "visited"
  = localStorage w !! "visited".
Proof.
  revert w. apply (keeps (fun w => localStorage w !! "visited")). intros c.
  destruct e as [code|[tag| | |]| | | |i ok|ms|pos]; hoare_descend;
    intros w H; cbv beta in *; cbn [localStorage set_localStorage set_state set_pending
      set_playCalls set_videoRef set_console set_timer];
    rewrite ?lookup_insert_ne by discriminate; intuition congruence.
Qed.

Lemma run_visited evs w :
  localStorage (MoviePlayer.run evs w) !! "visited" = localStorage w !! "visited".
Proof.
  revert w. induction evs as [|e evs IH]; intros w; [reflexivity|].
  rewrite Frame.run_cons, IH, Frame.step_localStorage. apply dispatch_visited.
Qed.

Lemma storage_after_visited ls r evs :
  js_not (App.storage_after ls r evs !! "visited") = false.
Proof.
  unfold App.storage_after.
  destruct (snd (App.session ls r evs)) as [w|] eqn:Hw.
  - destruct (Session.session_player ls r evs w Hw) as (vs & _ & _ & ->).
    rewrite run_visited, Invariant.mount_localStorage. apply init_visited.
  - unfold App.init. pose proof (init_visited ls) as H.
    destruct (App.isFirstVisit_init ls) as [first ls']. exact H.
Qed.

Lemma sessions_visited ss ls :
  js_not (ls !! "visited") = false -> js_not (sessions ss ls !! "visited") = false.
Proof.
  revert ls. induction ss as [|[r evs] ss IH]; intros ls H; [exact H|].
  simpl. apply IH, storage_after_visited.
Qed.

(** The overlay of a first visit, [elapsed evs] milliseconds after the mount. *)
Lemma mounted_at vs ls evs :
  vs <> [] ->
  welcome_at (elapsed evs) (MoviePlayer.run evs (MoviePlayer.mount vs true ls)).
Proof.
  intros Hvs.
  apply (welcome_run 0 evs _ (Invariant.wf_mount vs true ls Hvs) ltac:(lia)).
  left. rewrite Invariant.mount_state, mount_timer by exact Hvs. repeat split; lia.
Qed.

Lemma mounted_gone vs ls evs :
  vs <> [] ->
  showWelcome (state (MoviePlayer.run evs (MoviePlayer.mount vs false ls))) = false.
Proof.
  intros Hvs. apply gone_run.
  rewrite Invariant.mount_state, mount_timer by exact Hvs. auto.
Qed.

(** The passing of time that completes the 3000 ms. *)
Lemma dismissal vs fv ls evs ms :
  vs <> [] ->
  let w := MoviePlayer.run evs (MoviePlayer.mount vs fv ls) in
  let w' := MoviePlayer.step (Elapse ms) w in
  showWelcome (state w) = true -> 3000 <= elapsed evs + ms ->
  showWelcome (state w') = false /\ playCalls w' = S (playCalls w).
Proof.
  intros Hvs w w' Hup Hdue. subst w w'.
  destruct fv; [|rewrite mounted_gone in Hup by exact Hvs; discriminate].
  destruct (mounted_at vs ls evs Hvs) as [(H1 & H2 & H3)|(H1 & _ & _)]; [|congruence].
  destruct (step_elapse_fire ms _ _ H2 ltac:(lia) ltac:(lia)
              (proj2 (Invariant.wf_reachable vs true ls evs Hvs))) as (Hs & _ & Hc).
  split; [rewrite Hs; reflexivity | exact Hc].
Qed.

End Welcome.

(** C5, as stated, fails in a session whose request brings no clip: on an
    empty store [hasVisitedBefore()] answers false and the marker is written,
    but the host shows its message and no player, so no overlay; and the next
    session, whose request brings clips, finds the marker and shows none. *)
Lemma overlay_iff_first_visit_fails : ~ overlay_iff_first_visit.
Proof.
  intros H. destruct (H ∅ App.Failed) as [_ Hshown].
  specialize (Hshown eq_refl). vm_compute in Hshown. discriminate Hshown.
Qed.

(** C5, amended.  The overlay is up at the start of a session exactly when
    [hasVisitedBefore()] answered false and the request brought clips, so that
    the host mounts the player.  In a session whose player [w0] is mounted: if
    the overlay is up, then after any events it is still up exactly when less
    than 3000 ms have passed since the mount; the passing of time that
    completes the 3000 ms takes it down and issues one play attempt; if it is
    not up at the start it never comes up.  In every later session on the
    storage this one leaves, with or without a player in this one and however
    many sessions lie between, it is never up. *)
Theorem welcome_overlay (ls : gmap string string) (r : App.Response) :
  overlay_shown (App.session ls r [])
  = negb (fst (PersistentPreferences.hasVisitedBefore ls))
    && (js_length (App.videos (App.fetchVideos r (fst (App.init ls)))) >? 0)
  /\ (forall w0,
        snd (App.session ls r []) = Some w0 ->
        showWelcome (state w0) = negb (fst (PersistentPreferences.hasVisitedBefore ls))
        /\ (showWelcome (state w0) = true ->
            forall evs,
              showWelcome (state (MoviePlayer.run evs w0)) = true <-> elapsed evs < 3000)
        /\ (forall evs ms,
              let w := MoviePlayer.run evs w0 in
              let w' := MoviePlayer.step (Elapse ms) w in
              showWelcome (state w) = true -> 3000 <= elapsed evs + ms ->
              showWelcome (state w') = false /\ playCalls w' = S (playCalls w))
        /\ (showWelcome (state w0) = false ->
            forall evs, showWelcome (state (MoviePlayer.run evs w0)) = false))
  /\ (forall evs ss r' evs',
        overlay_shown (App.session (sessions ((r, evs) :: ss) ls) r' evs') = false).
Proof.
  split; [|split].
  - unfold overlay_shown, App.session, App.init, PersistentPreferences.hasVisitedBefore.
    destruct (App.isFirstVisit_init ls) as [first ls']. cbn [fst snd].
    rewrite negb_involutive.
    destruct r as [| |[|m data]| |]; destruct first; reflexivity.
  - intros w0 Hw0.
    destruct (Session.session_player ls r [] w0 Hw0) as (vs & Hvs & _ & Hmount).
    simpl in Hmount.
    assert (Hsw : showWelcome (state w0) = fst (App.isFirstVisit_init ls))
      by (subst w0; rewrite Invariant.mount_state; reflexivity).
    split; [|split; [|split]].
    + rewrite Hsw. unfold PersistentPreferences.hasVisitedBefore.
      destruct (App.isFirstVisit_init ls) as [b l]. simpl. rewrite negb_involutive.
      reflexivity.
    + intros Ht evs. rewrite Hsw in Ht. rewrite Ht in Hmount. subst w0.
      destruct (Welcome.mounted_at vs (snd (App.isFirstVisit_init ls)) evs Hvs)
        as [(H1 & _ & H3)|(H1 & _ & H3)].
      * split; auto.
      * split; [congruence | lia].
    + intros evs ms. subst w0. apply Welcome.dismissal, Hvs.
    + intros Hf evs. rewrite Hsw in Hf. rewrite Hf in Hmount. subst w0.
      apply Welcome.mounted_gone, Hvs.
  - intros evs ss r' evs'. unfold overlay_shown.
    destruct (snd (App.session (sessions ((r, evs) :: ss) ls) r' evs')) as [w1|] eqn:Hw1;
      [|reflexivity].
    destruct (Session.session_player _ r' evs' w1 Hw1) as (vs1 & Hvs1 & _ & ->).
    simpl sessions.
    rewrite Welcome.init_again
      by (apply Welcome.sessions_visited, Welcome.storage_after_visited).
    simpl. apply Welcome.mounted_gone, Hvs1.
Qed.

Lemma welcome_overlay_witness :
  snd (App.session ∅ (App.Items [App.mkMovie 1 "a.mp4" "A"; App.mkMovie 2 "b.mp4" "B"]) [])
  = Some (MoviePlayer.mount
            (App.transformed [App.mkMovie 1 "a.mp4" "A"; App.mkMovie 2 "b.mp4" "B"])
            true (<["visited" := "true"]> ∅))
  /\ showWelcome
       (state (MoviePlayer.mount
                 (App.transformed [App.mkMovie 1 "a.mp4" "A"; App.mkMovie 2 "b.mp4" "B"])
                 true (<["visited" := "true"]> ∅)))
     = true
  /\ showWelcome
       (state (MoviePlayer.run [Elapse 1000; Ended; Elapse 1999]
                 (MoviePlayer.mount
                    (App.transformed
                       [App.mkMovie 1 "a.mp4" "A"; App.mkMovie 2 "b.mp4" "B"])
                    true (<["visited" := "true"]> ∅))))
     = true
  /\ showWelcome
       (state (MoviePlayer.step (Elapse 1)
                 (MoviePlayer.run [Elapse 1000; Ended; Elapse 1999]
                    (MoviePlayer.mount
                       (App.transformed
                          [App.mkMovie 1 "a.mp4" "A"; App.mkMovie 2 "b.mp4" "B"])
                       true (<["visited" := "true"]> ∅)))))
     = false
  /\ overlay_shown (App.session ∅ App.Failed []) = false
  /\ overlay_shown
       (App.session (sessions [(App.Failed, [])] ∅)
          (App.Items [App.mkMovie 1 "a.mp4" "A"; App.mkMovie 2 "b.mp4" "B"]) [])
     = false.
Proof.
  assert (Hs : snd (App.session ∅ (App.Items [App.mkMovie 1 "a.mp4" "A";
                                               App.mkMovie 2 "b.mp4" "B"]) [])
               = Some (MoviePlayer.mount
                         (App.transformed [App.mkMovie 1 "a.mp4" "A";
                                           App.mkMovie 2 "b.mp4" "B"])
                         true (<["visited" := "true"]> ∅)))
    by (vm_compute; reflexivity).
  destruct (welcome_overlay ∅ (App.Items [App.mkMovie 1 "a.mp4" "A";
                                               App.mkMovie 2 "b.mp4" "B"]))
    as (_ & Hplayer & _).
  destruct (Hplayer _ Hs) as (H0 & Hiff & Hfire & _).
  assert (Hup : showWelcome
                  (state (MoviePlayer.mount
                            (App.transformed [App.mkMovie 1 "a.mp4" "A";
                                              App.mkMovie 2 "b.mp4" "B"])
                            true (<["visited" := "true"]> ∅))) = true)
    by (rewrite H0; vm_compute; reflexivity).
  assert (Hmid : showWelcome
                   (state (MoviePlayer.run [Elapse 1000; Ended; Elapse 1999]
                             (MoviePlayer.mount
                                (App.transformed [App.mkMovie 1 "a.mp4" "A";
                                                  App.mkMovie 2 "b.mp4" "B"])
                                true (<["visited" := "true"]> ∅)))) = true)
    by (apply (Hiff Hup); vm_compute; reflexivity).
  split; [exact Hs|]. split; [exact Hup|]. split; [exact Hmid|].
  split; [apply (Hfire [Elapse 1000; Ended; Elapse 1999] 1 Hmid); vm_compute; discriminate|].
  destruct (welcome_overlay ∅ App.Failed) as (Hstart & _ & Hlater).
  split; [rewrite Hstart; reflexivity|].
  apply (Hlater [] []).
Defined.

(** * Autoplay at the mount *)

(** C6, as stated, fails: the effect of lines 181-189 has no test of
    [showWelcome], so the mount of a first visit calls [play()] under the
    overlay. *)
Lemma autoplay_deferred_fails : ~ autoplay_deferred.
Proof.
  intros H.
  specialize (H [clip 1] ∅ [] ltac:(discriminate) eq_refl).
  vm_compute in H. discriminate H.
Qed.

(** C6, amended.  The mount on a non-empty list issues one play attempt at
    once, whether or not the overlay is up, on a media element that carries
    [autoPlay] and is muted; when the overlay is up, the passing of time that
    completes its 3000 ms issues one more. *)
Theorem autoplay_at_mount (vs : list Video.t) (fv : bool) (ls : gmap string string) :
  vs <> [] ->
  let w0 := MoviePlayer.mount vs fv ls in
  showWelcome (state w0) = fv
  /\ playCalls w0 = 1%nat
  /\ pending w0 = [FirstAttempt]
  /\ (exists el, videoRef w0 = Some el /\ autoPlay el = true /\ muted el = true)
  /\ (forall evs ms,
        let w := MoviePlayer.run evs w0 in
        showWelcome (state w) = true -> 3000 <= elapsed evs + ms ->
        playCalls (MoviePlayer.step (Elapse ms) w) = S (playCalls w)).
Proof.
  intros Hvs w0. subst w0. split; [|split; [|split; [|split]]].
  - rewrite Invariant.mount_state. reflexivity.
  - destruct vs; [congruence|]. rewrite Invariant.mount_eq. reflexivity.
  - destruct vs; [congruence|]. rewrite Invariant.mount_eq. reflexivity.
  - destruct vs; [congruence|]. rewrite Invariant.mount_eq. simpl. eauto.
  - intros evs ms w Hup Hdue. apply (Welcome.dismissal vs fv ls evs ms Hvs Hup Hdue).
Qed.

Lemma autoplay_at_mount_witness :
  let w0 := MoviePlayer.mount [clip 1; clip 2] true ∅ in
  [clip 1; clip 2] <> []
  /\ showWelcome (state w0) = true /\ playCalls w0 = 1%nat
  /\ playCalls (MoviePlayer.step (Elapse 3000) w0) = 2%nat.
Proof.
  intros w0.
  assert (Hvs : [clip 1; clip 2] <> []) by discriminate.
  destruct (autoplay_at_mount [clip 1; clip 2] true ∅ Hvs) as (H1 & H2 & _ & _ & H5).
  split; [exact Hvs|]. split; [exact H1|]. split; [exact H2|].
  pose proof (H5 [] 3000 H1 ltac:(vm_compute; discriminate)) as H.
  cbv zeta in H. change (MoviePlayer.run [] ?w) with w in H.
  unfold w0. rewrite H, H2. reflexivity.
Defined.
(** * The visited marker *)

Module Visited.
Import PersistentPreferences.

Lemma hasVisitedBefore_first ls :
  js_not (ls !! "visited") = true ->
  hasVisitedBefore ls = (false, <["visited" := "true"]> ls).
Proof.
  intros H. unfold hasVisitedBefore, App.isFirstVisit_init. rewrite H. reflexivity.
Qed.

Lemma hasVisitedBefore_again ls :
  js_not (ls !! "visited") = false -> hasVisitedBefore ls = (true, ls).
Proof.
  intros H. unfold hasVisitedBefore, App.isFirstVisit_init. rewrite H. reflexivity.
Qed.

Lemma answers_visited accs ls :
  js_not (ls !! "visited") = false ->
  fst (answers accs ls) = replicate (calls accs) true.
Proof.
  revert ls. induction accs as [|[| |] accs IH]; intros ls H; simpl.
  - reflexivity.
  - rewrite hasVisitedBefore_again by exact H.
    specialize (IH ls H). destruct (answers accs ls) as [bs ls']. simpl in *.
    congruence.
  - apply IH, H.
  - apply IH. rewrite lookup_insert_ne by discriminate. exact H.
Qed.

Lemma answers_fresh accs ls :
  js_not (ls !! "visited") = true ->
  fst (answers accs ls)
  = match calls accs with
    | O => []
    | S k => false :: replicate k true
    end.
Proof.
  revert ls. induction accs as [|[| |] accs IH]; intros ls H; simpl.
  - reflexivity.
  - rewrite hasVisitedBefore_first by exact H.
    pose proof (answers_visited accs (<["visited" := "true"]> ls)) as Hv.
    rewrite lookup_insert_eq in Hv. specialize (Hv eq_refl).
    destruct (answers accs (<["visited" := "true"]> ls)) as [bs ls']. simpl in *.
    congruence.
  - apply IH, H.
  - apply IH. rewrite lookup_insert_ne by discriminate. exact H.
Qed.

End Visited.

(** C8.  On a store without the marker, [hasVisitedBefore()] answers false and
    writes ["visited"]; a call writes the marker only when it answers false;
    among any accesses of the program to the store, the first call answers false
    and every later call answers true; and at the start of every session after
    the first, however the sessions went, the call answers true and writes
    nothing.  The initializer of [showWelcome] in the player without props is
    the same function. *)
Theorem hasVisitedBefore_once (ls : gmap string string) :
  ls !! "visited" = None ->
  PersistentPreferences.hasVisitedBefore ls = (false, <["visited" := "true"]> ls)
  /\ (forall ls0,
        snd (PersistentPreferences.hasVisitedBefore ls0)
        = if fst (PersistentPreferences.hasVisitedBefore ls0) then ls0
          else <["visited" := "true"]> ls0)
  /\ (forall accs,
        fst (PersistentPreferences.answers accs ls)
        = match calls accs with
          | O => []
          | S k => false :: replicate k true
          end)
  /\ (forall r evs ss,
        let later := sessions ((r, evs) :: ss) ls in
        PersistentPreferences.hasVisitedBefore later = (true, later))
  /\ (forall ls0, Standalone.showWelcome_init ls0 = App.isFirstVisit_init ls0).
Proof.
  intros Hfresh.
  assert (Hnot : js_not (ls !! "visited") = true) by (rewrite Hfresh; reflexivity).
  split; [|split; [|split; [|split]]]; [| | | |reflexivity].
  - apply Visited.hasVisitedBefore_first, Hnot.
  - intros ls0. destruct (js_not (ls0 !! "visited")) eqn:H.
    + rewrite Visited.hasVisitedBefore_first by exact H. reflexivity.
    + rewrite Visited.hasVisitedBefore_again by exact H. reflexivity.
  - intros accs. apply Visited.answers_fresh, Hnot.
  - intros r evs ss later. apply Visited.hasVisitedBefore_again.
    subst later. simpl.
    apply Welcome.sessions_visited, Welcome.storage_after_visited.
Qed.

Lemma hasVisitedBefore_once_witness :
  (∅ : gmap string string) !! "visited" = None
  /\ fst (PersistentPreferences.hasVisitedBefore ∅) = false
  /\ fst (PersistentPreferences.answers
            [PersistentPreferences.GetSoundPreference;
             PersistentPreferences.HasVisitedBefore;
             PersistentPreferences.SetSoundUnmuted;
             PersistentPreferences.HasVisitedBefore;
             PersistentPreferences.HasVisitedBefore] ∅) = [false; true; true]
  /\ fst (PersistentPreferences.hasVisitedBefore
            (sessions [(App.Failed, [])] ∅)) = true.
Proof.
  assert (H : (∅ : gmap string string) !! "visited" = None) by apply lookup_empty.
  destruct (hasVisitedBefore_once ∅ H) as (H1 & _ & H3 & H4 & _).
  split; [exact H|]. split; [rewrite H1; reflexivity|].
  split; [rewrite H3; reflexivity|].
  specialize (H4 App.Failed [] []). cbv zeta in H4. rewrite H4. reflexivity.
Defined.
(** * The empty clip list *)

Module Empty.

(** The host shows the player only for a list that is not empty. *)
Lemma host_guard ls r evs vs fv :
  fst (App.session ls r evs) = App.Player vs fv -> vs <> [].
Proof.
  unfold App.session, App.init. destruct (App.isFirstVisit_init ls) as [first ls'].
  destruct r as [| |[|m data]| |]; simpl; try discriminate.
  intros [= <- _]. discriminate.
Qed.

(** A request that brings no clip ends in the message, without a player. *)
Lemma host_empty ls r evs :
  match r with App.Items (_ :: _) => False | _ => True end ->
  App.session ls r evs = (App.NoVideosToDisplay, None).
Proof.
  intros H. unfold App.session, App.init.
  destruct (App.isFirstVisit_init ls) as [first ls'].
  destruct r as [| |[|m data]| |]; try contradiction; reflexivity.
Qed.

Lemma loading_mount ls :
  let w := Standalone.mount ls in
  loading w /\ playCalls w = 0%nat /\ uncaught w = [] /\ currentIndex (state w) = 0.
Proof.
  unfold Standalone.mount, Standalone.showWelcome_init, loading.
  destruct (js_not (ls !! "visited")); repeat split.
Qed.

(** While it has no clips, the self-fetching player calls no [play()] and
    throws nothing. *)
Lemma loading_step i w :
  brings_no_clips i -> loading w ->
  let w' := Standalone.step i w in
  loading w' /\ playCalls w' = playCalls w /\ uncaught w' = uncaught w.
Proof.
  intros Hi (Hvs & Href & Hpend).
  destruct w as [vs [ci ip sw pc im su] ref pend tm lst con calls unc].
  simpl in *. subst vs ref pend. unfold loading.
  destruct i as [[|[|m movies]|]|e]; try contradiction.
  all: unfold Standalone.step, settle; autounfold with js;
    unfold bind, gets, modify, ret, throw, try_catch, await; simpl.
  all: try (destruct e as [code|[tag| | |]| | | |i ok|ms|pos]; simpl).
  all: repeat case_match; simpl in *; simplify_eq; repeat split.
Qed.

Lemma loading_run ins w :
  Forall brings_no_clips ins -> loading w ->
  let w' := Standalone.run ins w in
  loading w' /\ playCalls w' = playCalls w /\ uncaught w' = uncaught w.
Proof.
  intros Hall. revert w. induction Hall as [|i ins Hi _ IH]; intros w Hw.
  - simpl. auto.
  - destruct (loading_step i w Hi Hw) as (Hw1 & Hc1 & Hu1).
    destruct (IH _ Hw1) as (Hw' & Hc' & Hu').
    change (Standalone.run (i :: ins) w) with (Standalone.run ins (Standalone.step i w)).
    cbv zeta. rewrite Hc', Hu', Hc1, Hu1. auto.
Qed.

End Empty.

(** What holds of C7.  In the host, a request that brings no clip ends in the
    "No videos to display." message and no player is mounted, and a player is
    only ever mounted on a non-empty list, where no event throws.  In the
    self-fetching player, as long as no clips have arrived, no [play()] is
    called, there is no media element and nothing is thrown. *)
Theorem empty_list_is_terminal :
  (forall ls r evs,
     match r with App.Items (_ :: _) => False | _ => True end ->
     App.session ls r evs = (App.NoVideosToDisplay, None))
  /\ (forall ls r evs vs fv,
        fst (App.session ls r evs) = App.Player vs fv ->
        vs <> []
        /\ uncaught (MoviePlayer.run evs (MoviePlayer.mount vs fv ls)) = []
        /\ in_range (MoviePlayer.run evs (MoviePlayer.mount vs fv ls)))
  /\ (forall ls ins,
        Forall brings_no_clips ins ->
        let w := Standalone.run ins (Standalone.mount ls) in
        videos w = [] /\ videoRef w = None /\ playCalls w = 0%nat /\ uncaught w = []).
Proof.
  split; [exact Empty.host_empty|]. split.
  - intros ls r evs vs fv H. pose proof (Empty.host_guard ls r evs vs fv H) as Hvs.
    split; [exact Hvs|]. split; [apply Safety.no_crash, Hvs|].
    apply (Invariant.wf_reachable vs fv ls evs Hvs).
  - intros ls ins Hall w. subst w.
    destruct (Empty.loading_mount ls) as (Hl & Hc & Hu & _).
    destruct (Empty.loading_run ins _ Hall Hl) as ((Hvs & Href & _) & Hc' & Hu').
    rewrite Hc' , Hu'. auto.
Qed.

(** C7 fails in the self-fetching player.  Its key listener is registered on
    the window while the list is still empty: the left arrow then computes
    [videos.length - 1] and leaves [currentIndex] at -1, a second one at -2, and
    when clips arrive the render reads [videos[-1]] and throws. *)
Theorem standalone_negative_index :
  let w1 := Standalone.run [Standalone.Player (KeyDown "ArrowLeft")]
                           (Standalone.mount ∅) in
  let w2 := Standalone.step (Standalone.Player (KeyDown "ArrowLeft")) w1 in
  let w3 := Standalone.step
              (Standalone.Fetched (Standalone.Success [App.mkMovie 1 "a.mp4" "A"])) w1 in
  videos w1 = []
  /\ currentIndex (state w1) = -1
  /\ currentIndex (state w2) = -2
  /\ js_index (videos w3) (currentIndex (state w3)) = None
  /\ uncaught w3 = ["TypeError"]
  /\ videoRef w3 = None.
Proof. vm_compute. repeat split. Qed.

(** * The media element of the mounted player *)

Module Element.

Ltac element_leaf :=
  unfold shows_clip, mute_synced in *; simpl in *;
  repeat match goal with H : _ /\ _ |- _ => destruct H end;
  intros; simplify_eq; simpl in *; bool_hyps;
  repeat match goal with
         | H : forall el, ?r = Some el -> _, E : ?r = Some _ |- _ =>
             pose proof (H _ E); clear H
         end;
  repeat match goal with H : _ /\ _ |- _ => destruct H end;
  first [congruence | eauto | (split; eauto; congruence)].

Lemma shows_dispatch r e :
  hoare shows_clip shows_clip (dispatch MoviePlayer.tryPlayVideo_resume r e).
Proof. destruct e as [code|[tag| | |]| | | |i ok|ms|pos]; hoare_auto; element_leaf. Qed.

Lemma shows_commit r : hoare shows_clip shows_clip (commit MoviePlayer.render r).
Proof. hoare_auto; element_leaf. Qed.

Lemma synced_dispatch r e :
  hoare mute_synced mute_synced (dispatch MoviePlayer.tryPlayVideo_resume r e).
Proof. destruct e as [code|[tag| | |]| | | |i ok|ms|pos]; hoare_auto; element_leaf. Qed.

Lemma synced_commit r : hoare mute_synced mute_synced (commit MoviePlayer.render r).
Proof. hoare_auto; element_leaf. Qed.

(** The render leaves the element of [currentIndex] behind [videoRef]. *)
Lemma render_current r : hoare wf current_element (MoviePlayer.render r).
Proof.
  intros w [Hr [el Href]]. unfold MoviePlayer.render, bind, gets.
  destruct (js_index (videos w) (currentIndex (state w))) as [v|] eqn:Hv;
    [|destruct (Safety.in_range_index w Hr Hv)].
  rewrite Href.
  destruct (key el =? currentIndex (state w)) eqn:Hk.
  - apply Z.eqb_eq in Hk.
    destruct (negb (Bool.eqb (isMuted r) (isMuted (state w)))); simpl;
      eexists; (split; [eassumption || reflexivity | exact Hk]).
  - simpl. eexists. split; reflexivity.
Qed.

Lemma current_commit r : hoare wf current_element (commit MoviePlayer.render r).
Proof.
  unfold commit. apply hoare_bind; [apply render_current | intros _].
  hoare_auto; unfold current_element in *;
    repeat match goal with
           | H : exists _, _ |- _ => destruct H
           | H : _ /\ _ |- _ => destruct H
           end;
    simplify_eq; simpl; eauto.
Qed.

(** The invariants of the element after an event. *)
Lemma step_element e w :
  wf w -> shows_clip w -> mute_synced w ->
  let w' := MoviePlayer.step e w in
  shows_clip w' /\ mute_synced w' /\ current_element w'.
Proof.
  intros Hwf Hs Hm w'. subst w'.
  split; [|split].
  - unfold MoviePlayer.step, step. apply hoare_settle; [auto | | exact Hs].
    apply hoare_bind; [apply shows_dispatch | intros _; apply shows_commit].
  - unfold MoviePlayer.step, step. apply hoare_settle; [auto | | exact Hm].
    apply hoare_bind; [apply synced_dispatch | intros _; apply synced_commit].
  - unfold MoviePlayer.step, step, settle, bind.
    destruct (Safety.total_dispatch (state w) e w Hwf) as [Hwd [a Ha]].
    destruct (dispatch MoviePlayer.tryPlayVideo_resume (state w) e w) as [c wd].
    simpl in *. subst c.
    pose proof (current_commit (state w) wd Hwd) as Hc.
    destruct (commit MoviePlayer.render (state w) wd) as [[[]|err] wc]; exact Hc.
Qed.

Lemma mount_element vs fv ls :
  vs <> [] ->
  let w := MoviePlayer.mount vs fv ls in
  shows_clip w /\ mute_synced w /\ current_element w.
Proof.
  destruct vs as [|v vs]; [congruence|]. intros _ w. subst w.
  rewrite Invariant.mount_eq. unfold shows_clip, mute_synced, current_element. simpl.
  split; [|split].
  - intros el [= <-]. simpl. split; [reflexivity | eauto].
  - intros el [= <-] _. reflexivity.
  - eexists. split; reflexivity.
Qed.

Lemma run_element vs fv ls evs :
  vs <> [] ->
  let w := MoviePlayer.run evs (MoviePlayer.mount vs fv ls) in
  wf w /\ shows_clip w /\ mute_synced w /\ current_element w.
Proof.
  intros Hvs. induction evs as [|e evs IH] using rev_ind.
  - split; [apply Invariant.wf_mount, Hvs | apply mount_element, Hvs].
  - cbv zeta in *. rewrite Frame.run_snoc. destruct IH as (Hwf & Hs & Hm & _).
    split; [apply Invariant.wf_step, Hwf | apply step_element; assumption].
Qed.

End Element.

(** X1.  In the player mounted on a non-empty list, after any events, the media
    element behind [videoRef] is the one rendered for [currentIndex]: its key is
    [currentIndex], its [src] is [videos[currentIndex].url] and it carries
    [autoPlay]. *)
Theorem element_of_current_clip (vs : list Video.t) fv ls evs :
  vs <> [] ->
  let w := MoviePlayer.run evs (MoviePlayer.mount vs fv ls) in
  exists el v,
    videoRef w = Some el
    /\ key el = currentIndex (state w)
    /\ js_index vs (currentIndex (state w)) = Some v
    /\ src el = Video.url v
    /\ autoPlay el = true.
Proof.
  intros Hvs w. destruct (Element.run_element vs fv ls evs Hvs) as (_ & Hs & _ & Hc).
  fold w in Hs, Hc. destruct Hc as (el & Href & Hk).
  destruct (Hs el Href) as (Ha & v & Hv & Hsrc).
  exists el, v. rewrite <- Hk.
  replace vs with (videos w)
    by (unfold w; rewrite Frame.run_videos, Invariant.mount_videos; reflexivity).
  auto.
Qed.

Lemma element_of_current_clip_witness :
  let vs := [Video.mk 1 "a.mp4" "A"; Video.mk 2 "b.mp4" "B"] in
  let w := MoviePlayer.run [KeyDown "ArrowLeft"; Settled 0 false; Ended]
                           (MoviePlayer.mount vs true ∅) in
  vs <> []
  /\ exists el, videoRef w = Some el /\ key el = 1 /\ src el = "b.mp4".
Proof.
  intros vs w. assert (Hvs : vs <> []) by discriminate.
  destruct (element_of_current_clip vs true ∅
              [KeyDown "ArrowLeft"; Settled 0 false; Ended] Hvs)
    as (el & v & Href & Hk & Hv & Hsrc & _).
  split; [exact Hvs|]. exists el. split; [exact Href|].
  assert (Hi : currentIndex (state w) = 1) by (vm_compute; reflexivity).
  fold w in Hk, Hv. rewrite Hi in Hk, Hv. split; [exact Hk|].
  vm_compute in Hv. injection Hv as <-. exact Hsrc.
Defined.

(** X2.  In the player mounted on a non-empty list, after any events, the media
    element is muted as long as [isMuted] holds: sound is never on while the
    state says muted. *)
Theorem muted_while_isMuted (vs : list Video.t) fv ls evs el :
  vs <> [] ->
  let w := MoviePlayer.run evs (MoviePlayer.mount vs fv ls) in
  videoRef w = Some el -> isMuted (state w) = true -> muted el = true.
Proof.
  intros Hvs w. destruct (Element.run_element vs fv ls evs Hvs) as (_ & _ & Hm & _).
  exact (Hm el).
Qed.

Lemma muted_while_isMuted_witness :
  let vs := [clip 1; clip 2] in
  let w := MoviePlayer.run [Settled 0 true; KeyDown "ArrowRight"]
                           (MoviePlayer.mount vs true ∅) in
  vs <> [] /\ videoRef w = Some (newElement 1 (clip 2) true)
  /\ isMuted (state w) = true /\ muted (newElement 1 (clip 2) true) = true.
Proof.
  intros vs w. assert (Hvs : vs <> []) by discriminate.
  assert (Href : videoRef w = Some (newElement 1 (clip 2) true))
    by (vm_compute; reflexivity).
  assert (Hm : isMuted (state w) = true) by (vm_compute; reflexivity).
  split; [exact Hvs|]. split; [exact Href|]. split; [exact Hm|].
  exact (muted_while_isMuted vs true ∅ [Settled 0 true; KeyDown "ArrowRight"] _
           Hvs Href Hm).
Defined.

(** X3.  The player mounted on a non-empty list never leaves an exception
    uncaught and never leaves [currentIndex] outside the list, whatever the
    events and however the [play()] promises settle. *)
Theorem hosted_player_never_throws (vs : list Video.t) fv ls evs :
  vs <> [] ->
  let w := MoviePlayer.run evs (MoviePlayer.mount vs fv ls) in
  uncaught w = [] /\ 0 <= currentIndex (state w) < js_length vs.
Proof.
  intros Hvs w. split; [apply Safety.no_crash, Hvs|].
  destruct (Invariant.wf_reachable vs fv ls evs Hvs) as [Hr _]. unfold in_range in Hr.
  fold w in Hr. unfold w in Hr at 3.
  rewrite Frame.run_videos, Invariant.mount_videos in Hr. exact Hr.
Qed.

Lemma hosted_player_never_throws_witness :
  let evs := [Settled 0 false; Settled 0 false; KeyDown "ArrowLeft"; SwipedRight;
              Click UnmuteButton; Ended; Ended; Elapse 4000] in
  [clip 1; clip 2] <> []
  /\ uncaught (MoviePlayer.run evs (MoviePlayer.mount [clip 1; clip 2] true ∅)) = [].
Proof.
  intros evs. assert (Hvs : [clip 1; clip 2] <> []) by discriminate.
  split; [exact Hvs|].
  exact (proj1 (hosted_player_never_throws [clip 1; clip 2] true ∅ evs Hvs)).
Defined.

(** * The store during a session *)

Module Store.

Lemma flag_stored ls :
  PersistentPreferences.getSoundPreference ls = true -> ls !! "videoMuted" = Some "false".
Proof.
  unfold PersistentPreferences.getSoundPreference, MoviePlayer.shouldUnmute_init.
  apply bool_decide_eq_true.
Qed.

Lemma kept_dispatch ls r e :
  shouldUnmute r = PersistentPreferences.getSoundPreference ls ->
  hoare (store_kept ls) (store_kept ls) (dispatch MoviePlayer.tryPlayVideo_resume r e).
Proof.
  intros Hr.
  destruct e as [code|[tag| | |]| | | |i ok|ms|pos]; hoare_auto;
    unfold store_kept, unmuteButtonRendered in *; simpl in *;
    repeat match goal with H : _ /\ _ |- _ => destruct H end;
    bool_hyps; subst; split; try congruence.
  apply insert_id, flag_stored. congruence.
Qed.

Lemma kept_commit ls r :
  hoare (store_kept ls) (store_kept ls) (commit MoviePlayer.render r).
Proof.
  hoare_auto; unfold store_kept in *; simpl in *;
    repeat match goal with H : _ /\ _ |- _ => destruct H end; split; congruence.
Qed.

Lemma kept_step ls e w : store_kept ls w -> store_kept ls (MoviePlayer.step e w).
Proof.
  intros H. unfold MoviePlayer.step, step.
  apply hoare_settle; [intros w' u Hw; exact Hw | | exact H].
  apply hoare_bind; [apply kept_dispatch, H | intros _; apply kept_commit].
Qed.

Lemma kept_run ls evs w : store_kept ls w -> store_kept ls (MoviePlayer.run evs w).
Proof.
  revert w. induction evs as [|e evs IH]; intros w H; [exact H|].
  rewrite Frame.run_cons. apply IH, kept_step, H.
Qed.

Lemma kept_mount vs fv ls : store_kept ls (MoviePlayer.mount vs fv ls).
Proof.
  unfold store_kept. rewrite Invariant.mount_localStorage, Invariant.mount_state.
  split; reflexivity.
Qed.

Lemma storage_after_eq ls r evs :
  App.storage_after ls r evs = snd (App.isFirstVisit_init ls).
Proof.
  unfold App.storage_after.
  destruct (snd (App.session ls r evs)) as [w|] eqn:Hw.
  - destruct (Session.session_player ls r evs w Hw) as (vs & _ & _ & ->).
    apply kept_run, kept_mount.
  - unfold App.init. destruct (App.isFirstVisit_init ls); reflexivity.
Qed.

End Store.

(** X4.  The player never changes the store: after any events localStorage is
    what it was at the mount (the one write, of the unmute control, rewrites the
    value that made the control appear), and [shouldUnmute] is what was read
    at the mount.  So a session changes the store by the visited marker at
    most, and any number of sessions leave what the first one left. *)
Theorem store_unchanged (ls : gmap string string) :
  (forall vs fv evs,
     let w := MoviePlayer.run evs (MoviePlayer.mount vs fv ls) in
     localStorage w = ls
     /\ shouldUnmute (state w) = PersistentPreferences.getSoundPreference ls)
  /\ (forall r evs, App.storage_after ls r evs = snd (App.isFirstVisit_init ls))
  /\ (forall s ss, sessions (s :: ss) ls = snd (App.isFirstVisit_init ls)).
Proof.
  split; [|split].
  - intros vs fv evs. apply Store.kept_run, Store.kept_mount.
  - apply Store.storage_after_eq.
  - intros s ss. revert s ls. induction ss as [|s' ss IH]; intros [r evs] ls0.
    + simpl. apply Store.storage_after_eq.
    + change (sessions ((r, evs) :: s' :: ss) ls0)
        with (sessions (s' :: ss) (App.storage_after ls0 r evs)).
      rewrite IH, Store.storage_after_eq, Welcome.init_again; [reflexivity|].
      apply Welcome.init_visited.
Qed.

(** * The replay counter *)

Module Counter.

Lemma step_ended w :
  playCount (state (MoviePlayer.step Ended w)) = playCount (state w) + 1.
Proof.
  rewrite Frame.step_state.
  destruct w as [vs [ci ip sw pc im su] ref pend tm lst con calls unc].
  unfold dispatch, handleVideoEnd, bind. simpl.
  destruct (pc >=? 1); [reflexivity|]. destruct ref; reflexivity.
Qed.

Lemma step_navigated e d w :
  navigation e = Some d -> playCount (state (MoviePlayer.step e w)) = 0.
Proof.
  intros H. rewrite Frame.step_state, (Navigation.dispatch_navigation _ _ _ d) by exact H.
  reflexivity.
Qed.

End Counter.

(** X5.  [playCount] counts the ends of the clip since the last navigation
    request: every end adds one (also beyond the second), every navigation
    request resets it to 0, and no other event touches it. *)
Theorem playCount_counts_ends (evs : list Event) (w : World) :
  playCount (state (MoviePlayer.run evs w))
  = ends_since_navigation evs (playCount (state w)).
Proof.
  revert w. induction evs as [|e evs IH]; intros w; [reflexivity|].
  rewrite Frame.run_cons, IH. simpl. f_equal.
  destruct (navigation e) as [d|] eqn:Hnav.
  - apply (Counter.step_navigated e d w Hnav).
  - destruct (ended e) eqn:He.
    + destruct e; try discriminate. apply Counter.step_ended.
    + apply ClipEnd.step_playCount; assumption.
Qed.

(** * What the effects do after an event *)

Module Effects.

(** The render of a world whose element is the current one. *)
Lemma render_same r w el v :
  videoRef w = Some el -> key el = currentIndex (state w) ->
  js_index (videos w) (currentIndex (state w)) = Some v ->
  MoviePlayer.render r w
  = (Normal tt,
     if Bool.eqb (isMuted r) (isMuted (state w)) then w
     else set_videoRef (Some (el_muted (isMuted (state w)) el)) w).
Proof.
  intros Href Hk Hv. unfold MoviePlayer.render, bind, gets.
  rewrite Hv, Href, Hk, Z.eqb_refl.
  destruct (Bool.eqb (isMuted r) (isMuted (state w))); reflexivity.
Qed.

(** The render of a world whose element belongs to another index. *)
Lemma render_other r w el v :
  videoRef w = Some el -> key el <> currentIndex (state w) ->
  js_index (videos w) (currentIndex (state w)) = Some v ->
  MoviePlayer.render r w
  = (Normal tt,
     set_videoRef (Some (newElement (currentIndex (state w)) v (isMuted (state w)))) w).
Proof.
  intros Href Hk Hv. unfold MoviePlayer.render, bind, gets.
  rewrite Hv, Href. apply Z.eqb_neq in Hk. rewrite Hk. reflexivity.
Qed.

(** The play effect with an element. *)
Lemma playEffect_eq w el :
  videoRef w = Some el ->
  playEffect w
  = (Normal tt,
     if isPlaying (state w)
     then set_pending (pending w ++ [FirstAttempt])
            (set_playCalls (S (playCalls w)) (set_videoRef (Some el) w))
     else set_videoRef (Some (el_paused true el)) w).
Proof.
  intros Href. destruct w as [vs [ci ip sw pc im su] ref pend tm lst con calls unc].
  simpl in *. subst ref. destruct ip; reflexivity.
Qed.

Lemma toggled e w el v :
  toggles e = true ->
  videoRef w = Some el -> key el = currentIndex (state w) ->
  js_index (videos w) (currentIndex (state w)) = Some v ->
  MoviePlayer.step e w
  = if isPlaying (state w)
    then set_videoRef (Some (el_paused true el)) (set_state (with_isPlaying negb) w)
    else set_pending (pending w ++ [FirstAttempt])
           (set_playCalls (S (playCalls w))
              (set_videoRef (Some el) (set_state (with_isPlaying negb) w))).
Proof.
  intros Ht Href Hk Hv.
  rewrite (Welcome.step_after e w _ (Toggle.dispatch_toggle _ _ e w Ht)).
  unfold settle, commit, bind at 1.
  rewrite (render_same _ _ el v) by assumption.
  simpl. rewrite eqb_reflx. unfold bind at 1, gets at 1. simpl.
  rewrite Z.eqb_refl, eqb_reflx.
  destruct w as [vs [ci ip sw pc im su] ref pend tm lst con calls unc].
  simpl in *. subst ref. destruct ip; reflexivity.
Qed.

End Effects.

(** X6.  The play/pause toggle in the player mounted on a non-empty list: from
    playing, the effect calls [pause()] on the element and no [play()]; from
    paused, it issues one play attempt and leaves the element as it is.  The
    element is never replaced and never rewound by a toggle. *)
Theorem toggle_pauses_or_plays (vs : list Video.t) fv ls evs e el :
  vs <> [] ->
  let w := MoviePlayer.run evs (MoviePlayer.mount vs fv ls) in
  toggles e = true ->
  videoRef w = Some el ->
  let w' := MoviePlayer.step e w in
  if isPlaying (state w)
  then videoRef w' = Some (el_paused true el)
       /\ playCalls w' = playCalls w /\ pending w' = pending w
  else videoRef w' = Some el
       /\ playCalls w' = S (playCalls w)
       /\ pending w' = pending w ++ [FirstAttempt].
Proof.
  intros Hvs w Ht Href w'.
  destruct (Element.run_element vs fv ls evs Hvs) as ([Hr _] & _ & _ & Hc).
  fold w in Hr, Hc. destruct Hc as (el' & Href' & Hk).
  assert (el' = el) by congruence. subst el'.
  destruct (js_index (videos w) (currentIndex (state w))) as [v|] eqn:Hv;
    [|destruct (Safety.in_range_index w Hr Hv)].
  unfold w'. rewrite (Effects.toggled e w el v Ht Href Hk Hv).
  destruct (isPlaying (state w)); repeat split.
Qed.

Lemma toggle_pauses_or_plays_witness :
  let vs := [clip 1; clip 2] in
  let w := MoviePlayer.run [Settled 0 true] (MoviePlayer.mount vs false ∅) in
  let w' := MoviePlayer.step (KeyDown "Space") w in
  let el := el_paused false (newElement 0 (clip 1) true) in
  vs <> [] /\ toggles (KeyDown "Space") = true /\ videoRef w = Some el
  /\ videoRef w' = Some (el_paused true el) /\ playCalls w' = playCalls w.
Proof.
  intros vs w w' el. assert (Hvs : vs <> []) by discriminate.
  assert (Ht : toggles (KeyDown "Space") = true) by reflexivity.
  assert (Href : videoRef w = Some el) by (vm_compute; reflexivity).
  pose proof (toggle_pauses_or_plays vs false ∅ [Settled 0 true] (KeyDown "Space") el
                Hvs Ht Href) as H.
  cbv zeta in H. fold vs w in H. fold w' in H.
  assert (Hp : isPlaying (state w) = true) by (vm_compute; reflexivity).
  rewrite Hp in H. destruct H as (H1 & H2 & _).
  split; [exact Hvs|]. split; [exact Ht|]. split; [exact Href|].
  split; [exact H1 | exact H2].
Defined.

(** * The clip a navigation request loads *)

Module NextClip.

Lemma dispatch_eq resume r e d w :
  navigation e = Some d ->
  dispatch resume r e w = (Normal tt, snd (handleNavigation d w)).
Proof.
  intros H. destruct e as [code|[tag| | |]| | | |i ok|ms|pos]; simpl in H; try discriminate.
  - unfold dispatch, handleKeyPress.
    destruct (String.eqb code "ArrowLeft"); [injection H as <-; reflexivity|].
    destruct (String.eqb code "ArrowRight"); [injection H as <-; reflexivity|discriminate].
  - injection H as <-. reflexivity.
  - injection H as <-. reflexivity.
  - injection H as <-. reflexivity.
  - injection H as <-. reflexivity.
Qed.

(** On a list of one clip the request asks for the same index, on a longer
    list for another one. *)
Lemma wrapped_same d n i :
  0 <= i < n -> (wrapped d n i =? i) = (n =? 1).
Proof.
  intros H. rewrite <- (Navigation.wrapped_eq d n i H).
  destruct d.
  - destruct (Z.eqb_spec i 0); destruct (Z.eqb_spec n 1);
      try (symmetry; apply Z.eqb_neq; lia); try (apply Z.eqb_eq; lia); apply Z.eqb_neq; lia.
  - destruct (Z.eqb_spec i (n - 1)); destruct (Z.eqb_spec n 1);
      try (apply Z.eqb_eq; lia); apply Z.eqb_neq; lia.
Qed.

Lemma wrapped_range d n i : 0 <= i < n -> 0 <= wrapped d n i < n.
Proof. intros H. unfold wrapped. destruct d; apply Z.mod_pos_bound; lia. Qed.

Lemma index_in_range (vs : list Video.t) j :
  0 <= j < js_length vs -> exists v, js_index vs j = Some v.
Proof.
  intros H. destruct (js_index vs j) as [v|] eqn:E; [eauto|].
  exfalso. unfold js_index, js_length in *.
  destruct (Z.ltb_spec j 0); [lia|]. apply lookup_ge_None in E. lia.
Qed.

(** The step of a navigation request on a player with the element of its
    index. *)
Lemma request_eq e d w el v :
  navigation e = Some d -> in_range w ->
  videoRef w = Some el -> key el = currentIndex (state w) ->
  let j := wrapped d (js_length (videos w)) (currentIndex (state w)) in
  js_index (videos w) j = Some v ->
  let w' := MoviePlayer.step e w in
  videoRef w' = Some (if js_length (videos w) =? 1 then el
                      else newElement j v (isMuted (state w)))
  /\ playCalls w' = (if (js_length (videos w) =? 1) && isPlaying (state w)
                     then playCalls w else S (playCalls w))
  /\ pending w' = (if (js_length (videos w) =? 1) && isPlaying (state w)
                   then pending w else pending w ++ [FirstAttempt]).
Proof.
  intros Hnav Hr Href Hk j Hv w'. subst w'.
  rewrite (Welcome.step_after e w _ (dispatch_eq _ _ e d w Hnav)).
  rewrite Navigation.handleNavigation_eq. cbv [snd].
  pose proof (Navigation.wrapped_eq d _ _ Hr) as E. fold j in E.
  pose proof (wrapped_same d _ _ Hr) as Hs. fold j in Hs.
  destruct w as [vs [ci ip sw pc im su] ref pend tm lst con calls unc].
  simpl in *. subst ref.
  unfold set_state, with_isPlaying, with_playCount, with_currentIndex. simpl.
  assert (E' : match d with
               | Prev => if ci =? 0 then js_length vs - 1 else ci - 1
               | Next => if ci =? js_length vs - 1 then 0 else ci + 1
               end = j) by (destruct d; exact E).
  rewrite E'. clear E E'.
  unfold settle, commit, MoviePlayer.render, bind, gets. simpl.
  pose proof Hs as Hs'. rewrite Z.eqb_sym in Hs'.
  rewrite Hv. simpl. rewrite Hk.
  destruct (js_length vs =? 1); destruct ip;
    repeat (simpl; rewrite ?Hs, ?Hs', ?eqb_reflx); repeat split.
Qed.

End NextClip.

(** X7.  A navigation request in the player mounted on a non-empty list.  On a
    list of more than one clip the element is replaced by a fresh one for the
    new index (source of that clip, [muted] as [isMuted] says, paused at 0) and
    one play attempt is issued.  On a list of one clip the element is kept as
    it is, not rewound, and a play attempt is issued only if the player was
    paused. *)
Theorem navigation_loads_clip (vs : list Video.t) fv ls evs e d el :
  vs <> [] ->
  let w := MoviePlayer.run evs (MoviePlayer.mount vs fv ls) in
  navigation e = Some d ->
  videoRef w = Some el ->
  let w' := MoviePlayer.step e w in
  let j := wrapped d (js_length vs) (currentIndex (state w)) in
  exists v,
    js_index vs j = Some v
    /\ videoRef w' = Some (if js_length vs =? 1 then el
                           else newElement j v (isMuted (state w)))
    /\ playCalls w' = (if (js_length vs =? 1) && isPlaying (state w)
                       then playCalls w else S (playCalls w))
    /\ pending w' = (if (js_length vs =? 1) && isPlaying (state w)
                     then pending w else pending w ++ [FirstAttempt]).
Proof.
  intros Hvs w Hnav Href w' j.
  destruct (Element.run_element vs fv ls evs Hvs) as ([Hr _] & _ & _ & Hc).
  fold w in Hr, Hc. destruct Hc as (el' & Href' & Hk).
  assert (el' = el) by congruence. subst el'.
  assert (Hvw : videos w = vs)
    by (unfold w; rewrite Frame.run_videos, Invariant.mount_videos; reflexivity).
  unfold in_range in Hr.
  destruct (NextClip.index_in_range vs j) as [v Hv].
  { unfold j. apply NextClip.wrapped_range. rewrite <- Hvw. exact Hr. }
  exists v. split; [exact Hv|].
  pose proof (NextClip.request_eq e d w el v Hnav Hr Href Hk) as H.
  cbv zeta in H. rewrite Hvw in H. exact (H Hv).
Qed.

Lemma navigation_loads_clip_witness :
  [clip 1] <> []
  /\ navigation SwipedLeft = Some Next
  /\ videoRef (MoviePlayer.run [Settled 0 true; Ended]
                (MoviePlayer.mount [clip 1] false ∅))
     = Some (el_paused false (newElement 0 (clip 1) true))
  /\ videoRef (MoviePlayer.step SwipedLeft
                (MoviePlayer.run [Settled 0 true; Ended]
                   (MoviePlayer.mount [clip 1] false ∅)))
     = Some (el_paused false (newElement 0 (clip 1) true)).
Proof.
  assert (Hvs : [clip 1] <> []) by discriminate.
  assert (Hnav : navigation SwipedLeft = Some Next) by reflexivity.
  assert (Href : videoRef (MoviePlayer.run [Settled 0 true; Ended]
                             (MoviePlayer.mount [clip 1] false ∅))
                 = Some (el_paused false (newElement 0 (clip 1) true)))
    by (vm_compute; reflexivity).
  split; [exact Hvs|]. split; [exact Hnav|]. split; [exact Href|].
  destruct (navigation_loads_clip [clip 1] false ∅ [Settled 0 true; Ended]
              SwipedLeft Next _ Hvs Hnav Href) as (v & _ & H1 & _).
  exact H1.
Defined.

(** * Events without a handler *)

Module Ignored.

Lemma dispatch_ignored resume e w :
  ignored w e = true -> dispatch resume (state w) e w = (Normal tt, w).
Proof.
  intros H. destruct e as [code|[tag| | |]| | | |i ok|ms|pos]; simpl in H; try discriminate.
  - apply andb_true_iff in H as [H Hs]. apply andb_true_iff in H as [Hl Hr].
    apply negb_true_iff in Hl, Hr, Hs.
    unfold dispatch, handleKeyPress. rewrite Hl, Hr, Hs. reflexivity.
  - unfold dispatch, handleVideoClick. rewrite H. reflexivity.
  - apply negb_true_iff in H. unfold dispatch. rewrite H. reflexivity.
  - apply bool_decide_eq_true in H. unfold dispatch, bind, gets. rewrite H. reflexivity.
  - unfold dispatch, elapse, bind, gets.
    destruct (timer w) as [remaining|]; [|reflexivity].
    apply orb_true_iff in H as [H|H]; [rewrite H; reflexivity|].
    apply bool_decide_eq_true in H. discriminate.
Qed.

(** A commit after which no dependency has changed. *)
Lemma commit_idle w el v :
  videoRef w = Some el -> key el = currentIndex (state w) ->
  js_index (videos w) (currentIndex (state w)) = Some v ->
  commit MoviePlayer.render (state w) w = (Normal tt, w).
Proof.
  intros Href Hk Hv. unfold commit, bind at 1.
  rewrite (Effects.render_same _ _ el v) by assumption.
  rewrite eqb_reflx. unfold bind, gets.
  rewrite !eqb_reflx, Z.eqb_refl. reflexivity.
Qed.

End Ignored.

(** X8.  In the player mounted on a non-empty list, an event without a handler
    changes nothing at all: a key other than the arrows and the space bar, a
    click on a button, a click on the unmute control while it is not rendered,
    the settling of a promise that is not pending, a passing of no time or
    of time without a running timeout.  No cell, no element property, no
    storage entry changes and [play()] is not called. *)
Theorem ignored_events_change_nothing (vs : list Video.t) fv ls evs e :
  vs <> [] ->
  let w := MoviePlayer.run evs (MoviePlayer.mount vs fv ls) in
  ignored w e = true ->
  MoviePlayer.step e w = w.
Proof.
  intros Hvs w Hi.
  destruct (Element.run_element vs fv ls evs Hvs) as ([Hr _] & _ & _ & Hc).
  fold w in Hr, Hc. destruct Hc as (el & Href & Hk).
  destruct (js_index (videos w) (currentIndex (state w))) as [v|] eqn:Hv;
    [|destruct (Safety.in_range_index w Hr Hv)].
  rewrite (Welcome.step_after e w w (Ignored.dispatch_ignored _ e w Hi)).
  unfold settle. rewrite (Ignored.commit_idle w el v Href Hk Hv). reflexivity.
Qed.

Lemma ignored_events_change_nothing_witness :
  [clip 1; clip 2] <> []
  /\ ignored (MoviePlayer.run [Ended] (MoviePlayer.mount [clip 1; clip 2] true ∅))
             (KeyDown "Enter") = true
  /\ MoviePlayer.step (KeyDown "Enter")
       (MoviePlayer.run [Ended] (MoviePlayer.mount [clip 1; clip 2] true ∅))
     = MoviePlayer.run [Ended] (MoviePlayer.mount [clip 1; clip 2] true ∅).
Proof.
  assert (Hvs : [clip 1; clip 2] <> []) by discriminate.
  assert (Hi : ignored (MoviePlayer.run [Ended]
                          (MoviePlayer.mount [clip 1; clip 2] true ∅))
                       (KeyDown "Enter") = true) by reflexivity.
  split; [exact Hvs|]. split; [exact Hi|].
  exact (ignored_events_change_nothing [clip 1; clip 2] true ∅ [Ended]
           (KeyDown "Enter") Hvs Hi).
Defined.

(** * The unmute control *)

Module Unmute.

Lemma click_eq w el v :
  unmuteButtonRendered (state w) = true ->
  videoRef w = Some el -> key el = currentIndex (state w) ->
  js_index (videos w) (currentIndex (state w)) = Some v ->
  let w' := MoviePlayer.step (Click UnmuteButton) w in
  state w' = with_isMuted (fun _ => false) (state w)
  /\ videoRef w' = Some (el_muted false el)
  /\ localStorage w' = <["videoMuted" := "false"]> (localStorage w)
  /\ playCalls w' = playCalls w /\ pending w' = pending w /\ timer w' = timer w.
Proof.
  intros Hb Href Hk Hv w'. subst w'.
  destruct w as [vs [ci ip sw pc im su] ref pend tm lst con calls unc].
  unfold unmuteButtonRendered in Hb. simpl in *. subst ref.
  apply andb_true_iff in Hb as [-> ->].
  unfold MoviePlayer.step, step, settle, dispatch, commit, MoviePlayer.render,
    unmuteButtonRendered, bind, gets.
  simpl. rewrite Hv. simpl. rewrite Hk, Z.eqb_refl. simpl.
  rewrite !eqb_reflx, Z.eqb_refl. simpl. repeat split.
Qed.

End Unmute.

(** X9.  A click on the unmute control, while it is rendered, in the player
    mounted on a non-empty list: [isMuted] becomes false and no other cell
    changes (the click does not reach the play/pause toggle), the render
    clears the [muted] property of the element in place, the element is not
    replaced, [play()] is not called, the store keeps its content, and the
    control is gone from the tree. *)
Theorem unmute_click (vs : list Video.t) fv ls evs el :
  vs <> [] ->
  let w := MoviePlayer.run evs (MoviePlayer.mount vs fv ls) in
  unmuteButtonRendered (state w) = true ->
  videoRef w = Some el ->
  let w' := MoviePlayer.step (Click UnmuteButton) w in
  state w' = with_isMuted (fun _ => false) (state w)
  /\ videoRef w' = Some (el_muted false el)
  /\ localStorage w' = localStorage w
  /\ playCalls w' = playCalls w /\ pending w' = pending w
  /\ unmuteButtonRendered (state w') = false.
Proof.
  intros Hvs w Hb Href w'.
  destruct (Element.run_element vs fv ls evs Hvs) as ([Hr _] & _ & _ & Hc).
  fold w in Hr, Hc. destruct Hc as (el' & Href' & Hk).
  assert (el' = el) by congruence. subst el'.
  destruct (js_index (videos w) (currentIndex (state w))) as [v|] eqn:Hv;
    [|destruct (Safety.in_range_index w Hr Hv)].
  destruct (Unmute.click_eq w el v Hb Href Hk Hv) as (Hs & He & _ & Hc & Hp & _).
  fold w' in Hs, He, Hc, Hp.
  pose proof (Store.kept_run ls evs _ (Store.kept_mount vs fv ls)) as [Hl _].
  pose proof (Store.kept_run ls (evs ++ [Click UnmuteButton]) _
                (Store.kept_mount vs fv ls)) as [Hl' _].
  rewrite Frame.run_snoc in Hl'. fold w in Hl, Hl'. fold w' in Hl'.
  split; [exact Hs|]. split; [exact He|]. split; [congruence|].
  split; [exact Hc|]. split; [exact Hp|].
  rewrite Hs. reflexivity.
Qed.

Lemma unmute_click_witness :
  [clip 1] <> []
  /\ unmuteButtonRendered
       (state (MoviePlayer.run [Settled 0 false]
                 (MoviePlayer.mount [clip 1] false {["videoMuted" := "false"]})))
     = true
  /\ videoRef (MoviePlayer.run [Settled 0 false]
                 (MoviePlayer.mount [clip 1] false {["videoMuted" := "false"]}))
     = Some (newElement 0 (clip 1) true)
  /\ videoRef (MoviePlayer.step (Click UnmuteButton)
                 (MoviePlayer.run [Settled 0 false]
                    (MoviePlayer.mount [clip 1] false {["videoMuted" := "false"]})))
     = Some (el_muted false (newElement 0 (clip 1) true)).
Proof.
  assert (Hvs : [clip 1] <> []) by discriminate.
  assert (Hb : unmuteButtonRendered
                 (state (MoviePlayer.run [Settled 0 false]
                           (MoviePlayer.mount [clip 1] false
                              {["videoMuted" := "false"]}))) = true)
    by (vm_compute; reflexivity).
  assert (Href : videoRef (MoviePlayer.run [Settled 0 false]
                   (MoviePlayer.mount [clip 1] false {["videoMuted" := "false"]}))
                 = Some (newElement 0 (clip 1) true))
    by (vm_compute; reflexivity).
  split; [exact Hvs|]. split; [exact Hb|]. split; [exact Href|].
  exact (proj1 (proj2 (unmute_click [clip 1] false {["videoMuted" := "false"]}
                         [Settled 0 false] _ Hvs Hb Href))).
Defined.

(** * The host and its player *)

Module Host.

Lemma transformed_index data i :
  js_index (App.transformed data) i
  = option_map (fun item => Video.mk (App.id item) (App.video_url item) (App.title item))
               (js_index data i).
Proof.
  unfold js_index, App.transformed. destruct (i <? 0); [reflexivity|].
  rewrite list_lookup_fmap. reflexivity.
Qed.

Lemma transformed_length data : js_length (App.transformed data) = js_length data.
Proof. unfold js_length, App.transformed. rewrite length_map. reflexivity. Qed.

Lemma session_items ls m data evs :
  App.session ls (App.Items (m :: data)) evs
  = (App.Player (App.transformed (m :: data)) (js_not (ls !! "visited")),
     Some (MoviePlayer.run evs
             (MoviePlayer.mount (App.transformed (m :: data)) (js_not (ls !! "visited"))
                (snd (App.isFirstVisit_init ls))))).
Proof.
  unfold App.session, App.init, App.isFirstVisit_init.
  destruct (js_not (ls !! "visited")); reflexivity.
Qed.

End Host.

(** X10.  A session of the host, whatever the store, the answer to the request
    and the events.  An answer that is a non-empty array of objects mounts the
    player on the items in their order; then nothing is ever thrown,
    [currentIndex] stays an index of the answer and the element plays the
    [video_url] of the item at [currentIndex].  Every other answer (a failure,
    the [no_more_new_videos] flag, an empty array, an array with a null or
    undefined entry, on which [item.id] throws into the [catch], something
    that is no array) ends in the message without a player; the loading view
    is never left standing. *)
Theorem session_outcome (ls : gmap string string) (r : App.Response) (evs : list Event) :
  match r with
  | App.Items (m :: data) =>
      exists w el item,
        App.session ls r evs
        = (App.Player (App.transformed (m :: data)) (js_not (ls !! "visited")), Some w)
        /\ uncaught w = []
        /\ videoRef w = Some el
        /\ js_index (m :: data) (currentIndex (state w)) = Some item
        /\ key el = currentIndex (state w)
        /\ src el = App.video_url item
  | _ => App.session ls r evs = (App.NoVideosToDisplay, None)
  end.
Proof.
  destruct r as [| |[|m data]| |]; try (apply Empty.host_empty; exact I).
  rewrite Host.session_items.
  set (vs := App.transformed (m :: data)).
  assert (Hvs : vs <> []) by discriminate.
  set (w := MoviePlayer.run evs (MoviePlayer.mount vs (js_not (ls !! "visited"))
                                   (snd (App.isFirstVisit_init ls)))).
  destruct (Element.run_element vs (js_not (ls !! "visited"))
              (snd (App.isFirstVisit_init ls)) evs Hvs) as (_ & Hs & _ & Hc).
  fold w in Hs, Hc. destruct Hc as (el & Href & Hk).
  destruct (Hs el Href) as (_ & v & Hv & Hsrc).
  replace (videos w) with vs in Hv
    by (unfold w; rewrite Frame.run_videos, Invariant.mount_videos; reflexivity).
  unfold vs in Hv. rewrite Hk, Host.transformed_index in Hv.
  destruct (js_index (m :: data) (currentIndex (state w))) as [item|] eqn:Hi;
    [|discriminate].
  injection Hv as <-.
  exists w, el, item. split; [reflexivity|].
  split; [apply Safety.no_crash, Hvs|]. auto.
Qed.

(** * The two player files side by side *)

Module Agree.

Lemma length_nonzero {A} (xs : list A) : xs <> [] -> (js_length xs =? 0) = false.
Proof. destruct xs; [congruence|]. intros _. apply Z.eqb_neq. unfold js_length. simpl. lia. Qed.

Lemma render_agree r w :
  videos w <> [] -> Standalone.render r w = MoviePlayer.render r w.
Proof.
  intros H. unfold Standalone.render, bind, gets. rewrite (length_nonzero _ H). reflexivity.
Qed.

Lemma commit_agree r w :
  videos w <> [] -> commit Standalone.render r w = commit MoviePlayer.render r w.
Proof. intros H. unfold commit, bind. rewrite (render_agree _ _ H). reflexivity. Qed.

Lemma resume_resolved ph w :
  Standalone.tryPlayVideo_resume ph (Normal tt) w
  = MoviePlayer.tryPlayVideo_resume ph (Normal tt) w.
Proof.
  destruct ph; unfold Standalone.tryPlayVideo_resume, MoviePlayer.tryPlayVideo_resume,
    try_catch, await, bind, gets; simpl;
    [destruct (shouldUnmute (state w))|]; reflexivity.
Qed.

Lemma dispatch_agree r e w :
  rejection w e = false ->
  dispatch Standalone.tryPlayVideo_resume r e w
  = dispatch MoviePlayer.tryPlayVideo_resume r e w.
Proof.
  intros H. destruct e as [code|[tag| | |]| | | |i ok|ms|pos]; try reflexivity.
  unfold dispatch, bind, gets.
  destruct (pending w !! i) as [ph|] eqn:Hp; [|reflexivity].
  destruct ok; [|simpl in H; rewrite Hp in H; apply bool_decide_eq_false in H;
                 destruct H; eauto].
  unfold modify, settlement. cbv iota.
  match goal with
  | |- context [when true ?m ?w0] => destruct (when true m w0) as [[[]|err] w2]
  end; [apply resume_resolved | reflexivity].
Qed.

Lemma dispatch_input_player r e w :
  videos w <> [] ->
  Standalone.dispatch_input r (Standalone.Player e) w
  = dispatch Standalone.tryPlayVideo_resume r e w.
Proof.
  intros H. unfold Standalone.dispatch_input, bind, gets. rewrite (length_nonzero _ H).
  destruct e; reflexivity.
Qed.

Lemma step_agree e w :
  videos w <> [] -> rejection w e = false ->
  Standalone.step (Standalone.Player e) w = MoviePlayer.step e w.
Proof.
  intros Hvs Hrej. unfold Standalone.step, MoviePlayer.step, step, settle, bind.
  rewrite (dispatch_input_player _ _ _ Hvs), (dispatch_agree _ _ _ Hrej).
  pose proof (Frame.dispatch_videos (state w) e w) as Hv.
  destruct (dispatch MoviePlayer.tryPlayVideo_resume (state w) e w) as [[[]|err] wd];
    [|reflexivity].
  simpl in Hv. rewrite commit_agree by congruence. reflexivity.
Qed.

End Agree.

Module Console.

Section Rules.
Context {A B : Type}.

Lemma blind_ret (a : A) : blind (ret a).
Proof. intros w1 w2 H. split; [reflexivity | exact H]. Qed.

Lemma blind_throw err : blind (@throw A err).
Proof. intros w1 w2 H. split; [reflexivity | exact H]. Qed.

Lemma blind_await c : blind (await c).
Proof. intros w1 w2 H. split; [reflexivity | exact H]. Qed.

Lemma blind_gets (f : World -> A) :
  (forall w1 w2, forget_console w1 = forget_console w2 -> f w1 = f w2) ->
  blind (gets f).
Proof. intros Hf w1 w2 H. unfold gets. simpl. split; [f_equal; apply Hf, H | exact H]. Qed.

Lemma blind_modify g :
  (forall w1 w2, forget_console w1 = forget_console w2 ->
     forget_console (g w1) = forget_console (g w2)) ->
  blind (modify g).
Proof. intros Hg w1 w2 H. split; [reflexivity | apply Hg, H]. Qed.

Lemma blind_bind (m : M A) (k : A -> M B) :
  blind m -> (forall a, blind (k a)) -> blind (bind m k).
Proof.
  intros Hm Hk w1 w2 H. unfold bind. destruct (Hm w1 w2 H) as [Hc Hw].
  destruct (m w1) as [[a1|e1] w1'], (m w2) as [[a2|e2] w2']; simpl in *;
    try discriminate.
  - injection Hc as <-. apply Hk, Hw.
  - injection Hc as <-. split; [reflexivity | exact Hw].
Qed.

Lemma blind_try_catch (m : M A) (h : string -> M A) :
  blind m -> (forall err, blind (h err)) -> blind (try_catch m h).
Proof.
  intros Hm Hh w1 w2 H. unfold try_catch. destruct (Hm w1 w2 H) as [Hc Hw].
  destruct (m w1) as [[a1|e1] w1'], (m w2) as [[a2|e2] w2']; simpl in *;
    try discriminate.
  - injection Hc as <-. split; [reflexivity | exact Hw].
  - injection Hc as <-. apply Hh, Hw.
Qed.
End Rules.

(** Descent along the structure of a handler. *)
Ltac blind_descend :=
  repeat (cbv beta;
    lazymatch goal with
    | |- blind (ret _) => apply blind_ret
    | |- blind (throw _) => apply blind_throw
    | |- blind (await _) => apply blind_await
    | |- blind (gets _) => apply blind_gets
    | |- blind (modify _) => apply blind_modify
    | |- blind (bind _ _) => apply blind_bind; [| intros ?]
    | |- blind (try_catch _ _) => apply blind_try_catch; [| intros ?]
    | |- blind (if ?b then _ else _) => destruct b
    | |- blind (match ?x with _ => _ end) => destruct x
    | |- blind _ => progress autounfold with js
    end).

(** At a read or an update: the two worlds, field by field. *)
Ltac blind_leaf :=
  let w1 := fresh "w" in
  let w2 := fresh "w" in
  let H := fresh "H" in
  intros w1 w2 H;
  destruct w1 as [? [? ? ? ? ? ?] ? ? ? ? ? ? ?];
  destruct w2 as [? [? ? ? ? ? ?] ? ? ? ? ? ? ?];
  unfold forget_console in *; simpl in *; simplify_eq; reflexivity.

Lemma blind_dispatch resume r e :
  (forall ph c, blind (resume ph c)) -> blind (dispatch resume r e).
Proof.
  intros Hres. destruct e as [code|[tag| | |]| | | |i ok|ms|pos].
  all: unfold dispatch.
  all: try (blind_descend; blind_leaf).
  apply blind_bind; [blind_descend; blind_leaf | intros p].
  destruct (p !! i) as [ph|]; [|blind_descend].
  apply blind_bind; [blind_descend; blind_leaf | intros _].
  apply blind_bind; [blind_descend; blind_leaf | intros _]. apply Hres.
Qed.

Lemma blind_resume ph c : blind (MoviePlayer.tryPlayVideo_resume ph c).
Proof. destruct ph; blind_descend; blind_leaf. Qed.

Lemma blind_commit r : blind (commit MoviePlayer.render r).
Proof. blind_descend; blind_leaf. Qed.

End Console.

Module Variants.

Lemma same_fields w1 w2 :
  forget_console w1 = forget_console w2 ->
  state w1 = state w2 /\ videos w1 = videos w2 /\ videoRef w1 = videoRef w2
  /\ pending w1 = pending w2.
Proof.
  destruct w1 as [? [? ? ? ? ? ?] ? ? ? ? ? ? ?], w2 as [? [? ? ? ? ? ?] ? ? ? ? ? ? ?].
  unfold forget_console. simpl. intros H. simplify_eq. auto.
Qed.

Lemma same_all w1 w2 :
  forget_console w1 = forget_console w2 ->
  state w1 = state w2 /\ videos w1 = videos w2 /\ uncaught w1 = uncaught w2.
Proof.
  destruct w1 as [? [? ? ? ? ? ?] ? ? ? ? ? ? ?], w2 as [? [? ? ? ? ? ?] ? ? ? ? ? ? ?].
  unfold forget_console. simpl. intros H. simplify_eq. auto.
Qed.

Lemma same_uncaught u w1 w2 :
  forget_console w1 = forget_console w2 ->
  forget_console (set_uncaught (uncaught w1 ++ u) w1)
  = forget_console (set_uncaught (uncaught w2 ++ u) w2).
Proof.
  destruct w1 as [? [? ? ? ? ? ?] ? ? ? ? ? ? ?], w2 as [? [? ? ? ? ? ?] ? ? ? ? ? ? ?].
  unfold forget_console. simpl. intros H. simplify_eq. reflexivity.
Qed.

Lemma wf_videos w : wf w -> videos w <> [].
Proof.
  intros [Hr _] Hnil. unfold in_range in Hr. rewrite Hnil in Hr.
  unfold js_length in Hr. simpl in Hr. lia.
Qed.

(** The two continuations of [tryPlayVideo] after a rejection, with an
    element: the same but for the messages. *)
Lemma dispatch_rejection r i w :
  is_Some (videoRef w) ->
  let a := dispatch Standalone.tryPlayVideo_resume r (Settled i false) w in
  let b := dispatch MoviePlayer.tryPlayVideo_resume r (Settled i false) w in
  fst a = fst b /\ forget_console (snd a) = forget_console (snd b).
Proof.
  intros [el Href]. destruct w as [vs s ref pend tm lst con calls unc].
  simpl in Href. subst ref. unfold dispatch, bind, gets. simpl.
  destruct (pend !! i) as [[|]|]; split; reflexivity.
Qed.

Lemma dispatch_either r e w :
  is_Some (videoRef w) ->
  let a := dispatch Standalone.tryPlayVideo_resume r e w in
  let b := dispatch MoviePlayer.tryPlayVideo_resume r e w in
  fst a = fst b /\ forget_console (snd a) = forget_console (snd b).
Proof.
  intros Href. destruct (rejection w e) eqn:Hrej.
  - destruct e as [| | | | |i [|]| |]; try discriminate. apply dispatch_rejection, Href.
  - cbv zeta. rewrite (Agree.dispatch_agree r e w Hrej). split; reflexivity.
Qed.

(** An event in the two players, from worlds that differ in the console only. *)
Lemma step_either e w1 w2 :
  wf w2 -> forget_console w1 = forget_console w2 ->
  forget_console (Standalone.step (Standalone.Player e) w1)
  = forget_console (MoviePlayer.step e w2).
Proof.
  intros Hwf H. destruct (same_fields w1 w2 H) as (Hs & Hv & Href & _).
  pose proof (wf_videos w2 Hwf) as Hvs. destruct Hwf as [_ Hel].
  unfold Standalone.step, MoviePlayer.step, step, settle, bind.
  rewrite Agree.dispatch_input_player by congruence.
  destruct (dispatch_either (state w1) e w1) as [Hc1 Hw1]; [congruence|].
  destruct (Console.blind_dispatch MoviePlayer.tryPlayVideo_resume (state w1) e
              Console.blind_resume w1 w2 H) as [Hc2 Hw2].
  rewrite Hs in Hc1, Hw1, Hc2, Hw2 |- *.
  pose proof (Frame.dispatch_videos (state w2) e w2) as Hvd.
  destruct (dispatch Standalone.tryPlayVideo_resume (state w2) e w1) as [c1 wd1].
  destruct (dispatch MoviePlayer.tryPlayVideo_resume (state w2) e w1) as [c wd].
  destruct (dispatch MoviePlayer.tryPlayVideo_resume (state w2) e w2) as [c2 wd2].
  simpl in *. subst c c1.
  assert (Hd : forget_console wd1 = forget_console wd2) by congruence.
  destruct c2 as [[]|err]; [|apply same_uncaught, Hd].
  destruct (same_fields wd1 wd2 Hd) as (_ & Hv' & _).
  rewrite Agree.commit_agree by congruence.
  destruct (Console.blind_commit (state w2) wd1 wd2 Hd) as [Hc3 Hw3].
  destruct (commit MoviePlayer.render (state w2) wd1) as [c3 wc1].
  destruct (commit MoviePlayer.render (state w2) wd2) as [c4 wc2].
  simpl in *. subst c3.
  destruct c4 as [[]|err]; [exact Hw3 | apply same_uncaught, Hw3].
Qed.

(** Any events, from a world with clips, an index in range and an element. *)
Lemma run_either evs w1 w2 :
  wf w2 -> forget_console w1 = forget_console w2 ->
  forget_console (Standalone.run (map Standalone.Player evs) w1)
  = forget_console (MoviePlayer.run evs w2).
Proof.
  revert w1 w2. induction evs as [|e evs IH]; intros w1 w2 Hwf H; [exact H|].
  simpl map. change (Standalone.run (Standalone.Player e :: ?l) w1)
    with (Standalone.run l (Standalone.step (Standalone.Player e) w1)).
  rewrite Frame.run_cons.
  apply IH; [apply Invariant.wf_step, Hwf | apply step_either; assumption].
Qed.

End Variants.

(** X11.  The player without props (part_000), once it has clips, its index in
    range and its element, is the player with props (part_001): on every
    sequence of events the two leave the same cells, the same element, the
    same pending promises, the same calls of [play()], the same timer and
    store, and nothing uncaught.  They differ in the messages they log
    after a rejected [play()]. *)
Theorem variants_agree (evs : list Event) (w : World) :
  wf w ->
  forget_console (Standalone.run (map Standalone.Player evs) w)
  = forget_console (MoviePlayer.run evs w).
Proof. intros Hwf. apply Variants.run_either; [exact Hwf | reflexivity]. Qed.

Lemma variants_agree_witness :
  wf (Standalone.run
        [Standalone.Fetched
           (Standalone.Success [App.mkMovie 1 "a.mp4" "A"; App.mkMovie 2 "b.mp4" "B"])]
        (Standalone.mount ∅))
  /\ forget_console
       (Standalone.run (map Standalone.Player [SwipedLeft; Settled 0 false])
          (Standalone.run
             [Standalone.Fetched
                (Standalone.Success
                   [App.mkMovie 1 "a.mp4" "A"; App.mkMovie 2 "b.mp4" "B"])]
             (Standalone.mount ∅)))
     = forget_console
         (MoviePlayer.run [SwipedLeft; Settled 0 false]
            (Standalone.run
               [Standalone.Fetched
                  (Standalone.Success
                     [App.mkMovie 1 "a.mp4" "A"; App.mkMovie 2 "b.mp4" "B"])]
               (Standalone.mount ∅))).
Proof.
  assert (Hwf : wf (Standalone.run
                      [Standalone.Fetched
                         (Standalone.Success
                            [App.mkMovie 1 "a.mp4" "A"; App.mkMovie 2 "b.mp4" "B"])]
                      (Standalone.mount ∅))).
  { split; [unfold in_range; vm_compute; split; [discriminate | reflexivity]|].
    vm_compute. eauto. }
  split; [exact Hwf|].
  exact (variants_agree [SwipedLeft; Settled 0 false] _ Hwf).
Defined.

(** * The player without props before and at the arrival of the clips *)

Module Arrival.

Lemma fetched_eq (m : App.Movie) movies w :
  loading w ->
  let vs := App.transformed (m :: movies) in
  Standalone.step (Standalone.Fetched (Standalone.Success (m :: movies))) w
  = settle (MoviePlayer.render (state w)) (set_videos vs w).
Proof.
  intros (Hvs & Href & Hp) vs.
  destruct w as [vs0 [ci ip sw pc im su] ref pend tm lst con calls unc].
  simpl in *. subst vs0 ref pend.
  unfold Standalone.step, settle, Standalone.dispatch_input, Standalone.fetched,
    commit, Standalone.render, MoviePlayer.render, bind, gets, modify. simpl.
  destruct (js_index _ ci) as [v|]; simpl; [|reflexivity].
  rewrite !eqb_reflx, Z.eqb_refl. reflexivity.
Qed.

Ltac index_leaf :=
  unfold loading, js_length in *; simpl in *;
  repeat match goal with H : _ /\ _ |- _ => destruct H end;
  subst; simpl in *;
  repeat match goal with
         | H : String.eqb _ _ = _ |- _ => rewrite H in *
         | H : videos _ = [] |- _ => rewrite H in *
         end;
  simpl in *; bool_hyps; repeat case_match; bool_hyps; first [lia | congruence].

(** [currentIndex] while the list is empty: the arrows count, without a wrap. *)
Lemma dispatch_index r i c :
  brings_no_clips i ->
  hoare (fun w => loading w /\ currentIndex (state w) = c)
        (fun w => currentIndex (state w) = c + arrow i)
        (Standalone.dispatch_input r i).
Proof.
  intros Hi. destruct i as [[|[|m movies]|]|e]; try contradiction.
  all: hoare_auto; index_leaf.
Qed.

Lemma commit_index r c :
  hoare (fun w => currentIndex (state w) = c) (fun w => currentIndex (state w) = c)
        (commit Standalone.render r).
Proof. hoare_auto; congruence. Qed.

Lemma step_index i w :
  brings_no_clips i -> loading w ->
  currentIndex (state (Standalone.step i w)) = currentIndex (state w) + arrow i.
Proof.
  intros Hi Hw. unfold Standalone.step, settle, bind.
  pose proof (dispatch_index (state w) i _ Hi w (conj Hw eq_refl)) as Hd.
  destruct (Standalone.dispatch_input (state w) i w) as [[[]|err] wd]; simpl in Hd;
    [|exact Hd].
  pose proof (commit_index (state w) _ wd Hd) as Hc.
  destruct (commit Standalone.render (state w) wd) as [[[]|err] wc]; exact Hc.
Qed.

Lemma run_index ins w :
  Forall brings_no_clips ins -> loading w ->
  currentIndex (state (Standalone.run ins w)) = currentIndex (state w) + arrows ins.
Proof.
  intros Hall. revert w. induction Hall as [|i ins Hi _ IH]; intros w Hw.
  - simpl. lia.
  - change (Standalone.run (i :: ins) w) with (Standalone.run ins (Standalone.step i w)).
    destruct (Empty.loading_step i w Hi Hw) as (Hw1 & _).
    rewrite (IH _ Hw1), (step_index i w Hi Hw). simpl. lia.
Qed.

Lemma index_test {A} (xs : list A) j :
  match js_index xs j with Some _ => true | None => false end
  = (0 <=? j) && (j <? js_length xs).
Proof.
  unfold js_index, js_length. destruct (Z.ltb_spec j 0) as [Hneg|Hpos].
  - symmetry. apply andb_false_iff. left. apply Z.leb_gt. exact Hneg.
  - destruct (xs !! Z.to_nat j) as [x|] eqn:Hx; symmetry.
    + apply lookup_lt_Some in Hx. apply andb_true_iff.
      split; [apply Z.leb_le | apply Z.ltb_lt]; lia.
    + apply lookup_ge_None in Hx. apply andb_false_iff. right. apply Z.ltb_ge. lia.
Qed.

(** The step at which the clips arrive. *)
Lemma arrival (m : App.Movie) movies w :
  loading w ->
  let w' := Standalone.step (Standalone.Fetched (Standalone.Success (m :: movies))) w in
  videos w' = App.transformed (m :: movies)
  /\ state w' = state w
  /\ playCalls w' = playCalls w
  /\ pending w' = []
  /\ match js_index (m :: movies) (currentIndex (state w)) with
     | Some item =>
         videoRef w'
         = Some (mkElement (currentIndex (state w)) (App.video_url item) true
                           (isMuted (state w)) true 0)
         /\ uncaught w' = uncaught w
     | None => videoRef w' = None /\ uncaught w' = uncaught w ++ ["TypeError"]
     end.
Proof.
  intros Hw w'. subst w'. rewrite (fetched_eq m movies w Hw).
  pose proof (Host.transformed_index (m :: movies) (currentIndex (state w))) as Hti.
  remember (App.transformed (m :: movies)) as vs eqn:Evs. clear Evs.
  destruct Hw as (Hvs & Href & Hp).
  destruct w as [vs0 [ci ip sw pc im su] ref pend tm lst con calls unc].
  simpl in *. subst vs0 ref pend.
  unfold settle, MoviePlayer.render, bind, gets. simpl. rewrite Hti.
  destruct (js_index (m :: movies) ci) as [item|]; simpl; repeat split.
Qed.

End Arrival.

(** X12.  The arrival of the clips in the player without props.  The list is
    stored and the cells are untouched.  If [currentIndex] is an index of the
    list, the element of that clip is created, muted as [isMuted] says and
    with [autoPlay], and nothing is thrown; [play()] is not called, since no
    dependency of the play effect changed.  If arrow keys have moved
    [currentIndex] out of the list, the render throws a [TypeError] and no
    element exists. *)
Theorem clips_arrive (m : App.Movie) (movies : list App.Movie) (w : World) :
  loading w ->
  let w' := Standalone.step (Standalone.Fetched (Standalone.Success (m :: movies))) w in
  videos w' = App.transformed (m :: movies)
  /\ state w' = state w
  /\ playCalls w' = playCalls w
  /\ pending w' = []
  /\ match js_index (m :: movies) (currentIndex (state w)) with
     | Some item =>
         videoRef w'
         = Some (mkElement (currentIndex (state w)) (App.video_url item) true
                           (isMuted (state w)) true 0)
         /\ uncaught w' = uncaught w
     | None => videoRef w' = None /\ uncaught w' = uncaught w ++ ["TypeError"]
     end.
Proof. apply Arrival.arrival. Qed.

Lemma clips_arrive_witness :
  loading (Standalone.run [Standalone.Player (KeyDown "ArrowRight")] (Standalone.mount ∅))
  /\ videoRef
       (Standalone.step
          (Standalone.Fetched
             (Standalone.Success [App.mkMovie 1 "a.mp4" "A"; App.mkMovie 2 "b.mp4" "B"]))
          (Standalone.run [Standalone.Player (KeyDown "ArrowRight")]
             (Standalone.mount ∅)))
     = Some (mkElement 1 "b.mp4" true true true 0)
  /\ playCalls
       (Standalone.step
          (Standalone.Fetched
             (Standalone.Success [App.mkMovie 1 "a.mp4" "A"; App.mkMovie 2 "b.mp4" "B"]))
          (Standalone.run [Standalone.Player (KeyDown "ArrowRight")]
             (Standalone.mount ∅)))
     = 0%nat.
Proof.
  assert (Hw : loading (Standalone.run [Standalone.Player (KeyDown "ArrowRight")]
                          (Standalone.mount ∅)))
    by (repeat split).
  destruct (clips_arrive (App.mkMovie 1 "a.mp4" "A") [App.mkMovie 2 "b.mp4" "B"] _ Hw)
    as (_ & _ & Hc & _ & Hel).
  split; [exact Hw|]. split; [exact (proj1 Hel) | exact Hc].
Defined.

(** X13.  While the player without props has no clips, [currentIndex] is the
    number of ArrowRight presses minus the number of ArrowLeft presses, without
    any wrap; no other input touches it.  So the arrival of the clips
    throws exactly when that number is no index of the list. *)
Theorem arrows_decide_arrival (ls : gmap string string) (ins : list Standalone.Input)
    (m : App.Movie) (movies : list App.Movie) :
  Forall brings_no_clips ins ->
  let w := Standalone.run ins (Standalone.mount ls) in
  let w' := Standalone.step (Standalone.Fetched (Standalone.Success (m :: movies))) w in
  currentIndex (state w) = arrows ins
  /\ uncaught w'
     = (if (0 <=? arrows ins) && (arrows ins <? js_length (m :: movies))
        then [] else ["TypeError"])
  /\ playCalls w' = 0%nat.
Proof.
  intros Hall w w'.
  destruct (Empty.loading_mount ls) as (Hl0 & Hc0 & Hu0 & Hi0).
  destruct (Empty.loading_run ins _ Hall Hl0) as (Hl & Hc & Hu).
  pose proof (Arrival.run_index ins _ Hall Hl0) as Hi.
  rewrite Hi0 in Hi. rewrite Hc0 in Hc. rewrite Hu0 in Hu.
  fold w in Hl, Hc, Hu, Hi. rewrite Z.add_0_l in Hi.
  destruct (Arrival.arrival m movies w Hl) as (_ & _ & Hc' & _ & Hel).
  fold w' in Hc', Hel.
  split; [exact Hi|]. split; [|congruence].
  rewrite Hi, Hu in Hel. rewrite <- Arrival.index_test.
  destruct (js_index (m :: movies) (arrows ins)); exact (proj2 Hel).
Qed.

Lemma arrows_decide_arrival_witness :
  Forall brings_no_clips
    [Standalone.Player (KeyDown "ArrowLeft"); Standalone.Player (KeyDown "Space");
     Standalone.Fetched Standalone.Failed]
  /\ uncaught
       (Standalone.step
          (Standalone.Fetched (Standalone.Success [App.mkMovie 1 "a.mp4" "A"]))
          (Standalone.run
             [Standalone.Player (KeyDown "ArrowLeft");
              Standalone.Player (KeyDown "Space");
              Standalone.Fetched Standalone.Failed]
             (Standalone.mount ∅)))
     = ["TypeError"].
Proof.
  assert (Hall : Forall brings_no_clips
                   [Standalone.Player (KeyDown "ArrowLeft");
                    Standalone.Player (KeyDown "Space");
                    Standalone.Fetched Standalone.Failed])
    by (repeat constructor).
  split; [exact Hall|].
  exact (proj1 (proj2 (arrows_decide_arrival ∅ _ (App.mkMovie 1 "a.mp4" "A") [] Hall))).
Defined.

(** X14.  The player without props from its mount to the end: if the arrow
    presses made before the clips arrive net to an index of the list, nothing
    is ever thrown afterwards, whatever the events and however the promises
    settle, and [currentIndex] stays an index of the list. *)
Theorem standalone_safe_in_range (ls : gmap string string)
    (ins : list Standalone.Input) (m : App.Movie) (movies : list App.Movie)
    (evs : list Event) :
  Forall brings_no_clips ins ->
  0 <= arrows ins < js_length (m :: movies) ->
  let w := Standalone.run
             (ins ++ Standalone.Fetched (Standalone.Success (m :: movies))
                  :: map Standalone.Player evs)
             (Standalone.mount ls) in
  uncaught w = []
  /\ videos w = App.transformed (m :: movies)
  /\ 0 <= currentIndex (state w) < js_length (m :: movies).
Proof.
  intros Hall Hin w.
  destruct (Empty.loading_mount ls) as (Hl0 & _ & Hu0 & Hi0).
  destruct (Empty.loading_run ins _ Hall Hl0) as (Hl & _ & Hu).
  pose proof (Arrival.run_index ins _ Hall Hl0) as Hi.
  rewrite Hi0, Z.add_0_l in Hi. rewrite Hu0 in Hu.
  set (w0 := Standalone.run ins (Standalone.mount ls)) in *.
  destruct (Arrival.arrival m movies w0 Hl) as (Hv & Hs & _ & _ & Hel).
  set (w1 := Standalone.step (Standalone.Fetched (Standalone.Success (m :: movies))) w0)
    in *.
  assert (Hw : w = Standalone.run (map Standalone.Player evs) w1).
  { unfold w, Standalone.run. rewrite fold_left_app. reflexivity. }
  pose proof (Arrival.index_test (m :: movies) (currentIndex (state w0))) as Ht.
  rewrite Hi in Ht, Hel.
  assert (Htrue : (0 <=? arrows ins) && (arrows ins <? js_length (m :: movies)) = true)
    by (apply andb_true_iff; split; [apply Z.leb_le | apply Z.ltb_lt]; lia).
  rewrite Htrue in Ht.
  destruct (js_index (m :: movies) (arrows ins)) as [item|]; [|discriminate].
  destruct Hel as [Href Hu1]. rewrite Hu in Hu1.
  assert (Hwf : wf w1).
  { split; [|rewrite Href; eauto].
    unfold in_range. rewrite Hs, Hi, Hv, Host.transformed_length. exact Hin. }
  pose proof (Variants.run_either evs w1 w1 Hwf eq_refl) as Hag. rewrite <- Hw in Hag.
  destruct (Variants.same_all _ _ Hag) as (Hst & Hvid & Hunc).
  rewrite Hst, Hvid, Hunc.
  split; [rewrite Safety.run_uncaught by exact Hwf; exact Hu1|].
  split; [rewrite Frame.run_videos; exact Hv|].
  destruct (Invariant.wf_run evs w1 Hwf) as [Hr _]. unfold in_range in Hr.
  rewrite Frame.run_videos, Hv, Host.transformed_length in Hr. exact Hr.
Qed.

Lemma standalone_safe_in_range_witness :
  Forall brings_no_clips
    [Standalone.Player (KeyDown "ArrowRight"); Standalone.Player (Elapse 5000)]
  /\ 0 <= arrows [Standalone.Player (KeyDown "ArrowRight");
                  Standalone.Player (Elapse 5000)]
       < js_length [App.mkMovie 1 "a.mp4" "A"; App.mkMovie 2 "b.mp4" "B"]
  /\ uncaught
       (Standalone.run
          ([Standalone.Player (KeyDown "ArrowRight"); Standalone.Player (Elapse 5000)]
           ++ Standalone.Fetched
                (Standalone.Success [App.mkMovie 1 "a.mp4" "A"; App.mkMovie 2 "b.mp4" "B"])
              :: map Standalone.Player [SwipedLeft; Settled 0 false; Ended])
          (Standalone.mount ∅))
     = [].
Proof.
  assert (Hall : Forall brings_no_clips
                   [Standalone.Player (KeyDown "ArrowRight");
                    Standalone.Player (Elapse 5000)])
    by (repeat constructor).
  assert (Hin : 0 <= arrows [Standalone.Player (KeyDown "ArrowRight");
                             Standalone.Player (Elapse 5000)]
                < js_length [App.mkMovie 1 "a.mp4" "A"; App.mkMovie 2 "b.mp4" "B"])
    by (vm_compute; split; [discriminate | reflexivity]).
  split; [exact Hall|]. split; [exact Hin|].
  exact (proj1 (standalone_safe_in_range ∅ _ (App.mkMovie 1 "a.mp4" "A")
                  [App.mkMovie 2 "b.mp4" "B"] [SwipedLeft; Settled 0 false; Ended]
                  Hall Hin)).
Defined.

(** * The welcome timeout of the player without props *)

Module Waiting.

Ltac welcome_leaf :=
  unfold welcome_at, loading in *; simpl in *;
  repeat match goal with
         | H : _ /\ _ |- _ => destruct H
         | H : _ \/ _ |- _ => destruct H
         end;
  subst; simpl in *; bool_hyps;
  try congruence;
  let close := (first [assumption | congruence | lia | f_equal; lia]) in
  let at_t := (first [ left; split; [close | split; close]
                     | right; split; [close | split; close] ]) in
  split; [split; [close | split; close]|];
  split; [at_t | first [left; close | right; close]].

(** The handlers that are reachable while the list is empty. *)
Lemma dispatch_key r code t :
  hoare (fun w => loading w /\ welcome_at t w /\ showWelcome (state w) = showWelcome r)
        (fun w => loading w /\ welcome_at t w
                  /\ (showWelcome (state w) = showWelcome r
                      \/ showWelcome (state w) = false))
        (dispatch Standalone.tryPlayVideo_resume r (KeyDown code)).
Proof. hoare_auto; welcome_leaf. Qed.

Lemma dispatch_settled r i ok t :
  hoare (fun w => loading w /\ welcome_at t w /\ showWelcome (state w) = showWelcome r)
        (fun w => loading w /\ welcome_at t w
                  /\ (showWelcome (state w) = showWelcome r
                      \/ showWelcome (state w) = false))
        (dispatch Standalone.tryPlayVideo_resume r (Settled i ok)).
Proof.
  intros w ((Hvs & Href & Hp) & Hw & Hs). unfold dispatch, bind, gets.
  rewrite Hp. simpl. unfold loading. auto.
Qed.

Lemma dispatch_elapse r ms t :
  0 <= t ->
  hoare (fun w => loading w /\ welcome_at t w /\ showWelcome (state w) = showWelcome r)
        (fun w => loading w /\ welcome_at (t + Z.max 0 ms) w
                  /\ (showWelcome (state w) = showWelcome r
                      \/ showWelcome (state w) = false))
        (dispatch Standalone.tryPlayVideo_resume r (Elapse ms)).
Proof.
  intros Ht w (Hl & Hw & Hs). destruct Hl as (Hvs & Href & Hp).
  destruct w as [vs [ci ip sw pc im su] ref pend tm lst con calls unc].
  simpl in *. subst vs ref pend.
  unfold dispatch, elapse, clearTimeout, welcomeTimeout,
    setShowWelcome, tryPlayVideo, whenRef, bind, gets, modify, skip, ret. simpl.
  unfold welcome_at, loading in *. simpl in *.
  destruct tm as [remaining|]; simpl;
    [destruct (Z.leb_spec ms 0); [|destruct (Z.leb_spec remaining ms)]|]; simpl.
  all: destruct Hw as [(Hsw & Htm & Hlt)|(Hsw & Htm & Hge)]; try discriminate.
  all: try (injection Htm as ->).
  all: split; [repeat split|].
  - rewrite Z.max_l, Z.add_0_r by lia. split; [left; repeat split; auto | left; exact Hs].
  - rewrite Z.max_r by lia. split; [right; repeat split; lia | right; reflexivity].
  - rewrite Z.max_r by lia.
    split; [left; repeat split; [exact Hsw | f_equal; lia | lia] | left; exact Hs].
  - split; [right; repeat split; [exact Hsw | lia] | left; exact Hs].
Qed.

(** The handlers of an input while the list is empty. *)
Lemma dispatch_welcome r i t :
  brings_no_clips i -> 0 <= t ->
  hoare (fun w => loading w /\ welcome_at t w /\ showWelcome (state w) = showWelcome r)
        (fun w => loading w
                  /\ welcome_at (t + elapsed (player_events [i])) w
                  /\ (showWelcome (state w) = showWelcome r
                      \/ showWelcome (state w) = false))
        (Standalone.dispatch_input r i).
Proof.
  intros Hi Ht. destruct i as [[|[|m movies]|]|e]; try contradiction.
  1-3: simpl; rewrite Z.add_0_r; hoare_auto; welcome_leaf.
  intros w Hpre.
  assert (Hin : Standalone.dispatch_input r (Standalone.Player e) w
                = match e with
                  | Click _ | SwipedLeft | SwipedRight | Ended => (Normal tt, w)
                  | _ => dispatch Standalone.tryPlayVideo_resume r e w
                  end).
  { destruct Hpre as ((Hvs & _) & _).
    unfold Standalone.dispatch_input, bind, gets. rewrite Hvs. destruct e; reflexivity. }
  rewrite Hin. clear Hin.
  destruct e as [code|tg| | | |i ok|ms|pos]; cbn [player_events elapsed];
    rewrite ?Z.add_0_r.
  - apply dispatch_key, Hpre.
  - destruct Hpre as (Hl & Hw & Hs). simpl. auto.
  - destruct Hpre as (Hl & Hw & Hs). simpl. auto.
  - destruct Hpre as (Hl & Hw & Hs). simpl. auto.
  - destruct Hpre as (Hl & Hw & Hs). simpl. auto.
  - apply dispatch_settled, Hpre.
  - apply dispatch_elapse; assumption.
  - destruct Hpre as ((Hvs & Href & Hp) & Hw & Hs).
    unfold dispatch, whenRef, bind, gets. rewrite Href. simpl. unfold loading. auto.
Qed.

(** The re-render while the list is empty: the cleanup of the welcome effect
    runs when the overlay has gone. *)
Lemma commit_welcome r t w :
  loading w -> welcome_at t w ->
  showWelcome (state w) = showWelcome r \/ showWelcome (state w) = false ->
  let w' := settle (commit Standalone.render r) w in
  loading w' /\ welcome_at t w'.
Proof.
  intros (Hvs & Href & Hp) Hw Hs w'. subst w'.
  destruct w as [vs [ci ip sw pc im su] ref pend tm lst con calls unc].
  simpl in *. subst vs ref pend.
  unfold settle, commit, Standalone.render, playEffect, welcomeEffect, clearTimeout,
    setTimeout, whenRef, when, bind, gets, modify, skip, ret. simpl.
  unfold welcome_at, loading in *. simpl in *.
  destruct (negb (eqb (isPlaying r) ip) || negb (currentIndex r =? ci)); simpl.
  all: destruct (eqb (showWelcome r) sw) eqn:E; simpl.
  all: try (split; [repeat split | exact Hw]).
  all: apply eqb_false_iff in E.
  all: destruct Hs as [Hs|Hs]; [congruence|]; subst sw; simpl.
  all: split; [repeat split|].
  all: destruct Hw as [(Hsw & _)|(_ & _ & Hge)]; [discriminate|].
  all: right; repeat split; exact Hge.
Qed.

Lemma step_welcome i t w :
  brings_no_clips i -> 0 <= t -> loading w -> welcome_at t w ->
  let w' := Standalone.step i w in
  loading w' /\ welcome_at (t + elapsed (player_events [i])) w'.
Proof.
  intros Hi Ht Hl Hw w'. subst w'.
  pose proof (dispatch_welcome (state w) i t Hi Ht w (conj Hl (conj Hw eq_refl))) as Hd.
  unfold Standalone.step.
  assert (Hsplit : forall m k w0,
            settle (bind m (fun _ : unit => k)) w0
            = match m w0 with
              | (Normal _, w1) => settle k w1
              | (Throw err, w1) => set_uncaught (uncaught w1 ++ [err]) w1
              end).
  { intros m k w0. unfold settle, bind. destruct (m w0) as [[[]|err] w1]; reflexivity. }
  rewrite Hsplit.
  destruct (Standalone.dispatch_input (state w) i w) as [[[]|err] wd]; simpl in Hd.
  - destruct Hd as (Hl' & Hw' & Hs'). apply commit_welcome; assumption.
  - destruct Hd as (Hl' & Hw' & _). split; [exact Hl' | exact Hw'].
Qed.

Lemma events_cons i ins :
  elapsed (player_events (i :: ins))
  = elapsed (player_events [i]) + elapsed (player_events ins).
Proof.
  destruct i as [r|e]; simpl; [lia|]. apply Welcome.elapsed_cons.
Qed.

Lemma run_welcome ins t w :
  Forall brings_no_clips ins -> 0 <= t -> loading w -> welcome_at t w ->
  let w' := Standalone.run ins w in
  loading w' /\ welcome_at (t + elapsed (player_events ins)) w'.
Proof.
  intros Hall. revert t w. induction Hall as [|i ins Hi _ IH]; intros t w Ht Hl Hw.
  - simpl. rewrite Z.add_0_r. auto.
  - change (Standalone.run (i :: ins) w) with (Standalone.run ins (Standalone.step i w)).
    destruct (step_welcome i t w Hi Ht Hl Hw) as [Hl1 Hw1].
    rewrite events_cons, Z.add_assoc.
    apply IH; [|exact Hl1 | exact Hw1].
    pose proof (Welcome.elapsed_nonneg (player_events [i])). lia.
Qed.

End Waiting.

(** X15.  In the player without props the welcome timeout runs from the
    mount, also while the clips are still being fetched: on a first visit
    [showWelcome] is true exactly while less than 3000 ms have passed since the
    mount; when the 3000 ms pass before the clips arrive, the timeout fires
    while there is no element, no [play()] is called, and the clips arrive
    with [showWelcome] false. *)
Theorem overlay_expires_while_loading (ls : gmap string string)
    (ins : list Standalone.Input) :
  js_not (ls !! "visited") = true ->
  Forall brings_no_clips ins ->
  let w := Standalone.run ins (Standalone.mount ls) in
  let t := elapsed (player_events ins) in
  showWelcome (state w) = (t <? 3000)
  /\ timer w = (if t <? 3000 then Some (3000 - t) else None)
  /\ videoRef w = None
  /\ playCalls w = 0%nat
  /\ forall m movies,
       showWelcome
         (state (Standalone.step
                   (Standalone.Fetched (Standalone.Success (m :: movies))) w))
       = (t <? 3000).
Proof.
  intros Hfirst Hall w t.
  destruct (Empty.loading_mount ls) as (Hl0 & Hc0 & _).
  destruct (Empty.loading_run ins _ Hall Hl0) as (_ & Hc & _).
  assert (Hw0 : welcome_at 0 (Standalone.mount ls)).
  { unfold Standalone.mount, Standalone.showWelcome_init. rewrite Hfirst.
    left. repeat split. }
  destruct (Waiting.run_welcome ins 0 _ Hall ltac:(lia) Hl0 Hw0) as [Hl Hw].
  rewrite Z.add_0_l in Hw. fold w in Hl, Hw, Hc. fold t in Hw.
  assert (Hsw : showWelcome (state w) = (t <? 3000)
                /\ timer w = (if t <? 3000 then Some (3000 - t) else None)).
  { destruct Hw as [(Hs & Htm & Hlt)|(Hs & Htm & Hge)].
    - apply Z.ltb_lt in Hlt. rewrite Hlt. auto.
    - apply Z.ltb_ge in Hge. rewrite Hge. auto. }
  destruct Hsw as [Hs Htm].
  split; [exact Hs|]. split; [exact Htm|]. split; [apply Hl|].
  split; [congruence|].
  intros m movies. destruct (Arrival.arrival m movies w Hl) as (_ & -> & _). exact Hs.
Qed.

Lemma overlay_expires_while_loading_witness :
  js_not ((∅ : gmap string string) !! "visited") = true
  /\ Forall brings_no_clips
       [Standalone.Player (Elapse 2000); Standalone.Player (KeyDown "Space");
        Standalone.Player (Elapse 1500)]
  /\ showWelcome
       (state (Standalone.run
                 [Standalone.Player (Elapse 2000); Standalone.Player (KeyDown "Space");
                  Standalone.Player (Elapse 1500)]
                 (Standalone.mount ∅)))
     = false.
Proof.
  assert (Hfirst : js_not ((∅ : gmap string string) !! "visited") = true) by reflexivity.
  assert (Hall : Forall brings_no_clips
                   [Standalone.Player (Elapse 2000); Standalone.Player (KeyDown "Space");
                    Standalone.Player (Elapse 1500)])
    by (repeat constructor).
  split; [exact Hfirst|]. split; [exact Hall|].
  exact (proj1 (overlay_expires_while_loading ∅ _ Hfirst Hall)).
Defined.

(** * The element muted by the catch block *)

Module Lost.

Ltac lost_leaf :=
  unfold sound_lost in *; simpl in *;
  repeat match goal with
         | H : _ /\ _ |- _ => destruct H
         | H : exists _, _ |- _ => destruct H
         end;
  simplify_eq; simpl in *; bool_hyps;
  first [ congruence
        | split; [first [assumption | reflexivity | congruence]|];
          eexists; split; [first [eassumption | reflexivity]|];
          split; first [assumption | reflexivity | congruence] ].

Lemma lost_dispatch r e :
  navigation e = None ->
  hoare sound_lost sound_lost (dispatch MoviePlayer.tryPlayVideo_resume r e).
Proof.
  intros Hnav. destruct e as [code|[tag| | |]| | | |i ok|ms|pos]; simpl in Hnav;
    try discriminate.
  - unfold dispatch, handleKeyPress.
    destruct (String.eqb code "ArrowLeft"); [discriminate|].
    destruct (String.eqb code "ArrowRight"); [discriminate|].
    hoare_auto; lost_leaf.
  - hoare_auto; lost_leaf.
  - hoare_auto; lost_leaf.
  - hoare_auto; lost_leaf.
  - hoare_auto; lost_leaf.
  - hoare_auto; lost_leaf.
  - hoare_auto; lost_leaf.
Qed.

Lemma lost_commit r :
  isMuted r = false ->
  hoare sound_lost sound_lost (commit MoviePlayer.render r).
Proof. intros Hr. hoare_auto; lost_leaf. Qed.

Lemma lost_step e w :
  navigation e = None -> sound_lost w -> sound_lost (MoviePlayer.step e w).
Proof.
  intros Hnav Hw. unfold MoviePlayer.step, step.
  apply hoare_settle; [intros w' u H; exact H | | exact Hw].
  apply hoare_bind; [apply lost_dispatch, Hnav | intros _; apply lost_commit, Hw].
Qed.

Lemma lost_run evs w :
  Forall (fun e => navigation e = None) evs -> sound_lost w ->
  sound_lost (MoviePlayer.run evs w).
Proof.
  intros Hall. revert w. induction Hall as [|e evs He _ IH]; intros w Hw; [exact Hw|].
  rewrite Frame.run_cons. apply IH, lost_step; assumption.
Qed.

(** The rejection of the first [play()] of an attempt, with the element of the
    current clip. *)
Lemma rejected_eq w i el v :
  pending w !! i = Some FirstAttempt ->
  videoRef w = Some el -> key el = currentIndex (state w) ->
  js_index (videos w) (currentIndex (state w)) = Some v ->
  let w' := MoviePlayer.step (Settled i false) w in
  state w' = state w
  /\ videoRef w' = Some (el_muted true el)
  /\ playCalls w' = S (playCalls w)
  /\ pending w' = delete i (pending w) ++ [MutedRetry].
Proof.
  intros Hp Href Hk Hv w'. subst w'.
  destruct w as [vs [ci ip sw pc im su] ref pend tm lst con calls unc].
  simpl in *. subst ref.
  unfold MoviePlayer.step, step, settle, dispatch, bind, gets. simpl.
  rewrite Hp. simpl.
  unfold commit, MoviePlayer.render, bind, gets. simpl.
  rewrite Hv. simpl. rewrite Hk.
  repeat (rewrite ?eqb_reflx, ?Z.eqb_refl; unfold when, skip, ret; simpl).
  repeat split.
Qed.

End Lost.

(** X16.  When the first [play()] of an attempt is rejected while [isMuted] is
    false, the [catch] mutes the element and nothing unmutes it again: over
    all later events that are no navigation requests the element of the current
    clip stays muted, [isMuted] stays false, and the unmute control is not
    rendered. *)
Theorem muted_by_catch_stays_muted (vs : list Video.t) fv ls evs i rest :
  vs <> [] ->
  let w := MoviePlayer.run evs (MoviePlayer.mount vs fv ls) in
  isMuted (state w) = false ->
  pending w !! i = Some FirstAttempt ->
  Forall (fun e => navigation e = None) rest ->
  let w' := MoviePlayer.run rest (MoviePlayer.step (Settled i false) w) in
  isMuted (state w') = false
  /\ unmuteButtonRendered (state w') = false
  /\ exists el, videoRef w' = Some el /\ muted el = true
                /\ key el = currentIndex (state w').
Proof.
  intros Hvs w Hm Hp Hrest w'.
  destruct (Element.run_element vs fv ls evs Hvs) as ([Hr _] & _ & _ & Hc).
  fold w in Hr, Hc. destruct Hc as (el & Href & Hk).
  destruct (js_index (videos w) (currentIndex (state w))) as [v|] eqn:Hv;
    [|destruct (Safety.in_range_index w Hr Hv)].
  destruct (Lost.rejected_eq w i el v Hp Href Hk Hv) as (Hs & He & _).
  assert (Hl : sound_lost (MoviePlayer.step (Settled i false) w)).
  { split; [rewrite Hs; exact Hm|]. eexists. split; [exact He|].
    split; [reflexivity | rewrite Hs; exact Hk]. }
  destruct (Lost.lost_run rest _ Hrest Hl) as [Hm' Hel]. fold w' in Hm', Hel.
  split; [exact Hm'|]. split; [|exact Hel].
  unfold unmuteButtonRendered. rewrite Hm'. reflexivity.
Qed.

Lemma muted_by_catch_stays_muted_witness :
  [clip 1] <> []
  /\ isMuted (state (MoviePlayer.run [Settled 0 true; KeyDown "Space"; KeyDown "Space"]
                       (MoviePlayer.mount [clip 1] false {["videoMuted" := "false"]})))
     = false
  /\ pending (MoviePlayer.run [Settled 0 true; KeyDown "Space"; KeyDown "Space"]
                (MoviePlayer.mount [clip 1] false {["videoMuted" := "false"]})) !! 0%nat
     = Some FirstAttempt
  /\ Forall (fun e => navigation e = None) [Settled 0 true; Ended; Click (Surface "VIDEO")]
  /\ unmuteButtonRendered
       (state (MoviePlayer.run [Settled 0 true; Ended; Click (Surface "VIDEO")]
                 (MoviePlayer.step (Settled 0 false)
                    (MoviePlayer.run [Settled 0 true; KeyDown "Space"; KeyDown "Space"]
                       (MoviePlayer.mount [clip 1] false
                          {["videoMuted" := "false"]})))))
     = false.
Proof.
  assert (Hvs : [clip 1] <> []) by discriminate.
  assert (Hm : isMuted (state (MoviePlayer.run
                                 [Settled 0 true; KeyDown "Space"; KeyDown "Space"]
                                 (MoviePlayer.mount [clip 1] false
                                    {["videoMuted" := "false"]}))) = false)
    by (vm_compute; reflexivity).
  assert (Hp : pending (MoviePlayer.run
                          [Settled 0 true; KeyDown "Space"; KeyDown "Space"]
                          (MoviePlayer.mount [clip 1] false
                             {["videoMuted" := "false"]})) !! 0%nat
               = Some FirstAttempt)
    by (vm_compute; reflexivity).
  assert (Hrest : Forall (fun e => navigation e = None)
                    [Settled 0 true; Ended; Click (Surface "VIDEO")])
    by (repeat constructor).
  split; [exact Hvs|]. split; [exact Hm|]. split; [exact Hp|]. split; [exact Hrest|].
  exact (proj1 (proj2 (muted_by_catch_stays_muted [clip 1] false
                         {["videoMuted" := "false"]}
                         [Settled 0 true; KeyDown "Space"; KeyDown "Space"] 0%nat
                         [Settled 0 true; Ended; Click (Surface "VIDEO")]
                         Hvs Hm Hp Hrest))).
Defined.

(** * The end of a clip: the rewind and the calls of play() *)

Module Replay.

(** A re-render that finds nothing to do. *)
Lemma commit_nothing r w el v :
  isPlaying (state w) = isPlaying r -> currentIndex (state w) = currentIndex r ->
  showWelcome (state w) = showWelcome r -> isMuted (state w) = isMuted r ->
  videoRef w = Some el -> key el = currentIndex (state w) ->
  js_index (videos w) (currentIndex (state w)) = Some v ->
  commit MoviePlayer.render r w = (Normal tt, w).
Proof.
  intros Hp Hi Hs Hm Href Hk Hv.
  rewrite ClipEnd.commit_same_deps by assumption.
  rewrite (Effects.render_same _ _ el v) by assumption.
  rewrite Hm, eqb_reflx. reflexivity.
Qed.

(** The first end of a clip rewinds the element it finds. *)
Lemma step_rewinds w el :
  wf w -> videoRef w = Some el -> key el = currentIndex (state w) ->
  playCount (state w) = 0 ->
  videoRef (MoviePlayer.step Ended w) = Some (el_currentTime 0 el).
Proof.
  intros [Hr _] Href Hk Hc.
  destruct (js_index (videos w) (currentIndex (state w))) as [v|] eqn:Hv;
    [|destruct (Safety.in_range_index w Hr Hv)].
  destruct (ClipEnd.first_end w el Href Hc) as (wd & Hd & Hst & Hel & _).
  rewrite (Welcome.step_after _ _ _ Hd). unfold settle.
  pose proof (Frame.dispatch_videos (state w) Ended w) as Hvid. rewrite Hd in Hvid.
  simpl in Hvid.
  rewrite (commit_nothing (state w) wd (el_currentTime 0 el) v);
    rewrite ?Hst, ?Hvid; try reflexivity; assumption.
Qed.

(** An event whose handlers leave the dependencies of the effects alone calls
    [play()] as often as its handlers do. *)
Lemma via_dispatch e w wd n :
  dispatch MoviePlayer.tryPlayVideo_resume (state w) e w = (Normal tt, wd) ->
  isPlaying (state wd) = isPlaying (state w) ->
  currentIndex (state wd) = currentIndex (state w) ->
  showWelcome (state wd) = showWelcome (state w) ->
  playCalls wd = n ->
  playCalls (MoviePlayer.step e w) = n.
Proof.
  intros Hd Hp Hi Hs Hn. rewrite (Welcome.step_after _ _ _ Hd).
  destruct (Welcome.settle_commit_quiet (state w) wd Hp Hi Hs) as (_ & _ & Hc).
  rewrite Hc. exact Hn.
Qed.

(** The handlers that call nothing. *)
Lemma dispatch_calls r e n p i s :
  navigation e = None -> toggles e = false -> ended e = false ->
  (forall ms, e <> Elapse ms) -> (forall j ok, e <> Settled j ok) ->
  hoare (fun w => playCalls w = n /\ isPlaying (state w) = p
                  /\ currentIndex (state w) = i /\ showWelcome (state w) = s)
        (fun w => playCalls w = n /\ isPlaying (state w) = p
                  /\ currentIndex (state w) = i /\ showWelcome (state w) = s)
        (dispatch MoviePlayer.tryPlayVideo_resume r e).
Proof.
  intros Hnav Htog Hend Hel Hset.
  destruct e as [code|[tag| | |]| | | |j ok|ms|pos]; simpl in *; try discriminate.
  - unfold dispatch, handleKeyPress.
    destruct (String.eqb code "ArrowLeft"); [discriminate|].
    destruct (String.eqb code "ArrowRight"); [discriminate|].
    simpl in Htog. rewrite Htog. hoare_auto; auto.
  - unfold dispatch, handleVideoClick. rewrite Htog. hoare_auto; auto.
  - hoare_auto; repeat split; congruence.
  - destruct (Hset j ok eq_refl).
  - destruct (Hel ms eq_refl).
  - hoare_auto; repeat split; congruence.
Qed.

(** The settling of a promise. *)
Lemma dispatch_settling i ok w :
  is_Some (videoRef w) ->
  exists wd,
    dispatch MoviePlayer.tryPlayVideo_resume (state w) (Settled i ok) w = (Normal tt, wd)
    /\ isPlaying (state wd) = isPlaying (state w)
    /\ currentIndex (state wd) = currentIndex (state w)
    /\ showWelcome (state wd) = showWelcome (state w)
    /\ playCalls wd = if issues_play w (Settled i ok) then S (playCalls w)
                      else playCalls w.
Proof.
  intros [el Href].
  destruct w as [vs [ci ip sw pc im su] ref pend tm lst con calls unc].
  simpl in *. subst ref. unfold dispatch, bind, gets. simpl.
  destruct (pend !! i) as [[|]|]; destruct ok; simpl;
    try destruct su; eexists; repeat split.
Qed.

(** The first end of a clip. *)
Lemma dispatch_first_end w :
  is_Some (videoRef w) -> (playCount (state w) >=? 1) = false ->
  exists wd,
    dispatch MoviePlayer.tryPlayVideo_resume (state w) Ended w = (Normal tt, wd)
    /\ isPlaying (state wd) = isPlaying (state w)
    /\ currentIndex (state wd) = currentIndex (state w)
    /\ showWelcome (state wd) = showWelcome (state w)
    /\ playCalls wd = S (playCalls w).
Proof.
  intros [el Href] Hc.
  destruct w as [vs [ci ip sw pc im su] ref pend tm lst con calls unc].
  simpl in *. subst ref. unfold dispatch, handleVideoEnd, bind. simpl. rewrite Hc.
  eexists. repeat split.
Qed.

(** How often an event that is no navigation request and no toggle calls
    [play()]. *)
Lemma step_calls e w :
  wf w -> navigation e = None -> toggles e = false ->
  playCalls (MoviePlayer.step e w)
  = if issues_play w e then S (playCalls w) else playCalls w.
Proof.
  intros Hwf Hnav Htog.
  destruct (Welcome.classic_elapse e) as [[ms ->]|Hel].
  { simpl. destruct (timer w) as [remaining|] eqn:Ht.
    - destruct (Z.leb_spec ms 0) as [Hms|Hms]; simpl.
      + apply (Welcome.step_elapse_idle ms w (or_introl Hms)).
      + destruct (Z.leb_spec remaining ms) as [Hdue|Hnot].
        * apply (Welcome.step_elapse_fire ms remaining w Ht Hms Hdue (proj2 Hwf)).
        * apply (Welcome.step_elapse_wait ms remaining w Ht). lia.
    - apply (Welcome.step_elapse_idle ms w (or_intror Ht)). }
  assert (Hquiet : ended e = false -> (forall j ok, e <> Settled j ok) ->
                   playCalls (MoviePlayer.step e w) = playCalls w).
  { intros Hend Hset.
    destruct (Safety.total_dispatch (state w) e w Hwf) as [_ [[] Ha]].
    pose proof (dispatch_calls (state w) e _ _ _ _ Hnav Htog Hend Hel Hset w
                  (conj eq_refl (conj eq_refl (conj eq_refl eq_refl))))
      as (Hn & Hp & Hi & Hs).
    destruct (dispatch MoviePlayer.tryPlayVideo_resume (state w) e w) as [c wd] eqn:Hd.
    simpl in *. subst c. apply (via_dispatch _ _ wd); assumption. }
  destruct e as [code|tg| | | |i ok|ms|pos].
  - apply Hquiet; [reflexivity | discriminate].
  - apply Hquiet; [reflexivity | discriminate].
  - discriminate.
  - discriminate.
  - simpl. destruct (Z.geb_spec (playCount (state w)) 1) as [Hge|Hlt]; simpl.
    + apply ClipEnd.step_second_end. lia.
    + destruct (dispatch_first_end w (proj2 Hwf)) as (wd & Hd & Hp & Hi & Hs & Hn).
      { destruct (Z.geb_spec (playCount (state w)) 1); [lia | reflexivity]. }
      apply (via_dispatch _ _ wd); assumption.
  - destruct (dispatch_settling i ok w (proj2 Hwf)) as (wd & Hd & Hp & Hi & Hs & Hn).
    apply (via_dispatch _ _ wd); assumption.
  - destruct (Hel ms eq_refl).
  - apply Hquiet; [reflexivity | discriminate].
Qed.

(** Without a navigation request [playCount] does not fall. *)
Lemma run_count evs w c :
  Forall (fun e => navigation e = None) evs ->
  c <= playCount (state w) -> c <= playCount (state (MoviePlayer.run evs w)).
Proof.
  intros Hall. revert w. induction Hall as [|e evs Hnav _ IH]; intros w Hc; [exact Hc|].
  rewrite Frame.run_cons. apply IH.
  destruct (ended e) eqn:He.
  - destruct e; try discriminate. rewrite Counter.step_ended. lia.
  - rewrite ClipEnd.step_playCount by assumption. exact Hc.
Qed.

End Replay.

(** C2, amended.  In a player mounted on a non-empty list, take a state whose
    [playCount] is 0.  The first end of the clip makes the count 1, sets the
    position of the media element back to 0, wherever it was, and issues one
    play attempt, with [isPlaying] and [currentIndex] as they were.  After
    events [mid] that are neither navigation requests nor ends, the second end
    makes the count 2 and [isPlaying] false, keeps [currentIndex] and calls no
    [play()].  From then on, through any events [rest] that are neither
    navigation requests nor play/pause toggles, [isPlaying] stays false,
    [currentIndex] stays and the count stays above 1, so that no further end
    replays the clip; [play()] is still called, with [isPlaying] false, when
    the welcome timeout comes due and when the first [play()] of an attempt is
    rejected, and by no other such event. *)
Theorem clip_end_policy (vs : list Video.t) fv ls evs mid rest :
  vs <> [] ->
  let w := MoviePlayer.run evs (MoviePlayer.mount vs fv ls) in
  playCount (state w) = 0 ->
  Forall (fun e => navigation e = None /\ ended e = false) mid ->
  Forall (fun e => navigation e = None /\ toggles e = false) rest ->
  let w1 := MoviePlayer.step Ended w in
  let w1' := MoviePlayer.run mid w1 in
  let w2 := MoviePlayer.step Ended w1' in
  let w3 := MoviePlayer.run rest w2 in
  (playCount (state w1) = 1
   /\ isPlaying (state w1) = isPlaying (state w)
   /\ currentIndex (state w1) = currentIndex (state w)
   /\ (exists el, videoRef w = Some el /\ videoRef w1 = Some (el_currentTime 0 el))
   /\ playCalls w1 = S (playCalls w)
   /\ pending w1 = pending w ++ [FirstAttempt])
  /\ (playCount (state w2) = 2
      /\ isPlaying (state w2) = false
      /\ currentIndex (state w2) = currentIndex (state w)
      /\ playCalls w2 = playCalls w1')
  /\ (isPlaying (state w3) = false
      /\ currentIndex (state w3) = currentIndex (state w)
      /\ 2 <= playCount (state w3)
      /\ forall e,
           navigation e = None -> toggles e = false ->
           playCalls (MoviePlayer.step e w3)
           = if issues_play w3 e then S (playCalls w3) else playCalls w3).
Proof.
  intros Hvs w Hc Hmid Hrest w1 w1' w2 w3.
  destruct (Element.run_element vs fv ls evs Hvs) as (Hwf & _ & _ & Hcur).
  fold w in Hwf, Hcur. destruct Hcur as (el & Href & Hk).
  destruct (ClipEnd.step_first_end w Hwf Hc) as (Hst1 & _ & Hcalls & Hpend).
  fold w1 in Hst1, Hcalls, Hpend.
  pose proof (Replay.step_rewinds w el Hwf Href Hk Hc) as Hrew. fold w1 in Hrew.
  assert (H1 : playCount (state w1) = 1) by (rewrite Hst1; simpl; lia).
  assert (Hi1 : currentIndex (state w1) = currentIndex (state w))
    by (rewrite Hst1; reflexivity).
  destruct (ClipEnd.run_between mid w1 Hmid) as [Hcm Him]. fold w1' in Hcm, Him.
  destruct (ClipEnd.step_second_end w1' ltac:(lia)) as [Hst2 Hcalls2].
  fold w2 in Hst2, Hcalls2.
  assert (Hp2 : isPlaying (state w2) = false) by (rewrite Hst2; reflexivity).
  assert (Hc2 : playCount (state w2) = 2) by (rewrite Hst2; simpl; lia).
  assert (Hi2 : currentIndex (state w2) = currentIndex (state w))
    by (rewrite Hst2; simpl; congruence).
  destruct (ClipEnd.run_stopped rest w2 Hrest Hp2) as [Hp3 Hi3]. fold w3 in Hp3, Hi3.
  assert (Hwf3 : wf w3).
  { unfold w3, w2, w1', w1.
    apply Invariant.wf_run, Invariant.wf_step, Invariant.wf_run, Invariant.wf_step, Hwf. }
  assert (Hc3 : 2 <= playCount (state w3)).
  { apply Replay.run_count; [|lia].
    eapply Forall_impl; [exact Hrest|]. intros e [Hnav _]. exact Hnav. }
  split; [|split].
  - rewrite Hst1 at 2. split; [exact H1|]. split; [reflexivity|].
    split; [exact Hi1|]. split; [eauto|]. split; assumption.
  - split; [exact Hc2|]. split; [exact Hp2|]. split; [exact Hi2 | exact Hcalls2].
  - split; [exact Hp3|]. split; [congruence|]. split; [exact Hc3|].
    intros e Hnav Htog. apply Replay.step_calls; assumption.
Qed.

Lemma clip_end_policy_witness :
  [clip 1; clip 2; clip 3] <> []
  /\ playCount (state (MoviePlayer.run [Settled 0 true; TimeUpdate 42]
                         (MoviePlayer.mount [clip 1; clip 2; clip 3] true ∅))) = 0
  /\ Forall (fun e => navigation e = None /\ ended e = false)
            [Settled 0 true; TimeUpdate 40]
  /\ Forall (fun e => navigation e = None /\ toggles e = false) [Elapse 500]
  /\ videoRef (MoviePlayer.run [Settled 0 true; TimeUpdate 42]
                 (MoviePlayer.mount [clip 1; clip 2; clip 3] true ∅))
     = Some (el_currentTime 42 (el_paused false (newElement 0 (clip 1) true)))
  /\ videoRef (MoviePlayer.step Ended
                 (MoviePlayer.run [Settled 0 true; TimeUpdate 42]
                    (MoviePlayer.mount [clip 1; clip 2; clip 3] true ∅)))
     = Some (el_currentTime 0
               (el_currentTime 42 (el_paused false (newElement 0 (clip 1) true))))
  /\ isPlaying
       (state (MoviePlayer.run [Elapse 500]
                 (MoviePlayer.step Ended
                    (MoviePlayer.run [Settled 0 true; TimeUpdate 40]
                       (MoviePlayer.step Ended
                          (MoviePlayer.run [Settled 0 true; TimeUpdate 42]
                             (MoviePlayer.mount [clip 1; clip 2; clip 3] true ∅)))))))
     = false
  /\ playCalls
       (MoviePlayer.step (Elapse 2500)
          (MoviePlayer.run [Elapse 500]
             (MoviePlayer.step Ended
                (MoviePlayer.run [Settled 0 true; TimeUpdate 40]
                   (MoviePlayer.step Ended
                      (MoviePlayer.run [Settled 0 true; TimeUpdate 42]
                         (MoviePlayer.mount [clip 1; clip 2; clip 3] true ∅)))))))
     = 3%nat.
Proof.
  assert (Hvs : [clip 1; clip 2; clip 3] <> []) by discriminate.
  assert (Hc : playCount (state (MoviePlayer.run [Settled 0 true; TimeUpdate 42]
                 (MoviePlayer.mount [clip 1; clip 2; clip 3] true ∅))) = 0)
    by (vm_compute; reflexivity).
  assert (Hmid : Forall (fun e => navigation e = None /\ ended e = false)
                   [Settled 0 true; TimeUpdate 40]) by (repeat constructor).
  assert (Hrest : Forall (fun e => navigation e = None /\ toggles e = false)
                    [Elapse 500]) by (repeat constructor).
  assert (Href : videoRef (MoviePlayer.run [Settled 0 true; TimeUpdate 42]
                   (MoviePlayer.mount [clip 1; clip 2; clip 3] true ∅))
                 = Some (el_currentTime 42
                           (el_paused false (newElement 0 (clip 1) true))))
    by (vm_compute; reflexivity).
  destruct (clip_end_policy [clip 1; clip 2; clip 3] true ∅
              [Settled 0 true; TimeUpdate 42] [Settled 0 true; TimeUpdate 40]
              [Elapse 500] Hvs Hc Hmid Hrest)
    as ((_ & _ & _ & (el & He & Hrew) & _) & _ & (Hp3 & _ & _ & Hplay)).
  split; [exact Hvs|]. split; [exact Hc|]. split; [exact Hmid|].
  split; [exact Hrest|]. split; [exact Href|].
  split; [rewrite Href in He; injection He as <-; exact Hrew|].
  split; [exact Hp3|].
  rewrite (Hplay (Elapse 2500) eq_refl eq_refl). vm_compute. reflexivity.
Defined.

(** * The scenario of the specification

    Three clips, a first visit, no stored sound preference: the overlay is up
    and the player muted; after 3 s the overlay goes; the first end of the
    clip replays it, the second stops the player; the right arrow moves to the
    second clip with a fresh count and [isPlaying] set. *)
Example specification_scenario :
  let w0 := MoviePlayer.mount [clip 1; clip 2; clip 3] true ∅ in
  let w1 := MoviePlayer.run [Elapse 3000; Settled 0 true; Settled 0 true] w0 in
  let w2 := MoviePlayer.step Ended w1 in
  let w3 := MoviePlayer.run [Settled 0 true; Ended] w2 in
  let w4 := MoviePlayer.step (KeyDown "ArrowRight") w3 in
  state w0 = mkState 0 true true 0 true false
  /\ state w1 = mkState 0 true false 0 true false
  /\ state w2 = mkState 0 true false 1 true false /\ pending w2 = [FirstAttempt]
  /\ state w3 = mkState 0 false false 2 true false
  /\ state w4 = mkState 1 true false 0 true false
  /\ videoRef w4 = Some (newElement 1 (clip 2) true)
  /\ uncaught w4 = [].
Proof. vm_compute. repeat split. Qed.
